(** * Tabular Q-learning for a grid maze: [QTableModel] and [QTableTraceModel]

    A shallow embedding of [models/qtable.py] and [models/qtable_trace.py].

    - Python floats are IEEE binary64 numbers: they are Rocq's primitive
      floats, with the same rounding on every operation.
    - [self.Q] and [etrace] are dictionaries keyed by [(state, action)]:
      finite maps ([gmap]).
    - A state is the tuple of the flattened observation; an action is an
      integer (an [IntEnum] member, or the numpy index [predict] returns,
      which hash and compare alike as dictionary keys).
    - Exceptions are explicit: every function that can raise returns a
      [result].
    - The environment and the random generators are collaborators outside
      the two files; they are interfaces ([Environment], [RandomSource])
      whose state is passed explicitly.
    - [while True] is run with fuel; running out of it is the outcome
      [Diverges], which no Python exception shares. *)

From Stdlib Require Import ZArith List Bool Lia.
From Stdlib Require Import Floats.
From stdpp Require Import base option list gmap fin_maps.

Local Open Scope Z_scope.
Set Warnings "-inexact-float".

(** ** Data model *)

Abbreviation State := (list Z) (only parsing).
Abbreviation Action := Z (only parsing).
Abbreviation Key := (list Z * Z)%type (only parsing).
Abbreviation Cell := (Z * Z)%type (only parsing).
Abbreviation QTable := (gmap (list Z * Z) float) (only parsing).
Abbreviation ETrace := (gmap (list Z * Z) float) (only parsing).

(** [environment.Status] *)
Inductive Status := WIN | LOSE | PLAYING.

(** [status in (Status.WIN, Status.LOSE)] *)
Definition is_terminal (s : Status) : bool :=
  match s with
  | WIN | LOSE => true
  | PLAYING => false
  end.

(** ** Exceptions *)

Inductive exn :=
| KeyError
| ValueError
| IndexError
| ZeroDivisionError
| Diverges.

Inductive result (A : Type) :=
| Ok (a : A)
| Raise (e : exn).
Arguments Ok {A} a.
Arguments Raise {A} e.

#[global] Instance result_ret : MRet result := fun A a => Ok a.
#[global] Instance result_bind : MBind result := fun A B k m =>
  match m with
  | Ok a => k a
  | Raise e => Raise e
  end.

(** ** Floating point helpers *)

Definition f0 : float := 0%float.
Definition f1 : float := 1%float.

(** ** Dictionaries *)

(** [d.get(k, dflt)] *)
Definition dict_get (d : gmap (list Z * Z) float) (k : Key) (dflt : float) : float :=
  match d !! k with
  | Some v => v
  | None => dflt
  end.

(** [d[k]] as an expression *)
Definition dict_index (d : gmap (list Z * Z) float) (k : Key) : result float :=
  match d !! k with
  | Some v => Ok v
  | None => Raise KeyError
  end.

(** [k in d.keys()] *)
Definition dict_mem (d : gmap (list Z * Z) float) (k : Key) : bool :=
  match d !! k with
  | Some _ => true
  | None => false
  end.

(** ** Builtins and numpy *)

(** Python's [max(list)]: the first of the greatest items, by [item > best];
    [ValueError] on an empty list. *)
Definition py_max (l : list float) : result float :=
  match l with
  | [] => Raise ValueError
  | x :: xs => Ok (fold_left (fun best item => if (best <? item)%float then item else best) xs x)
  end.

(** [np.max] on a one-dimensional float array: the reduction of [np.maximum],
    which keeps a NaN once it has met one; [ValueError] on an empty array.
    Of two items that are [==], the zeros [0.0] and [-0.0], the reduction
    here keeps the earlier one and numpy may keep the other: the two differ
    in sign only, which no [==] and no [<=] tells apart. *)
Definition np_maximum (a b : float) : float :=
  if ((b <=? a)%float || is_nan a)%bool then a else b.

Definition np_max (l : list float) : result float :=
  match l with
  | [] => Raise ValueError
  | x :: xs => Ok (fold_left np_maximum xs x)
  end.

(** [np.nonzero(mask)[0]]: the indices at which a boolean array is true,
    in increasing order. *)
Fixpoint nonzero_from (i : nat) (mask : list bool) : list nat :=
  match mask with
  | [] => []
  | b :: rest => if b then i :: nonzero_from (S i) rest else nonzero_from (S i) rest
  end.

Definition np_nonzero (mask : list bool) : list nat := nonzero_from 0 mask.

(** [arr.flatten()] of a two-dimensional array, then [tuple(...)] *)
Definition flatten (a : list (list Z)) : list Z := concat a.

(** What [q] and [predict] receive as [state]: an [np.ndarray] or the tuple
    made from one. *)
Inductive state_arg :=
| NdArray (a : list (list Z))
| Tuple (t : list Z).

(** [if isinstance(state, np.ndarray): state = tuple(state.flatten())] *)
Definition as_tuple (s : state_arg) : State :=
  match s with
  | NdArray a => flatten a
  | Tuple t => t
  end.

(** ** Random generators *)

(** [np.random.random()] and [random._randbelow(n)], each returning the
    generator's next state. *)
Class RandomSource (G : Type) := {
  np_random : G -> float * G;
  randbelow : nat -> G -> nat * G;
}.

(** [random.choice(seq)] is [seq[self._randbelow(len(seq))]], and
    [IndexError] on an empty sequence. *)
Definition random_choice {G} `{RandomSource G} {A : Type} (seq : list A) (g : G)
  : result (A * G) :=
  match seq with
  | [] => Raise IndexError
  | _ :: _ =>
      let '(i, g') := randbelow (length seq) g in
      match seq !! i with
      | Some x => Ok (x, g')
      | None => Raise IndexError
      end
  end.

(** ** The shared policy query *)

Section Policy.
Context {G : Type} `{RandomSource G}.
Variable actions : list Action.

(** [q(self, state)] *)
Definition q (Q : QTable) (state : state_arg) : list float :=
  let state := as_tuple state in
  map (fun action => dict_get Q (state, action) f0) actions.

(** The array [np.nonzero(q == np.max(q))[0]] of [predict]. *)
Definition greedy_actions (Q : QTable) (state : state_arg) : result (list nat) :=
  let qv := q Q state in
  m ← np_max qv;
  Ok (np_nonzero (map (fun v => (v =? m)%float) qv)).

(** [predict(self, state)]: the value returned is the numpy index. *)
Definition predict (Q : QTable) (state : state_arg) (g : G) : result (Action * G) :=
  acts ← greedy_actions Q state;
  '(i, g') ← random_choice acts g;
  Ok (Z.of_nat i, g').

End Policy.

(** ** The environment *)

(** The collaborator behind [self.environment]. [E] is its internal state
    (the maze, the agent's cell, the reward total); the model object the
    hooks receive is its table [Q]. [check_win_all] plays games with the
    model's [predict], so it also uses the random generator. *)
Class Environment (E G : Type) := {
  env_actions : list Action;
  env_empty : list Cell;
  env_reset : E -> Cell -> E * list (list Z);
  env_step : E -> Action -> E * (list (list Z) * float * Status);
  env_check_win_all : E -> QTable -> G -> E * G * (bool * float);
  env_render_q : E -> QTable -> E;
}.

(** What the model does to its collaborators, in order. The record is kept
    for the proofs only; the code has no such log. *)
Inductive event :=
| EvReset (start_cell : Cell)
| EvStep (state : State) (action : Action) (next_state : State) (reward : float) (status : Status)
| EvRenderQ
| EvCheckWinAll (episode : Z) (w_all : bool) (win_rate : float).

(** ** Hyperparameters *)

(** [**kwargs] of [train]; a key that is not passed is [None]. *)
Record kwargs := {
  kw_discount : option float;
  kw_exploration_rate : option float;
  kw_exploration_decay : option float;
  kw_learning_rate : option float;
  kw_eligibility_decay : option float;
  kw_episodes : option Z;
  kw_check_convergence_every : option Z;
}.

(** [kwargs.get(key, dflt)] *)
Definition kwargs_get {A : Type} (o : option A) (dflt : A) : A :=
  match o with
  | Some v => v
  | None => dflt
  end.

Definition default_check_convergence_every : Z := 5.

(** The locals [train] reads its keyword arguments into. *)
Record hyper := {
  discount : float;
  exploration_rate0 : float;
  exploration_decay : float;
  learning_rate : float;
  eligibility_decay : float;
  episodes : Z;
  check_convergence_every : Z;
}.

Definition read_kwargs (kw : kwargs) : hyper :=
  {| discount := kwargs_get (kw_discount kw) 0.90%float;
     exploration_rate0 := kwargs_get (kw_exploration_rate kw) 0.10%float;
     exploration_decay := kwargs_get (kw_exploration_decay kw) 0.995%float;
     learning_rate := kwargs_get (kw_learning_rate kw) 0.10%float;
     eligibility_decay := kwargs_get (kw_eligibility_decay kw) 0.80%float;
     episodes := Z.max (kwargs_get (kw_episodes kw) 1000) 1;
     check_convergence_every :=
       kwargs_get (kw_check_convergence_every kw) default_check_convergence_every |}.

(** [a % b] on Python integers: the sign of the divisor, as [Z.modulo], and
    [ZeroDivisionError] for [b = 0]. *)
Definition py_mod (a b : Z) : result Z :=
  if b =? 0 then Raise ZeroDivisionError else Ok (a mod b).

(** [l.remove(x)]: drops the first item equal to [x]. *)
Fixpoint list_remove_first (x : Cell) (l : list Cell) : result (list Cell) :=
  match l with
  | [] => Raise ValueError
  | y :: rest =>
      if decide (y = x) then Ok rest
      else rest' ← list_remove_first x rest; Ok (y :: rest')
  end.

(** ** Training *)

(** Everything a step of an episode reads and writes: the model's table,
    the collaborators' states, and the locals of [train] that the
    [while True] loop touches. [es_local] is what one variant keeps per
    episode and the other does not: the eligibility trace. *)
Record episode_st (E G L : Type) := {
  es_Q : QTable;
  es_env : E;
  es_gen : G;
  es_log : list event;
  es_cumulative_reward : float;
  es_state : State;
  es_local : L;
}.
Arguments es_Q {E G L} _.
Arguments es_env {E G L} _.
Arguments es_gen {E G L} _.
Arguments es_log {E G L} _.
Arguments es_cumulative_reward {E G L} _.
Arguments es_state {E G L} _.
Arguments es_local {E G L} _.

(** The locals of [train] that live across episodes, with the table and the
    collaborators. *)
Record train_st (E G : Type) := {
  ts_Q : QTable;
  ts_env : E;
  ts_gen : G;
  ts_log : list event;
  ts_exploration_rate : float;
  ts_cumulative_reward : float;
  ts_cumulative_reward_history : list float;
  ts_win_history : list (Z * float);
  ts_start_list : list Cell;
}.

Arguments ts_Q {E G} _.
Arguments ts_env {E G} _.
Arguments ts_gen {E G} _.
Arguments ts_log {E G} _.
Arguments ts_exploration_rate {E G} _.
Arguments ts_cumulative_reward {E G} _.
Arguments ts_cumulative_reward_history {E G} _.
Arguments ts_win_history {E G} _.
Arguments ts_start_list {E G} _.

(** What [train] returns (the elapsed time apart), with the model and the
    collaborators as it leaves them. *)
Record train_out (E G : Type) := {
  out_cumulative_reward_history : list float;
  out_win_history : list (Z * float);
  out_episode : Z;
  out_Q : QTable;
  out_env : E;
  out_gen : G;
  out_log : list event;
}.

Arguments out_cumulative_reward_history {E G} _.
Arguments out_win_history {E G} _.
Arguments out_episode {E G} _.
Arguments out_Q {E G} _.
Arguments out_env {E G} _.
Arguments out_gen {E G} _.
Arguments out_log {E G} _.

(** How a step leaves the loop body: through [break], or at its end. *)
Inductive flow := Break | Continue.

Section Training.
Context {E G : Type} `{Environment E G} `{RandomSource G}.

(** Epsilon-greedy choice:
    [if np.random.random() < exploration_rate: random.choice(actions)
     else: self.predict(state)] *)
Definition choose_action (exploration_rate : float) (Q : QTable) (state : State) (g : G)
  : result (Action * G) :=
  let '(u, g1) := np_random g in
  if (u <? exploration_rate)%float
  then random_choice env_actions g1
  else predict env_actions Q (Tuple state) g1.

(** [if (state, action) not in self.Q.keys(): self.Q[(state, action)] = 0.0] *)
Definition ensure_entry (Q : QTable) (k : Key) : QTable :=
  if dict_mem Q k then Q else <[k := f0]> Q.

(** [max([self.Q.get((next_state, a), 0.0) for a in self.environment.actions])] *)
Definition max_next (Q : QTable) (next_state : State) : result float :=
  py_max (map (fun a => dict_get Q (next_state, a) f0) env_actions).

(** *** [QTableModel.train], the body of [while True] (lines 74-102) *)
Definition qtable_body (hp : hyper) (exploration_rate : float) (st : episode_st E G unit)
  : result (episode_st E G unit * flow) :=
  let state := es_state st in
  '(action, g1) ← choose_action exploration_rate (es_Q st) state (es_gen st);
  let '(env1, (obs, reward, status)) := env_step (es_env st) action in
  let next_state := flatten obs in
  let cumulative_reward := (es_cumulative_reward st + reward)%float in
  let Q1 := ensure_entry (es_Q st) (state, action) in
  max_next_Q ← max_next Q1 next_state;
  old ← dict_index Q1 (state, action);
  let Q2 := <[(state, action) :=
               (old + learning_rate hp * (reward + discount hp * max_next_Q - old))%float]> Q1 in
  let log1 := es_log st ++ [EvStep state action next_state reward status] in
  if is_terminal status
  then Ok ({| es_Q := Q2; es_env := env1; es_gen := g1; es_log := log1;
              es_cumulative_reward := cumulative_reward;
              es_state := state; es_local := tt |}, Break)
  else Ok ({| es_Q := Q2; es_env := env_render_q env1 Q2; es_gen := g1;
              es_log := log1 ++ [EvRenderQ];
              es_cumulative_reward := cumulative_reward;
              es_state := next_state; es_local := tt |}, Continue).

(** *** [QTableTraceModel.train], the body of [while True] (lines 78-113) *)

(** [try: etrace[k] += 1 except KeyError: etrace[k] = 1] *)
Definition etrace_visit (etrace : ETrace) (k : Key) : ETrace :=
  match etrace !! k with
  | Some v => <[k := (v + 1)%float]> etrace
  | None => <[k := f1]> etrace
  end.

(** [for key in etrace.keys(): self.Q[key] += learning_rate * delta * etrace[key]],
    over the items of the trace one after the other. *)
Fixpoint update_trace_keys (lr delta : float) (items : list (Key * float)) (Q : QTable)
  : result QTable :=
  match items with
  | [] => Ok Q
  | (key, e) :: rest =>
      old ← dict_index Q key;
      update_trace_keys lr delta rest (<[key := (old + lr * delta * e)%float]> Q)
  end.

(** [for key in etrace.keys(): etrace[key] *= (discount * eligibility_decay)] *)
Definition etrace_decay (hp : hyper) (etrace : ETrace) : ETrace :=
  (fun e => (e * (discount hp * eligibility_decay hp))%float) <$> etrace.

Definition qtable_trace_body (hp : hyper) (exploration_rate : float) (st : episode_st E G ETrace)
  : result (episode_st E G ETrace * flow) :=
  let state := es_state st in
  '(action, g1) ← choose_action exploration_rate (es_Q st) state (es_gen st);
  let etrace1 := etrace_visit (es_local st) (state, action) in
  let '(env1, (obs, reward, status)) := env_step (es_env st) action in
  let next_state := flatten obs in
  let cumulative_reward := (es_cumulative_reward st + reward)%float in
  let Q1 := ensure_entry (es_Q st) (state, action) in
  max_next_Q ← max_next Q1 next_state;
  cur ← dict_index Q1 (state, action);
  let delta := (reward + discount hp * max_next_Q - cur)%float in
  Q2 ← update_trace_keys (learning_rate hp) delta (map_to_list etrace1) Q1;
  let etrace2 := etrace_decay hp etrace1 in
  let log1 := es_log st ++ [EvStep state action next_state reward status] in
  if is_terminal status
  then Ok ({| es_Q := Q2; es_env := env1; es_gen := g1; es_log := log1;
              es_cumulative_reward := cumulative_reward;
              es_state := state; es_local := etrace2 |}, Break)
  else Ok ({| es_Q := Q2; es_env := env_render_q env1 Q2; es_gen := g1;
              es_log := log1 ++ [EvRenderQ];
              es_cumulative_reward := cumulative_reward;
              es_state := next_state; es_local := etrace2 |}, Continue).

(** *** The loops around the body, which the two files share word for word *)

Section Loops.
Context {L : Type}.
Variable body : hyper -> float -> episode_st E G L -> result (episode_st E G L * flow).
Variable new_local : L.

(** [while True: body]. The loop has no bound of its own; [fuel] bounds the
    number of steps. *)
Fixpoint play (fuel : nat) (hp : hyper) (exploration_rate : float) (st : episode_st E G L)
  : result (episode_st E G L) :=
  match fuel with
  | O => Raise Diverges
  | S fuel' =>
      '(st', fl) ← body hp exploration_rate st;
      match fl with
      | Break => Ok st'
      | Continue => play fuel' hp exploration_rate st'
      end
  end.

(** One pass of [for episode in range(1, episodes + 1)] (lines 62-118):
    the new state and whether the pass ended in [break]. *)
Definition episode_pass (fuel : nat) (stop_at_convergence : bool) (hp : hyper)
    (episode : Z) (ts : train_st E G) : result (train_st E G * flow) :=
  let start_list :=
    match ts_start_list ts with
    | [] => env_empty
    | _ :: _ => ts_start_list ts
    end in
  '(start_cell, g1) ← random_choice start_list (ts_gen ts);
  start_list ← list_remove_first start_cell start_list;
  let '(env1, obs) := env_reset (ts_env ts) start_cell in
  let state := flatten obs in
  st ← play fuel hp (ts_exploration_rate ts)
         {| es_Q := ts_Q ts; es_env := env1; es_gen := g1;
            es_log := ts_log ts ++ [EvReset start_cell];
            es_cumulative_reward := ts_cumulative_reward ts;
            es_state := state; es_local := new_local |};
  let history := ts_cumulative_reward_history ts ++ [es_cumulative_reward st] in
  r ← py_mod episode (check_convergence_every hp);
  if r =? 0
  then
    let '(env2, g2, (w_all, win_rate)) := env_check_win_all (es_env st) (es_Q st) (es_gen st) in
    let win_history := ts_win_history ts ++ [(episode, win_rate)] in
    let log2 := es_log st ++ [EvCheckWinAll episode w_all win_rate] in
    if (w_all && stop_at_convergence)%bool
    then Ok ({| ts_Q := es_Q st; ts_env := env2; ts_gen := g2; ts_log := log2;
                ts_exploration_rate := ts_exploration_rate ts;
                ts_cumulative_reward := es_cumulative_reward st;
                ts_cumulative_reward_history := history;
                ts_win_history := win_history;
                ts_start_list := start_list |}, Break)
    else Ok ({| ts_Q := es_Q st; ts_env := env2; ts_gen := g2; ts_log := log2;
                ts_exploration_rate :=
                  (ts_exploration_rate ts * exploration_decay hp)%float;
                ts_cumulative_reward := es_cumulative_reward st;
                ts_cumulative_reward_history := history;
                ts_win_history := win_history;
                ts_start_list := start_list |}, Continue)
  else Ok ({| ts_Q := es_Q st; ts_env := es_env st; ts_gen := es_gen st;
              ts_log := es_log st;
              ts_exploration_rate :=
                (ts_exploration_rate ts * exploration_decay hp)%float;
              ts_cumulative_reward := es_cumulative_reward st;
              ts_cumulative_reward_history := history;
              ts_win_history := ts_win_history ts;
              ts_start_list := start_list |}, Continue).

(** [for episode in range(first, first + n)]: the state at the end and the
    last value of [episode]. *)
Fixpoint episodes_loop (n : nat) (fuel : nat) (stop_at_convergence : bool) (hp : hyper)
    (episode : Z) (ts : train_st E G) : result (train_st E G * Z) :=
  match n with
  | O => Ok (ts, episode - 1)
  | S n' =>
      '(ts', fl) ← episode_pass fuel stop_at_convergence hp episode ts;
      match fl with
      | Break => Ok (ts', episode)
      | Continue => episodes_loop n' fuel stop_at_convergence hp (episode + 1) ts'
      end
  end.

(** The locals of [train] before the first episode (lines 53-59). *)
Definition train_start (hp : hyper) (Q : QTable) (env : E) (g : G) : train_st E G :=
  {| ts_Q := Q; ts_env := env; ts_gen := g; ts_log := [];
     ts_exploration_rate := exploration_rate0 hp;
     ts_cumulative_reward := f0;
     ts_cumulative_reward_history := [];
     ts_win_history := [];
     ts_start_list := [] |}.

(** The tuple [train] returns. *)
Definition train_return (ts : train_st E G) (episode : Z) : train_out E G :=
  {| out_cumulative_reward_history := ts_cumulative_reward_history ts;
     out_win_history := ts_win_history ts;
     out_episode := episode;
     out_Q := ts_Q ts; out_env := ts_env ts; out_gen := ts_gen ts;
     out_log := ts_log ts |}.

(** [train(self, stop_at_convergence=False, **kwargs)] *)
Definition train (fuel : nat) (Q : QTable) (env : E) (g : G)
    (stop_at_convergence : bool) (kw : kwargs) : result (train_out E G) :=
  let hp := read_kwargs kw in
  '(ts, episode) ← episodes_loop (Z.to_nat (episodes hp)) fuel stop_at_convergence hp 1
                     (train_start hp Q env g);
  Ok (train_return ts episode).

End Loops.

(** The two models. *)
Definition QTableModel_train := train qtable_body tt.
Definition QTableTraceModel_train := train qtable_trace_body (∅ : ETrace).

(** Either of them, for what holds of both. *)
Inductive model := QTableModel | QTableTraceModel.

Definition model_local (m : model) : Type :=
  match m with
  | QTableModel => unit
  | QTableTraceModel => gmap (list Z * Z) float
  end.

Definition model_new_local (m : model) : model_local m :=
  match m with
  | QTableModel => tt
  | QTableTraceModel => ∅
  end.

Definition model_body (m : model)
  : hyper -> float -> episode_st E G (model_local m) ->
    result (episode_st E G (model_local m) * flow) :=
  match m with
  | QTableModel => qtable_body
  | QTableTraceModel => qtable_trace_body
  end.

Definition model_train (m : model) := train (model_body m) (model_new_local m).

End Training.

(** * The words of the statements *)

(** ** Floats *)

(** [<=] on the outcome of a comparison of two floats. *)
Definition cmp_le (c : option comparison) : bool :=
  match c with
  | Some (Lt | Eq) => true
  | _ => false
  end.

(** [not math.isnan(x)] *)
Definition not_nan (x : float) : Prop := is_nan x = false.

(** ** The policy *)

(** The draw of [random.choice] from the array [acts], as [predict] hands
    it back. *)
Definition draw_index {G : Type} `{RandomSource G} (acts : list nat) (g : G)
  : result (Action * G) :=
  match acts with
  | [] => Raise IndexError
  | _ :: _ =>
      match acts !! (randbelow (length acts) g).1 with
      | Some i => Ok (Z.of_nat i, (randbelow (length acts) g).2)
      | None => Raise IndexError
      end
  end.

(** ** Steps *)

(** What a step of either model tells its collaborators. *)
Definition step_events (state : State) (action : Action) (next_state : State)
    (reward : float) (status : Status) : list event :=
  EvStep state action next_state reward status ::
  (if is_terminal status then [] else [EvRenderQ]).

(** The table after the step on [(state, action) -> (next_state, reward, _)]. *)
Definition q_learning_update (hp : hyper) (Q : QTable) (state : State) (action : Action)
    (reward m : float) : QTable :=
  let old := dict_get Q (state, action) f0 in
  <[(state, action) :=
      (old + learning_rate hp * (reward + discount hp * m - old))%float]>
    (ensure_entry Q (state, action)).

(** The pairs [(state, action)] of the steps in a log, in order. *)
Definition chosen_pairs (log : list event) : list Key :=
  flat_map (fun ev => match ev with
                      | EvStep state action _ _ _ => [(state, action)]
                      | _ => []
                      end) log.

(** The transition of a step, as logged. *)
Record transition := {
  tr_state : State;
  tr_action : Action;
  tr_next_state : State;
  tr_reward : float;
  tr_status : Status;
}.

Definition transition_events (t : transition) : list event :=
  step_events (tr_state t) (tr_action t) (tr_next_state t) (tr_reward t) (tr_status t).

(** A body steps the environment once, leaves through [break] exactly on a
    terminal status, calls [render_q] otherwise, and drops no key of the
    table. *)
Definition body_ok {E G L : Type}
    (body : hyper -> float -> episode_st E G L -> result (episode_st E G L * flow)) : Prop :=
  forall hp eps st st' fl,
    body hp eps st = Ok (st', fl) ->
    (exists t, es_log st' = es_log st ++ transition_events t /\
               fl = (if is_terminal (tr_status t) then Break else Continue)) /\
    dom (es_Q st) ⊆ dom (es_Q st').

(** The states of an episode: the state it starts in, and the state after
    each step that does not end it. *)
Inductive in_episode {E G : Type} `{Environment E G} `{RandomSource G}
    (hp : hyper) (eps : float) (st0 : episode_st E G (gmap (list Z * Z) float))
  : episode_st E G (gmap (list Z * Z) float) -> Prop :=
| in_episode_start : in_episode hp eps st0 st0
| in_episode_step (st st' : episode_st E G (gmap (list Z * Z) float)) :
    in_episode hp eps st0 st ->
    qtable_trace_body hp eps st = Ok (st', Continue) ->
    in_episode hp eps st0 st'.

(** ** Logs *)

(** The calls of one kind in a log. *)
Definition is_step (ev : event) : bool :=
  match ev with EvStep _ _ _ _ _ => true | _ => false end.
Definition is_render_q (ev : event) : bool :=
  match ev with EvRenderQ => true | _ => false end.
Definition is_reset (ev : event) : bool :=
  match ev with EvReset _ => true | _ => false end.

Fixpoint count (p : event -> bool) (log : list event) : nat :=
  match log with
  | [] => 0
  | ev :: rest => ((if p ev then 1 else 0) + count p rest)%nat
  end.

(** The checks of convergence in a log: episode, answer and win rate. *)
Definition checks (log : list event) : list (Z * bool * float) :=
  flat_map (fun ev => match ev with
                      | EvCheckWinAll episode w_all win_rate => [(episode, w_all, win_rate)]
                      | _ => []
                      end) log.

(** The events of an episode that took the steps [steps] and then [last]. *)
Definition episode_events (steps : list transition) (last : transition) : list event :=
  flat_map transition_events (steps ++ [last]).

(** ** Runs *)

(** The episode that a pass of the [for] loop plays. *)
Definition episode_start {E G L : Type} (new_local : L) (ts : train_st E G) (env1 : E)
    (g1 : G) (start_cell : Cell) (obs : list (list Z)) : episode_st E G L :=
  {| es_Q := ts_Q ts; es_env := env1; es_gen := g1;
     es_log := ts_log ts ++ [EvReset start_cell];
     es_cumulative_reward := ts_cumulative_reward ts;
     es_state := flatten obs; es_local := new_local |}.

(** The episode of a check and its win rate, as [win_history] keeps them. *)
Definition check_sample (c : Z * bool * float) : Z * float := (c.1.1, c.2).

(** [episode % check_convergence_every == 0] *)
Definition is_checkpoint (every episode : Z) : Prop := episode mod every = 0.

#[global] Instance is_checkpoint_dec (every episode : Z) : Decision (is_checkpoint every episode).
Proof. unfold is_checkpoint. apply _. Defined.

(** * Runs on a small environment *)

(** A corridor of cells [0], [1], [2]: action [0] moves left, action [1]
    moves right; leaving on the right wins, leaving on the left loses. The
    observation is the agent's column. *)
Module Corridor.

Definition step (pos : Z) (action : Action) : Z * (list (list Z) * float * Status) :=
  let pos' := if action =? 1 then pos + 1 else pos - 1 in
  if 2 <? pos' then (pos', ([[pos']], 10.0%float, WIN))
  else if pos' <? 0 then (pos', ([[pos']], (-1.0)%float, LOSE))
  else (pos', ([[pos']], (-0.05)%float, PLAYING)).

(** The generator is a tape of uniform draws and a tape of integers. *)
Definition tape := (list float * list nat)%type.

#[global] Instance rand : RandomSource tape := {|
  np_random g := (hd 0.5%float (fst g), (tl (fst g), snd g));
  randbelow n g := ((hd 0 (snd g) mod n)%nat, (fst g, tl (snd g)));
|}.

(** [check_win_all] reports a win from all cells once the table knows the
    move to the right from the last cell. *)
#[global] Instance env : Environment Z tape := {|
  env_actions := [0; 1];
  env_empty := [(0, 0); (1, 0); (2, 0)];
  env_reset _ cell := (fst cell, [[fst cell]]);
  env_step := step;
  env_check_win_all e Q g :=
    (e, g, (dict_mem Q ([2], 1), if dict_mem Q ([2], 1) then 1.0%float else 0.5%float));
  env_render_q e _ := e;
|}.

End Corridor.

Module Examples.
Import Corridor.

(** [train()] with no keyword but the two that keep a run short. *)
Definition kw (n every : Z) : kwargs :=
  {| kw_discount := None; kw_exploration_rate := None;
     kw_exploration_decay := None; kw_learning_rate := None;
     kw_eligibility_decay := None;
     kw_episodes := Some n; kw_check_convergence_every := Some every |}.

Definition hp : hyper := read_kwargs (kw 3 1).

(** An agent on cell 1 with an empty table; [ints] are the integers that
    [random.choice] will draw. *)
Definition start (L : Type) (l : L) (ints : list nat) : episode_st Z tape L :=
  {| es_Q := ∅; es_env := 1; es_gen := ([], ints); es_log := [];
     es_cumulative_reward := 0%float; es_state := [1]; es_local := l |}.

(** The state after a step, or the state itself where the step raises. *)
Definition after {L : Type}
    (body : hyper -> float -> episode_st Z tape L -> result (episode_st Z tape L * flow))
    (eps : float) (st : episode_st Z tape L) : episode_st Z tape L :=
  match body hp eps st with
  | Ok (st', _) => st'
  | Raise _ => st
  end.

Definition plain0 : episode_st Z tape unit := start unit tt [].
Definition plain1 : episode_st Z tape unit :=
  Eval vm_compute in after qtable_body 0.1%float plain0.

(** Three steps that choose at random: left, right, left. *)
Definition trace0 : episode_st Z tape ETrace := start ETrace ∅ [0; 1; 0]%nat.
Definition trace1 : episode_st Z tape ETrace :=
  Eval vm_compute in after qtable_trace_body 1%float trace0.
Definition trace2 : episode_st Z tape ETrace :=
  Eval vm_compute in after qtable_trace_body 1%float trace1.
Definition trace3 : episode_st Z tape ETrace :=
  Eval vm_compute in after qtable_trace_body 1%float trace2.

End Examples.

Module Runs.
Import Corridor.

Definition tape0 : tape := ([], []).

Definition no_run : train_out Z tape :=
  train_return (train_start Examples.hp ∅ 0 tape0) 0.

Definition returned (r : result (train_out Z tape)) : train_out Z tape :=
  match r with
  | Ok out => out
  | Raise _ => no_run
  end.

(** Three episodes asked for, a check after each: the second check finds
    the policy winning from every cell. *)
Definition plain_3_1 : train_out Z tape :=
  Eval vm_compute in
    returned (model_train QTableModel 20 ∅ 0 tape0 true (Examples.kw 3 1)).

(** No episode asked for. *)
Definition trace_0_1 : train_out Z tape :=
  Eval vm_compute in
    returned (model_train QTableTraceModel 20 ∅ 0 tape0 false (Examples.kw 0 1)).

End Runs.

(** * More words: logs, totals and chains *)

(** [self.Q = dict()] in [__init__] of either model *)
Definition new_Q : gmap (list Z * Z) float := ∅.

(** The transitions of the steps in a log, in order. *)
Definition log_transitions (log : list event) : list transition :=
  flat_map (fun ev => match ev with
                      | EvStep state action next_state reward status =>
                          [{| tr_state := state; tr_action := action;
                              tr_next_state := next_state; tr_reward := reward;
                              tr_status := status |}]
                      | _ => []
                      end) log.

(** The rewards of the steps in a log, in order. *)
Definition rewards (log : list event) : list float :=
  map tr_reward (log_transitions log).

(** The start cells of the resets in a log, in order. *)
Definition resets (log : list event) : list (Z * Z) :=
  flat_map (fun ev => match ev with
                      | EvReset start_cell => [start_cell]
                      | _ => []
                      end) log.

(** [total += reward] for the rewards [rs], one after the other. *)
Definition add_rewards (total : float) (rs : list float) : float :=
  fold_left (fun t r => (t + r)%float) rs total.

(** [exploration_rate *= exploration_decay], [j] times. *)
Definition decayed (j : nat) (decay rate : float) : float :=
  Nat.iter j (fun r => (r * decay)%float) rate.

(** An action that [choose_action] can hand to the environment: an item of
    its list of actions, or an index into that list. *)
Definition valid_action (actions : list Z) (a : Z) : Prop :=
  a ∈ actions \/ 0 <= a < Z.of_nat (length actions).

(** Steps that follow one another from [state]: each starts where the one
    before it arrived. *)
Fixpoint chained (state : list Z) (steps : list transition) : Prop :=
  match steps with
  | [] => True
  | t :: rest => tr_state t = state /\ chained (tr_next_state t) rest
  end.

(** The list [random.choice] draws the start cell from: [start_list], or
    a copy of [environment.empty] when [start_list] is empty. *)
Definition start_pool {E G : Type} `{Environment E G} (ts : train_st E G) : list (Z * Z) :=
  match ts_start_list ts with
  | [] => env_empty
  | _ :: _ => ts_start_list ts
  end.

(** What a step of either model does besides what [body_ok] tells: it acts
    in the current state with an action [choose_action] can give, adds the
    pair to the keys of the table and nothing else, adds the reward to the
    running total, and moves to the next state unless the episode ends. *)
Definition body_steps {E G L : Type} `{Environment E G}
    (body : hyper -> float -> episode_st E G L -> result (episode_st E G L * flow)) : Prop :=
  forall hp eps st st' fl,
    body hp eps st = Ok (st', fl) ->
    exists t,
      es_log st' = es_log st ++ transition_events t /\
      fl = (if is_terminal (tr_status t) then Break else Continue) /\
      tr_state t = es_state st /\
      valid_action env_actions (tr_action t) /\
      dom (es_Q st') = {[ (tr_state t, tr_action t) ]} ∪ dom (es_Q st) /\
      es_cumulative_reward st' = (es_cumulative_reward st + tr_reward t)%float /\
      es_state st' = (if is_terminal (tr_status t) then es_state st else tr_next_state t).

(** The exceptions a body raises, [KeyError] apart: [IndexError], or
    [ValueError] where the environment has no action. *)
Definition body_raises {E G L : Type} `{Environment E G}
    (body : hyper -> float -> episode_st E G L -> result (episode_st E G L * flow)) : Prop :=
  forall hp eps st e,
    body hp eps st = Raise e ->
    e = KeyError \/ e = IndexError \/ (e = ValueError /\ @env_actions E G _ = []).

(** The running total of the rewards at the end of each episode of a log:
    [cumulative_reward += reward] at every step, and
    [cumulative_reward_history.append(cumulative_reward)] after the step
    that ends an episode. *)
Fixpoint running_totals (total : float) (log : list event) : list float :=
  match log with
  | [] => []
  | EvStep _ _ _ reward status :: rest =>
      let total' := (total + reward)%float in
      if is_terminal status
      then total' :: running_totals total' rest
      else running_totals total' rest
  | _ :: rest => running_totals total rest
  end.

(** Whether some check of convergence in a log reported a win from all
    start cells. *)
Definition any_won (log : list event) : bool :=
  existsb (fun c : Z * bool * float => c.1.2) (checks log).

(** * More runs on the corridor *)

Module MoreRuns.
Import Corridor.

(** The corridor with no cell to start from. *)
Definition walled : Environment Z tape := {|
  env_actions := [0; 1];
  env_empty := [];
  env_reset _ cell := (fst cell, [[fst cell]]);
  env_step := step;
  env_check_win_all e Q g := (e, g, (false, 0%float));
  env_render_q e _ := e;
|}.

(** A table whose value for moving left from cell 0 is NaN. *)
Definition nan_Q : gmap (list Z * Z) float := {[ ([0], 0) := nan ]}.

(** The corridor with a reward of [1e308] for every step, whatever its
    status. *)
Definition rich : Environment Z tape := {|
  env_actions := [0; 1];
  env_empty := [(0, 0); (1, 0); (2, 0)];
  env_reset _ cell := (fst cell, [[fst cell]]);
  env_step pos action :=
    let '(pos', (obs, _, status)) := step pos action in
    (pos', (obs, 1e308%float, status));
  env_check_win_all e Q g := (e, g, (false, 0%float));
  env_render_q e _ := e;
|}.

(** [train(discount=1.0, exploration_rate=1.0, learning_rate=1.0,
    episodes=1, check_convergence_every=1)] *)
Definition rich_kw : kwargs :=
  {| kw_discount := Some 1%float; kw_exploration_rate := Some 1%float;
     kw_exploration_decay := None; kw_learning_rate := Some 1%float;
     kw_eligibility_decay := None;
     kw_episodes := Some 1; kw_check_convergence_every := Some 1 |}.

(** The draws of [random.choice]: the start cell [(1, 0)], then right,
    left, right, left, right and right. *)
Definition rich_tape : tape := ([], [1; 1; 0; 1; 0; 1; 1]%nat).

(** One episode of [QTableModel.train] on the rich corridor. *)
Definition rich_run : train_out Z tape :=
  Eval vm_compute in
    Runs.returned
      (@model_train Z tape rich rand QTableModel 20 ∅ 0 rich_tape false rich_kw).

(** Three episodes, a check after each, and no stop at convergence. *)
Definition plain_3_1_all : train_out Z tape :=
  Eval vm_compute in
    Runs.returned (model_train QTableModel 20 ∅ 0 Runs.tape0 false (Examples.kw 3 1)).

(** Three episodes and a check every five. *)
Definition trace_3_5 : train_out Z tape :=
  Eval vm_compute in
    Runs.returned (model_train QTableTraceModel 20 ∅ 0 Runs.tape0 true (Examples.kw 3 5)).

(** An episode of the trace variant, played to its end. *)
Definition played : episode_st Z tape (gmap (list Z * Z) float) :=
  Eval vm_compute in
    match play qtable_trace_body 20 Examples.hp 0.1%float Examples.trace0 with
    | Ok st => st
    | Raise _ => Examples.trace0
    end.

(** The locals of [train] after three episodes without a stop. *)
Definition after_loop : train_st Z tape :=
  Eval vm_compute in
    match episodes_loop qtable_body tt 3 20 false Examples.hp 1
            (train_start Examples.hp ∅ 0 Runs.tape0) with
    | Ok (ts, _) => ts
    | Raise _ => train_start Examples.hp ∅ 0 Runs.tape0
    end.

End MoreRuns.

(** * Properties *)

(** ** The order of binary64 numbers

    [<=?] is a total preorder on the floats that are not NaN. The facts are
    read off the specification of the comparisons ([SFcompare]). *)
Module FloatOrder.

Ltac cmp_cases :=
  repeat match goal with
  | |- context [Z.compare ?a ?b] => destruct (Z.compare_spec a b)
  | H : context [Z.compare ?a ?b] |- _ => destruct (Z.compare_spec a b)
  | |- context [Pos.compare_cont Eq ?a ?b] =>
      change (Pos.compare_cont Eq a b) with (Pos.compare a b);
      destruct (Pos.compare_spec a b)
  | H : context [Pos.compare_cont Eq ?a ?b] |- _ =>
      change (Pos.compare_cont Eq a b) with (Pos.compare a b) in H;
      destruct (Pos.compare_spec a b)
  end.

Ltac by_cases := cmp_cases; simpl in *; try congruence; try lia.

Lemma SF_le_total x y :
  x <> S754_nan -> y <> S754_nan ->
  cmp_le (SFcompare x y) = false -> cmp_le (SFcompare y x) = true.
Proof.
  destruct x as [[]|[]| |[] mx ex], y as [[]|[]| |[] my ey];
    simpl; try congruence; intros _ _; by_cases.
Qed.

Lemma SF_le_trans x y z :
  cmp_le (SFcompare x y) = true -> cmp_le (SFcompare y z) = true ->
  cmp_le (SFcompare x z) = true.
Proof.
  destruct x as [[]|[]| |[] mx ex], y as [[]|[]| |[] my ey],
           z as [[]|[]| |[] mz ez]; simpl; try congruence; by_cases.
Qed.

Lemma SF_le_refl x : x <> S754_nan -> cmp_le (SFcompare x x) = true.
Proof. destruct x as [[]|[]| |[] mx ex]; simpl; try congruence; intros _; by_cases. Qed.

Lemma SF_lt_le x y : SFltb x y = true -> cmp_le (SFcompare x y) = true.
Proof. unfold SFltb. destruct (SFcompare x y) as [[]|]; simpl; congruence. Qed.

Lemma SF_not_lt_le x y :
  x <> S754_nan -> y <> S754_nan ->
  SFltb x y = false -> cmp_le (SFcompare y x) = true.
Proof.
  unfold SFltb.
  destruct x as [[]|[]| |[] mx ex], y as [[]|[]| |[] my ey];
    simpl; try congruence; intros _ _; by_cases.
Qed.

Lemma SF_eq_le x y : SFeqb x y = true -> cmp_le (SFcompare x y) = true.
Proof. unfold SFeqb. destruct (SFcompare x y) as [[]|]; simpl; congruence. Qed.

Lemma Prim2SF_not_nan x : is_nan x = false -> Prim2SF x <> S754_nan.
Proof.
  intros Hn. unfold Prim2SF. rewrite Hn.
  destruct (is_zero x); [congruence|]. destruct (is_infinity x); [congruence|].
  destruct (Z.frexp x). destruct (shr_fexp _ _ _ _ _). destruct (shr_m _); congruence.
Qed.

Lemma leb_cmp a b : (a <=? b)%float = cmp_le (SFcompare (Prim2SF a) (Prim2SF b)).
Proof. rewrite leb_spec. reflexivity. Qed.

Lemma leb_trans a b c :
  (a <=? b)%float = true -> (b <=? c)%float = true -> (a <=? c)%float = true.
Proof. rewrite !leb_cmp. apply SF_le_trans. Qed.

Lemma leb_total a b :
  is_nan a = false -> is_nan b = false ->
  (a <=? b)%float = false -> (b <=? a)%float = true.
Proof. rewrite !leb_cmp. intros Ha Hb. apply SF_le_total; now apply Prim2SF_not_nan. Qed.

Lemma leb_refl a : is_nan a = false -> (a <=? a)%float = true.
Proof. rewrite leb_cmp. intros Ha. now apply SF_le_refl, Prim2SF_not_nan. Qed.

Lemma ltb_leb a b : (a <? b)%float = true -> (a <=? b)%float = true.
Proof. rewrite leb_cmp, ltb_spec. apply SF_lt_le. Qed.

Lemma not_ltb_leb a b :
  is_nan a = false -> is_nan b = false ->
  (a <? b)%float = false -> (b <=? a)%float = true.
Proof. rewrite leb_cmp, ltb_spec. intros Ha Hb. apply SF_not_lt_le; now apply Prim2SF_not_nan. Qed.

Lemma eqb_refl a : is_nan a = false -> (a =? a)%float = true.
Proof. unfold is_nan. now destruct (a =? a)%float. Qed.

End FloatOrder.

(** ** [max] and [np.max] return the greatest item *)

Lemma py_max_fold_greatest (xs : list float) (x : float) :
  not_nan x -> Forall not_nan xs ->
  let m := fold_left (fun best item => if (best <? item)%float then item else best) xs x in
  not_nan m /\ (m = x \/ In m xs) /\ (x <=? m)%float = true /\
  Forall (fun y => (y <=? m)%float = true) xs.
Proof.
  revert x. induction xs as [|y ys IH]; intros x Hx Hxs; simpl.
  - repeat split; auto. now apply FloatOrder.leb_refl.
  - inversion Hxs as [|? ? Hy Hys]; subst.
    destruct (x <? y)%float eqn:Hlt.
    + destruct (IH y Hy Hys) as (Hm & Hin & Hle & Hall).
      repeat split; auto.
      * destruct Hin; auto.
      * eapply FloatOrder.leb_trans; [|exact Hle]. now apply FloatOrder.ltb_leb.
    + destruct (IH x Hx Hys) as (Hm & Hin & Hle & Hall).
      repeat split; auto.
      * destruct Hin; auto.
      * constructor; auto.
        eapply FloatOrder.leb_trans; [|exact Hle]. now apply FloatOrder.not_ltb_leb.
Qed.

Lemma py_max_greatest (l : list float) (m : float) :
  Forall not_nan l -> py_max l = Ok m ->
  In m l /\ Forall (fun y => (y <=? m)%float = true) l.
Proof.
  destruct l as [|x xs]; simpl; [discriminate|].
  intros Hl Hm. inversion Hl as [|? ? Hx Hxs]; subst. injection Hm as <-.
  destruct (py_max_fold_greatest xs x Hx Hxs) as (_ & Hin & Hle & Hall).
  split; [destruct Hin; [left; congruence | now right] | now constructor].
Qed.

Lemma np_maximum_not_nan (a b : float) :
  not_nan a -> np_maximum a b = if (b <=? a)%float then a else b.
Proof. intros Ha. unfold np_maximum. rewrite Ha. now rewrite orb_false_r. Qed.

Lemma np_max_fold_greatest (xs : list float) (x : float) :
  not_nan x -> Forall not_nan xs ->
  let m := fold_left np_maximum xs x in
  not_nan m /\ (m = x \/ In m xs) /\ (x <=? m)%float = true /\
  Forall (fun y => (y <=? m)%float = true) xs.
Proof.
  revert x. induction xs as [|y ys IH]; intros x Hx Hxs; simpl.
  - repeat split; auto. now apply FloatOrder.leb_refl.
  - inversion Hxs as [|? ? Hy Hys]; subst.
    rewrite (np_maximum_not_nan x y Hx).
    destruct (y <=? x)%float eqn:Hle0.
    + destruct (IH x Hx Hys) as (Hm & Hin & Hle & Hall).
      repeat split; auto.
      * destruct Hin; auto.
      * constructor; auto. eapply FloatOrder.leb_trans; eauto.
    + destruct (IH y Hy Hys) as (Hm & Hin & Hle & Hall).
      repeat split; auto.
      * destruct Hin; auto.
      * eapply FloatOrder.leb_trans; [|exact Hle]. now apply FloatOrder.leb_total.
Qed.

Lemma np_max_greatest (l : list float) (m : float) :
  Forall not_nan l -> np_max l = Ok m ->
  not_nan m /\ In m l /\ Forall (fun y => (y <=? m)%float = true) l.
Proof.
  destruct l as [|x xs]; simpl; [discriminate|].
  intros Hl Hm. inversion Hl as [|? ? Hx Hxs]; subst. injection Hm as <-.
  destruct (np_max_fold_greatest xs x Hx Hxs) as (Hn & Hin & Hle & Hall).
  split; [assumption|].
  split; [destruct Hin; [left; congruence | now right] | now constructor].
Qed.

(** ** [np.nonzero]: each index of a true entry, once *)

Lemma nonzero_from_elem (mask : list bool) (k i : nat) :
  i ∈ nonzero_from k mask <-> (exists j : nat, i = (k + j)%nat /\ mask !! j = Some true).
Proof.
  revert k. induction mask as [|b rest IH]; intros k; simpl.
  - split; [intros Hin; inversion Hin | intros (j & _ & Hj); discriminate].
  - assert (Hrest : i ∈ nonzero_from (S k) rest <->
                    (exists j : nat, i = (k + S j)%nat /\ rest !! j = Some true)).
    { rewrite IH. split; intros (j & -> & Hj); exists j; split; auto; lia. }
    destruct b.
    + rewrite elem_of_cons, Hrest. split.
      * intros [-> | (j & -> & Hj)]; [exists 0%nat | exists (S j)]; split; auto; lia.
      * intros ([|j] & -> & Hj); [left; lia | right; exists j; auto].
    + rewrite Hrest. split.
      * intros (j & -> & Hj). exists (S j). auto.
      * intros ([|j] & -> & Hj); [discriminate | exists j; auto].
Qed.

Lemma nonzero_from_NoDup (mask : list bool) (k : nat) : NoDup (nonzero_from k mask).
Proof.
  revert k. induction mask as [|b rest IH]; intros k; simpl; [constructor|].
  destruct b; [|apply IH].
  constructor; [|apply IH].
  rewrite nonzero_from_elem. intros (j & Hj & _). lia.
Qed.

Lemma np_nonzero_elem (mask : list bool) (i : nat) :
  i ∈ np_nonzero mask <-> mask !! i = Some true.
Proof.
  unfold np_nonzero. rewrite nonzero_from_elem. split.
  - intros (j & -> & Hj). exact Hj.
  - intros Hi. exists i. auto.
Qed.

Lemma np_nonzero_all_true (n : nat) : np_nonzero (repeat true n) = seq 0 n.
Proof.
  unfold np_nonzero. generalize 0%nat.
  induction n as [|n IH]; intros k; simpl; [reflexivity|]. now rewrite IH.
Qed.

(** ** More of the order of binary64 numbers *)

Module FloatFacts.
Import FloatOrder.

Lemma SF_le_not_lt x y : cmp_le (SFcompare x y) = true -> SFltb y x = false.
Proof.
  unfold SFltb.
  destruct x as [[]|[]| |[] mx ex], y as [[]|[]| |[] my ey]; simpl; try congruence; by_cases.
Qed.

Lemma SF_lt_le_trans x y z :
  SFltb x y = true -> cmp_le (SFcompare y z) = true -> SFltb x z = true.
Proof.
  unfold SFltb.
  destruct x as [[]|[]| |[] mx ex], y as [[]|[]| |[] my ey],
           z as [[]|[]| |[] mz ez]; simpl; try congruence; by_cases.
Qed.

Lemma SF_lt_not_eq x y : SFltb x y = true -> SFeqb x y = false.
Proof. unfold SFltb, SFeqb. destruct (SFcompare x y) as [[]|]; congruence. Qed.

Lemma SF_eq_ge x y : SFeqb x y = true -> cmp_le (SFcompare y x) = true.
Proof.
  unfold SFeqb.
  destruct x as [[]|[]| |[] mx ex], y as [[]|[]| |[] my ey]; simpl; try congruence; by_cases.
Qed.

Lemma SFcompare_nan_r x : SFcompare x S754_nan = None.
Proof. now destruct x. Qed.

Lemma Prim2SF_nan x : is_nan x = true -> Prim2SF x = S754_nan.
Proof. intros Hn. unfold Prim2SF. now rewrite Hn. Qed.

Lemma leb_not_ltb a b : (a <=? b)%float = true -> (b <? a)%float = false.
Proof. rewrite leb_cmp, FloatAxioms.ltb_spec. apply SF_le_not_lt. Qed.

Lemma ltb_leb_trans a b c :
  (a <? b)%float = true -> (b <=? c)%float = true -> (a <? c)%float = true.
Proof. rewrite leb_cmp, !FloatAxioms.ltb_spec. apply SF_lt_le_trans. Qed.

Lemma ltb_not_eqb a b : (a <? b)%float = true -> (a =? b)%float = false.
Proof. rewrite FloatAxioms.ltb_spec, FloatAxioms.eqb_spec. apply SF_lt_not_eq. Qed.

Lemma eqb_leb_sym a b : (a =? b)%float = true -> (b <=? a)%float = true.
Proof. rewrite leb_cmp, FloatAxioms.eqb_spec. apply SF_eq_ge. Qed.

Lemma leb_nan_l a b : is_nan a = true -> (a <=? b)%float = false.
Proof. intros Hn. now rewrite FloatAxioms.leb_spec, (Prim2SF_nan a Hn). Qed.

Lemma eqb_nan_r a b : is_nan b = true -> (a =? b)%float = false.
Proof.
  intros Hn. rewrite FloatAxioms.eqb_spec, (Prim2SF_nan b Hn). unfold SFeqb.
  now rewrite SFcompare_nan_r.
Qed.

End FloatFacts.

(** [np.max] of an array that holds a NaN is NaN. *)
Lemma np_maximum_nan (a b : float) :
  is_nan a = true \/ is_nan b = true -> is_nan (np_maximum a b) = true.
Proof.
  unfold np_maximum. destruct (is_nan a) eqn:Ha.
  - rewrite orb_true_r. now rewrite Ha.
  - intros [Hf | Hb]; [discriminate|].
    rewrite (FloatFacts.leb_nan_l b a Hb). exact Hb.
Qed.

Lemma np_max_fold_nan (xs : list float) (x : float) :
  is_nan x = true \/ (exists v, In v xs /\ is_nan v = true) ->
  is_nan (fold_left np_maximum xs x) = true.
Proof.
  revert x. induction xs as [|y ys IH]; intros x Hn; cbn [fold_left].
  - destruct Hn as [Hx | (v & [] & _)]. exact Hx.
  - apply IH. destruct Hn as [Hx | (v & [<- | Hin] & Hv)].
    + left. apply np_maximum_nan. now left.
    + left. apply np_maximum_nan. now right.
    + right. eauto.
Qed.

Lemma np_max_nan (l : list float) (v : float) :
  In v l -> is_nan v = true -> exists m, np_max l = Ok m /\ is_nan m = true.
Proof.
  destruct l as [|x xs]; [intros []|]. intros Hin Hv. cbn [np_max].
  eexists. split; [reflexivity|]. apply np_max_fold_nan.
  destruct Hin as [<- | Hin]; [now left | right; eauto].
Qed.

Lemma np_nonzero_all_false (mask : list bool) :
  Forall (fun b => b = false) mask -> np_nonzero mask = [].
Proof.
  unfold np_nonzero. generalize 0%nat.
  induction mask as [|b mask IH]; intros k Hall; [reflexivity|].
  inversion Hall as [|? ? Hb Hrest]; subst. cbn. now apply IH.
Qed.

Lemma NoDup_only (l : list nat) (i : nat) :
  NoDup l -> (forall j, j ∈ l <-> j = i) -> l = [i].
Proof.
  intros Hnd Hiff. destruct l as [|x l].
  - assert (Hin : i ∈ []) by now apply Hiff. inversion Hin.
  - assert (x = i) as -> by (apply Hiff; apply list_elem_of_here).
    f_equal. destruct l as [|y l]; [reflexivity|].
    assert (y = i) as -> by (apply Hiff; apply list_elem_of_further, list_elem_of_here).
    apply NoDup_cons in Hnd as [Hnot _]. exfalso. apply Hnot. apply list_elem_of_here.
Qed.

(** ** [q] *)

Lemma q_length (actions : list Action) (Q : QTable) (state : state_arg) :
  length (q actions Q state) = length actions.
Proof. unfold q. apply length_map. Qed.

Lemma q_lookup (actions : list Action) (Q : QTable) (state : state_arg) (i : nat) :
  q actions Q state !! i =
  (fun a => dict_get Q (as_tuple state, a) f0) <$> (actions !! i).
Proof. unfold q. apply list_lookup_fmap. Qed.

Lemma q_unseen (actions : list Action) (Q : QTable) (state : state_arg) :
  (forall a, a ∈ actions -> Q !! (as_tuple state, a) = None) ->
  q actions Q state = repeat f0 (length actions).
Proof.
  unfold q. induction actions as [|a rest IH]; intros Hnone; simpl; [reflexivity|].
  unfold dict_get at 1. rewrite (Hnone a) by apply list_elem_of_here.
  f_equal. apply IH. intros a' Ha'. apply Hnone. now apply list_elem_of_further.
Qed.

(** C5. [q(state)] has one entry per action of the environment, in the
    environment's order; the entry of an action is the table's value for
    [(state, action)], and [0.0] where the table has none; so a state with
    no entry yields zeros only. The state of the key is the tuple itself
    where [q] is given a tuple, and the tuple of the items of the array, row
    after row, where it is given an array. [q] is a function of the table
    and returns no table: it reads [self.Q] and writes nothing. *)
Theorem q_spec (actions : list Action) (Q : QTable) (state : state_arg) :
  let key_state := match state with
                   | NdArray rows => concat rows
                   | Tuple t => t
                   end in
  let value := fun a => match Q !! (key_state, a) with Some v => v | None => 0%float end in
  length (q actions Q state) = length actions /\
  q actions Q state = map value actions /\
  (forall (i : nat) (a : Action), actions !! i = Some a ->
     q actions Q state !! i = Some (value a)) /\
  ((forall a, a ∈ actions -> Q !! (key_state, a) = None) ->
     q actions Q state = repeat 0%float (length actions)).
Proof.
  cbv zeta.
  assert (Hkey : match state with NdArray rows => concat rows | Tuple t => t end
                 = as_tuple state) by now destruct state.
  rewrite Hkey.
  split; [apply q_length|]. split; [reflexivity|]. split.
  - intros i a Hi. rewrite q_lookup, Hi. reflexivity.
  - apply q_unseen.
Qed.

Lemma q_spec_witness :
  q [0; 1] (<[ ([1; 2], 1) := 0.5%float ]> ∅) (NdArray [[1]; [2]]) = [0%float; 0.5%float] /\
  q [0; 1] (es_Q Examples.trace3) (Tuple [1]) = [(-0.014886176000000004)%float; 0%float] /\
  q [0; 1] (es_Q Examples.trace3) (NdArray [[7]]) = repeat 0%float (length [0; 1]).
Proof.
  pose proof (q_spec [0; 1] (<[ ([1; 2], 1) := 0.5%float ]> ∅) (NdArray [[1]; [2]]))
    as (_ & Hseen & _).
  pose proof (q_spec [0; 1] (es_Q Examples.trace3) (Tuple [1])) as (_ & Htuple & _).
  pose proof (q_spec [0; 1] (es_Q Examples.trace3) (NdArray [[7]])) as (_ & _ & _ & Hzero).
  split; [rewrite Hseen; vm_compute; reflexivity|].
  split; [rewrite Htuple; vm_compute; reflexivity|].
  apply Hzero.
  intros a Ha. apply elem_of_cons in Ha as [-> | Ha]; [reflexivity|].
  apply elem_of_cons in Ha as [-> | Ha]; [reflexivity | inversion Ha].
Defined.

(** ** [predict] *)

Section PredictFacts.
Context {G : Type} `{RandomSource G}.
Variable actions : list Action.

Lemma np_max_is_Ok (l : list float) : l <> [] -> exists m, np_max l = Ok m.
Proof. destruct l; [congruence | intros _; eexists; reflexivity]. Qed.

Lemma np_max_zeros (n : nat) : np_max (repeat 0%float (S n)) = Ok 0%float.
Proof.
  simpl. f_equal. induction n as [|n IH]; simpl; [reflexivity|]. exact IH.
Qed.

Lemma greedy_actions_is_Ok (Q : QTable) (state : state_arg) :
  actions <> [] -> exists acts, greedy_actions actions Q state = Ok acts.
Proof.
  intros Hne. unfold greedy_actions.
  destruct (np_max_is_Ok (q actions Q state)) as [m Hm].
  - unfold q. destruct actions; [congruence | discriminate].
  - rewrite Hm. eexists. reflexivity.
Qed.

Lemma greedy_actions_elem (Q : QTable) (state : state_arg) (acts : list nat) :
  greedy_actions actions Q state = Ok acts ->
  exists m, np_max (q actions Q state) = Ok m /\ NoDup acts /\
    forall i : nat, i ∈ acts <->
      exists v, q actions Q state !! i = Some v /\ (v =? m)%float = true.
Proof.
  unfold greedy_actions.
  destruct (np_max (q actions Q state)) as [m|e] eqn:Hm; simpl; [|discriminate].
  intros [= <-]. exists m. split; [reflexivity|]. split.
  - apply nonzero_from_NoDup.
  - intros i. rewrite np_nonzero_elem, list_lookup_fmap.
    destruct (q actions Q state !! i) as [v|]; simpl.
    + split; [intros [= Hv]; eauto | intros (v' & [= <-] & Hv); now rewrite Hv].
    + split; [discriminate | intros (v' & Hv' & _); discriminate].
Qed.

Lemma greedy_actions_not_nan (Q : QTable) (state : state_arg) (acts : list nat) :
  greedy_actions actions Q state = Ok acts ->
  Forall not_nan (q actions Q state) -> acts <> [].
Proof.
  intros Hacts Hnn.
  destruct (greedy_actions_elem Q state acts Hacts) as (m & Hm & _ & Helem).
  destruct (np_max_greatest _ _ Hnn Hm) as (Hmn & Hin & _).
  apply list_elem_of_In, list_elem_of_lookup in Hin. destruct Hin as [i Hi].
  assert (Hmem : i ∈ acts).
  { apply Helem. exists m. split; [exact Hi | now apply FloatOrder.eqb_refl]. }
  intros ->. inversion Hmem.
Qed.

Lemma eqb_zeros (n : nat) :
  map (fun v => (v =? 0)%float) (repeat f0 n) = repeat true n.
Proof. induction n as [|n IH]; simpl; [reflexivity | now rewrite IH]. Qed.

Lemma greedy_actions_unseen (Q : QTable) (state : state_arg) :
  actions <> [] ->
  (forall a, a ∈ actions -> Q !! (as_tuple state, a) = None) ->
  greedy_actions actions Q state = Ok (seq 0 (length actions)).
Proof.
  intros Hne Hnone. unfold greedy_actions. rewrite (q_unseen _ _ _ Hnone).
  destruct (length actions) as [|n] eqn:Hlen.
  { destruct actions; [congruence | discriminate]. }
  change (repeat f0 (S n)) with (repeat 0%float (S n)) at 1.
  rewrite np_max_zeros.
  change (Ok (np_nonzero (map (fun v => (v =? 0)%float) (repeat f0 (S n)))) =
          Ok (seq 0 (S n))).
  now rewrite eqb_zeros, np_nonzero_all_true.
Qed.

Lemma predict_draw (Q : QTable) (state : state_arg) (g : G) (acts : list nat) :
  greedy_actions actions Q state = Ok acts ->
  predict actions Q state g = draw_index acts g.
Proof.
  intros Hacts. unfold predict, draw_index. rewrite Hacts. simpl.
  unfold random_choice. destruct acts as [|a0 rest]; [reflexivity|].
  destruct (randbelow (length (a0 :: rest)) g) as [r g']. simpl.
  destruct ((a0 :: rest) !! r); reflexivity.
Qed.

Lemma draw_index_elem (acts : list nat) (g : G) (a : Action) (g' : G) :
  draw_index acts g = Ok (a, g') -> exists i : nat, a = Z.of_nat i /\ i ∈ acts.
Proof.
  unfold draw_index. destruct acts as [|a0 rest]; [discriminate|].
  destruct ((a0 :: rest) !! _) as [i|] eqn:Hi; [|discriminate].
  intros [= <- <-]. exists i. split; [reflexivity|].
  apply list_elem_of_lookup. eauto.
Qed.

Lemma draw_index_returns (acts : list nat) (g : G) :
  acts <> [] -> ((randbelow (length acts) g).1 < length acts)%nat ->
  exists a g', draw_index acts g = Ok (a, g').
Proof.
  intros Hne Hlt. unfold draw_index. destruct acts as [|a0 rest]; [congruence|].
  destruct (lookup_lt_is_Some_2 _ _ Hlt) as [i Hi]. rewrite Hi. eauto.
Qed.

End PredictFacts.

(** C4, as the code has it. [predict] draws, with [random.choice], from
    the array of the positions (in the environment's order of actions)
    whose entry in [q(state)] is [==] to [np.max(q(state))]: the array holds
    each such position once and nothing else, the comparison is the exact
    [==] of binary64 numbers, and the value returned is a member of the
    array. [random.choice] returns the item at the index it draws below the
    length of the array, and each member is the item of one index only, so
    a uniform draw of the index is a uniform draw of the member. Where the
    environment numbers its actions by their position, the position
    returned is the action. Where the environment has an action and the
    entries hold no NaN, [np.max] is the greatest entry, the array is not
    empty and [predict] returns a position whose entry is [==] to the
    greatest; for a state with no entries in the table, the array holds
    every position. Where an entry is NaN, [np.max] is NaN, the array is
    empty and [predict] raises [IndexError]; where the environment has no
    action, [predict] raises [ValueError]. *)
Theorem predict_spec {G : Type} `{RandomSource G}
    (actions : list Action) (Q : QTable) (state : state_arg) (g : G) :
  (actions <> [] -> exists acts, greedy_actions actions Q state = Ok acts) /\
  (forall acts, greedy_actions actions Q state = Ok acts ->
     exists m, np_max (q actions Q state) = Ok m /\
       NoDup acts /\
       (forall i : nat, i ∈ acts <->
          exists v, q actions Q state !! i = Some v /\ (v =? m)%float = true) /\
       predict actions Q state g = draw_index acts g /\
       (forall a g', predict actions Q state g = Ok (a, g') ->
          exists i : nat, a = Z.of_nat i /\ i ∈ acts) /\
       (forall i : nat, i ∈ acts ->
          exists r : nat, acts !! r = Some i /\
            forall r' : nat, acts !! r' = Some i -> r' = r) /\
       ((forall (i : nat) a, actions !! i = Some a -> a = Z.of_nat i) ->
          forall a g', predict actions Q state g = Ok (a, g') ->
            a ∈ actions /\
            (match Q !! (as_tuple state, a) with Some v => v | None => 0%float end
               =? m)%float = true) /\
       (Forall not_nan (q actions Q state) ->
          In m (q actions Q state) /\
          Forall (fun v => (v <=? m)%float = true) (q actions Q state) /\
          acts <> [] /\
          (((randbelow (length acts) g).1 < length acts)%nat ->
             exists a g', predict actions Q state g = Ok (a, g'))) /\
       ((forall a, a ∈ actions -> Q !! (as_tuple state, a) = None) ->
          acts = seq 0 (length actions))) /\
  (actions <> [] -> Forall not_nan (q actions Q state) ->
   (forall n, (0 < n)%nat -> ((randbelow n g).1 < n)%nat) ->
   exists (i : nat) g' v,
     predict actions Q state g = Ok (Z.of_nat i, g') /\
     q actions Q state !! i = Some v /\
     Forall (fun w => (w <=? v)%float = true) (q actions Q state)) /\
  (forall v, In v (q actions Q state) -> is_nan v = true ->
     greedy_actions actions Q state = Ok [] /\
     predict actions Q state g = Raise IndexError) /\
  (actions = [] -> predict actions Q state g = Raise ValueError).
Proof.
  assert (Hacts_spec : forall acts, greedy_actions actions Q state = Ok acts ->
     exists m, np_max (q actions Q state) = Ok m /\
       NoDup acts /\
       (forall i : nat, i ∈ acts <->
          exists v, q actions Q state !! i = Some v /\ (v =? m)%float = true) /\
       predict actions Q state g = draw_index acts g /\
       (Forall not_nan (q actions Q state) ->
          In m (q actions Q state) /\
          Forall (fun v => (v <=? m)%float = true) (q actions Q state) /\
          acts <> [] /\
          (((randbelow (length acts) g).1 < length acts)%nat ->
             exists a g', predict actions Q state g = Ok (a, g')))).
  { intros acts Hacts.
    destruct (greedy_actions_elem actions Q state acts Hacts) as (m & Hm & Hnd & Helem).
    pose proof (predict_draw actions Q state g acts Hacts) as Hdraw.
    exists m. split; [exact Hm|]. split; [exact Hnd|]. split; [exact Helem|].
    split; [exact Hdraw|].
    intros Hnn. destruct (np_max_greatest _ _ Hnn Hm) as (_ & Hin & Hall).
    split; [exact Hin|]. split; [exact Hall|].
    assert (Hne : acts <> []) by (eapply greedy_actions_not_nan; eauto).
    split; [exact Hne|].
    intros Hlt. rewrite Hdraw. now apply draw_index_returns. }
  split; [apply greedy_actions_is_Ok|]. split; [|split; [|split]].
  - intros acts Hacts.
    destruct (Hacts_spec acts Hacts) as (m & Hm & Hnd & Helem & Hdraw & Hnn).
    exists m. split; [exact Hm|]. split; [exact Hnd|]. split; [exact Helem|].
    split; [exact Hdraw|]. split.
    { intros a g' Hp. rewrite Hdraw in Hp. eapply draw_index_elem; eauto. }
    split.
    { intros i Hi. apply list_elem_of_lookup in Hi as [r Hr]. exists r.
      split; [exact Hr|]. intros r' Hr'. eapply NoDup_lookup; eauto. }
    split.
    { intros Hpos a g' Hp. rewrite Hdraw in Hp.
      destruct (draw_index_elem acts g a g' Hp) as (i & -> & Hi).
      apply Helem in Hi as (v & Hv & Heq). rewrite q_lookup in Hv.
      destruct (actions !! i) as [a|] eqn:Ha; [|discriminate].
      injection Hv as <-. pose proof (Hpos i a Ha) as Hai. subst a.
      split; [apply list_elem_of_lookup; eauto | exact Heq]. }
    split; [exact Hnn|].
    intros Hnone.
    assert (Hne : actions <> []).
    { intros ->. unfold greedy_actions in Hacts. simpl in Hacts. discriminate. }
    rewrite (greedy_actions_unseen actions Q state Hne Hnone) in Hacts.
    now injection Hacts.
  - intros Hne Hnn Hrange.
    destruct (greedy_actions_is_Ok actions Q state Hne) as [acts Hacts].
    destruct (Hacts_spec acts Hacts) as (m & Hm & Hnd & Helem & Hdraw & Hgreatest).
    destruct (Hgreatest Hnn) as (_ & Hall & Hsome & Hret).
    destruct Hret as (a & g' & Hp).
    { apply Hrange. destruct acts; [congruence | cbn; lia]. }
    pose proof Hp as Hp'. rewrite Hdraw in Hp'.
    destruct (draw_index_elem acts g a g' Hp') as (i & -> & Hi).
    destruct (proj1 (Helem i) Hi) as (v & Hv & Heq).
    exists i, g', v. split; [exact Hp|]. split; [exact Hv|].
    eapply Forall_impl; [exact Hall|]. intros w Hw. cbn beta in Hw.
    eapply FloatOrder.leb_trans; [exact Hw|]. now apply FloatFacts.eqb_leb_sym.
  - intros v Hin Hv.
    destruct (np_max_nan _ _ Hin Hv) as (m & Hm & Hmnan).
    assert (Hacts : greedy_actions actions Q state = Ok []).
    { unfold greedy_actions. rewrite Hm. cbn [mbind result_bind]. f_equal.
      apply np_nonzero_all_false. apply Forall_forall. intros b Hb.
      apply list_elem_of_In, in_map_iff in Hb as (w & <- & _).
      now apply FloatFacts.eqb_nan_r. }
    split; [exact Hacts|].
    now rewrite (predict_draw actions Q state g [] Hacts).
  - intros ->. reflexivity.
Qed.

Lemma predict_spec_witness :
  (exists acts m,
     greedy_actions [0; 1] (es_Q Examples.trace3) (Tuple [0]) = Ok acts /\
     np_max (q [0; 1] (es_Q Examples.trace3) (Tuple [0])) = Ok m /\
     NoDup acts /\
     predict [0; 1] (es_Q Examples.trace3) (Tuple [0]) Runs.tape0
       = draw_index acts Runs.tape0) /\
  (exists (i : nat) g' v,
     predict [0; 1] (es_Q Examples.trace3) (Tuple [0]) Runs.tape0 = Ok (Z.of_nat i, g') /\
     q [0; 1] (es_Q Examples.trace3) (Tuple [0]) !! i = Some v /\
     Forall (fun w => (w <=? v)%float = true)
            (q [0; 1] (es_Q Examples.trace3) (Tuple [0]))) /\
  predict [0; 1] (out_Q MoreRuns.rich_run) (Tuple [1]) Runs.tape0 = Raise IndexError.
Proof.
  destruct (predict_spec [0; 1] (es_Q Examples.trace3) (Tuple [0]) Runs.tape0)
    as (Hok & Hspec & Hreturns & _).
  destruct (predict_spec [0; 1] (out_Q MoreRuns.rich_run) (Tuple [1]) Runs.tape0)
    as (_ & _ & _ & Hnan & _).
  split; [|split].
  - destruct (Hok ltac:(discriminate)) as [acts Hacts].
    destruct (Hspec acts Hacts) as (m & Hm & Hnd & _ & Hdraw & _).
    exists acts, m. auto.
  - apply Hreturns.
    + discriminate.
    + repeat constructor.
    + intros n Hn. unfold randbelow, Corridor.rand. cbn [fst].
      apply Nat.mod_upper_bound. lia.
  - apply (Hnan nan); [right; left; reflexivity | reflexivity].
Defined.

(** The claim as it was made, at a state of the corridor and the table of a
    returning run of [QTableModel.train]: every reward is the finite
    [1e308] and [discount] and [learning_rate] are [1.0], so the value of
    walking left from cell 2 is first [1e308 + 1e308], which is infinite in
    binary64, and at the next visit [inf + (1e308 + inf - inf)], which is
    NaN. [q] of cell 2 then holds a NaN, no entry is [==] to [np.max], and
    [predict] returns no action: it raises [IndexError]. *)
Lemma predict_raises_on_trained_table :
  @model_train Z Corridor.tape MoreRuns.rich Corridor.rand QTableModel 20 ∅ 0
    MoreRuns.rich_tape false MoreRuns.rich_kw = Ok MoreRuns.rich_run /\
  chosen_pairs (out_log MoreRuns.rich_run) =
    [([1], 1); ([2], 0); ([1], 1); ([2], 0); ([1], 1); ([2], 1)] /\
  q [0; 1] (out_Q MoreRuns.rich_run) (Tuple [2]) = [nan; 1e308%float] /\
  greedy_actions [0; 1] (out_Q MoreRuns.rich_run) (Tuple [2]) = Ok [] /\
  predict [0; 1] (out_Q MoreRuns.rich_run) (Tuple [2]) Runs.tape0 = Raise IndexError.
Proof. repeat split; vm_compute; reflexivity. Qed.

(** ** Dictionary facts *)

Lemma dict_get_ensure_entry (Q : QTable) (k k' : Key) :
  dict_get (ensure_entry Q k) k' f0 = dict_get Q k' f0.
Proof.
  unfold ensure_entry, dict_mem, dict_get.
  destruct (Q !! k) as [v|] eqn:Hk; [reflexivity|].
  destruct (decide (k = k')) as [<-|Hne].
  - now rewrite lookup_insert_eq, Hk.
  - now rewrite lookup_insert_ne.
Qed.

Lemma lookup_ensure_entry (Q : QTable) (k : Key) :
  ensure_entry Q k !! k = Some (dict_get Q k f0).
Proof.
  unfold ensure_entry, dict_mem, dict_get.
  destruct (Q !! k) as [v|] eqn:Hk; [exact Hk | apply lookup_insert_eq].
Qed.

Lemma lookup_ensure_entry_ne (Q : QTable) (k k' : Key) :
  k <> k' -> ensure_entry Q k !! k' = Q !! k'.
Proof.
  intros Hne. unfold ensure_entry. destruct (dict_mem Q k); [reflexivity|].
  now apply lookup_insert_ne.
Qed.

Lemma dict_index_ensure_entry (Q : QTable) (k : Key) :
  dict_index (ensure_entry Q k) k = Ok (dict_get Q k f0).
Proof. unfold dict_index. now rewrite lookup_ensure_entry. Qed.

Lemma dom_ensure_entry (Q : QTable) (k : Key) :
  dom (ensure_entry Q k) = {[k]} ∪ dom Q.
Proof.
  unfold ensure_entry, dict_mem. destruct (Q !! k) as [v|] eqn:Hk.
  - assert (Hin : k ∈ dom Q) by (apply elem_of_dom; eauto).
    apply set_eq. intros x. rewrite elem_of_union, elem_of_singleton.
    split; [tauto | intros [-> | Hx]; assumption].
  - apply dom_insert_L.
Qed.

Section BodyFacts.
Context {E G : Type} `{Environment E G} `{RandomSource G}.

Lemma max_next_ensure_entry (Q : QTable) (k : Key) (next_state : State) :
  max_next (ensure_entry Q k) next_state = max_next Q next_state.
Proof.
  unfold max_next. f_equal. apply map_ext. intros a. apply dict_get_ensure_entry.
Qed.

(** *** One step of [QTableModel.train] *)

Lemma qtable_body_inv (hp : hyper) (eps : float) (st st' : episode_st E G unit) (fl : flow) :
  qtable_body hp eps st = Ok (st', fl) ->
  exists action g1 env1 obs reward status m,
    choose_action eps (es_Q st) (es_state st) (es_gen st) = Ok (action, g1) /\
    env_step (es_env st) action = (env1, (obs, reward, status)) /\
    max_next (es_Q st) (flatten obs) = Ok m /\
    fl = (if is_terminal status then Break else Continue) /\
    es_Q st' = q_learning_update hp (es_Q st) (es_state st) action reward m /\
    es_env st' = (if is_terminal status then env1 else env_render_q env1 (es_Q st')) /\
    es_gen st' = g1 /\
    es_log st' =
      es_log st ++ step_events (es_state st) action (flatten obs) reward status /\
    es_cumulative_reward st' = (es_cumulative_reward st + reward)%float /\
    es_state st' = (if is_terminal status then es_state st else flatten obs).
Proof.
  unfold qtable_body.
  destruct (choose_action eps (es_Q st) (es_state st) (es_gen st))
    as [[action g1]|e] eqn:Hc; [|discriminate].
  cbn [mbind result_bind].
  destruct (env_step (es_env st) action) as [env1 [[obs reward] status]] eqn:Hs.
  rewrite max_next_ensure_entry.
  destruct (max_next (es_Q st) (flatten obs)) as [m|e] eqn:Hm; [|discriminate].
  cbn [mbind result_bind]. rewrite dict_index_ensure_entry. cbn [mbind result_bind].
  intros Hres. exists action, g1, env1, obs, reward, status, m.
  unfold step_events, q_learning_update.
  destruct (is_terminal status); injection Hres as <- <-; cbn;
    rewrite <- ?app_assoc; repeat split; try assumption; reflexivity.
Qed.

End BodyFacts.

(** ** The update of the pairs of the trace *)

Lemma update_trace_keys_lookup (lr delta : float) (items : list (Key * float))
    (Q Q' : QTable) :
  NoDup items.*1 -> update_trace_keys lr delta items Q = Ok Q' ->
  (forall k e, (k, e) ∈ items ->
     exists old, Q !! k = Some old /\ Q' !! k = Some (old + lr * delta * e)%float) /\
  (forall k, k ∉ items.*1 -> Q' !! k = Q !! k).
Proof.
  revert Q. induction items as [|[k0 e0] rest IH]; intros Q Hnd Hup.
  - injection Hup as <-. split; [intros k e Hin; inversion Hin | reflexivity].
  - cbn [fmap list_fmap fst] in Hnd. apply NoDup_cons in Hnd as [Hk0 Hnd].
    cbn [update_trace_keys] in Hup. unfold dict_index in Hup.
    destruct (Q !! k0) as [old0|] eqn:Hold; [|discriminate].
    cbn [mbind result_bind] in Hup.
    destruct (IH _ Hnd Hup) as [Hin Hout]. split.
    + intros k e Hke. apply elem_of_cons in Hke as [[= -> ->] | Hke].
      * exists old0. split; [exact Hold|].
        rewrite (Hout k0 Hk0). apply lookup_insert_eq.
      * destruct (Hin k e Hke) as (old & Hq & Hq').
        assert (Hne : k0 <> k).
        { intros ->. apply Hk0. apply list_elem_of_fmap. exists (k, e). auto. }
        rewrite lookup_insert_ne in Hq by exact Hne. eauto.
    + intros k Hk. cbn [fmap list_fmap fst] in Hk.
      apply not_elem_of_cons in Hk as [Hne Hk].
      rewrite (Hout k Hk). apply lookup_insert_ne. congruence.
Qed.

Lemma update_trace_keys_dom (lr delta : float) (items : list (Key * float))
    (Q Q' : QTable) :
  update_trace_keys lr delta items Q = Ok Q' -> dom Q' = dom Q.
Proof.
  revert Q. induction items as [|[k0 e0] rest IH]; intros Q Hup.
  - now injection Hup as <-.
  - cbn [update_trace_keys] in Hup. unfold dict_index in Hup.
    destruct (Q !! k0) as [old0|] eqn:Hold; [|discriminate].
    cbn [mbind result_bind] in Hup. rewrite (IH _ Hup), dom_insert_L.
    assert (Hin : k0 ∈ dom Q) by (apply elem_of_dom; eauto).
    apply set_eq. intros x. rewrite elem_of_union, elem_of_singleton.
    split; [intros [-> | Hx]; assumption | tauto].
Qed.

Lemma update_trace_keys_is_Ok (lr delta : float) (items : list (Key * float))
    (Q : QTable) :
  (forall k, k ∈ items.*1 -> k ∈ dom Q) ->
  exists Q', update_trace_keys lr delta items Q = Ok Q'.
Proof.
  revert Q. induction items as [|[k0 e0] rest IH]; intros Q Hin.
  - eexists. reflexivity.
  - cbn [update_trace_keys]. unfold dict_index.
    assert (Hk0 : k0 ∈ dom Q) by (apply Hin; cbn; apply list_elem_of_here).
    apply elem_of_dom in Hk0 as [old Hold]. rewrite Hold. cbn [mbind result_bind].
    apply IH. intros k Hk. rewrite dom_insert_L. apply elem_of_union_r.
    apply Hin. cbn. now apply list_elem_of_further.
Qed.

(** The loop over the trace raises nothing but the [KeyError] of a pair
    that the table lacks. *)
Lemma update_trace_keys_raises (lr delta : float) (items : list (Key * float))
    (Q : QTable) (e : exn) :
  update_trace_keys lr delta items Q = Raise e ->
  e = KeyError /\ exists k, k ∈ items.*1 /\ k ∉ dom Q.
Proof.
  revert Q. induction items as [|[k0 e0] rest IH]; intros Q Hup; [discriminate|].
  cbn [update_trace_keys] in Hup. unfold dict_index in Hup.
  destruct (Q !! k0) as [old0|] eqn:Hold.
  - cbn [mbind result_bind] in Hup. destruct (IH _ Hup) as (-> & k & Hk & Hnot).
    split; [reflexivity|]. exists k. split; [cbn; now apply list_elem_of_further|].
    intros Hq. apply Hnot. rewrite dom_insert_L. now apply elem_of_union_r.
  - injection Hup as <-. split; [reflexivity|]. exists k0.
    split; [cbn; apply list_elem_of_here | now apply not_elem_of_dom].
Qed.

(** ** The eligibility trace *)

Lemma lookup_etrace_visit (etrace : ETrace) (k : Key) :
  etrace_visit etrace k !! k =
  Some (match etrace !! k with Some v => (v + 1)%float | None => 1%float end).
Proof. unfold etrace_visit. destruct (etrace !! k); apply lookup_insert_eq. Qed.

Lemma lookup_etrace_visit_ne (etrace : ETrace) (k k' : Key) :
  k <> k' -> etrace_visit etrace k !! k' = etrace !! k'.
Proof. intros Hne. unfold etrace_visit. destruct (etrace !! k); now apply lookup_insert_ne. Qed.

Lemma dom_etrace_visit (etrace : ETrace) (k : Key) :
  dom (etrace_visit etrace k) = {[k]} ∪ dom etrace.
Proof. unfold etrace_visit. destruct (etrace !! k); apply dom_insert_L. Qed.

Lemma lookup_etrace_decay (hp : hyper) (etrace : ETrace) (k : Key) :
  etrace_decay hp etrace !! k =
  (fun e => (e * (discount hp * eligibility_decay hp))%float) <$> etrace !! k.
Proof. unfold etrace_decay. apply lookup_fmap. Qed.

Lemma dom_etrace_decay (hp : hyper) (etrace : ETrace) :
  dom (etrace_decay hp etrace) = dom etrace.
Proof. unfold etrace_decay. apply dom_fmap_L. Qed.

Section TraceBodyFacts.
Context {E G : Type} `{Environment E G} `{RandomSource G}.

Lemma qtable_trace_body_inv (hp : hyper) (eps : float) (st st' : episode_st E G ETrace)
    (fl : flow) :
  qtable_trace_body hp eps st = Ok (st', fl) ->
  exists action g1 env1 obs reward status m,
    choose_action eps (es_Q st) (es_state st) (es_gen st) = Ok (action, g1) /\
    env_step (es_env st) action = (env1, (obs, reward, status)) /\
    max_next (es_Q st) (flatten obs) = Ok m /\
    fl = (if is_terminal status then Break else Continue) /\
    update_trace_keys (learning_rate hp)
      (reward + discount hp * m - dict_get (es_Q st) (es_state st, action) f0)%float
      (map_to_list (etrace_visit (es_local st) (es_state st, action)))
      (ensure_entry (es_Q st) (es_state st, action)) = Ok (es_Q st') /\
    es_local st' = etrace_decay hp (etrace_visit (es_local st) (es_state st, action)) /\
    es_env st' = (if is_terminal status then env1 else env_render_q env1 (es_Q st')) /\
    es_gen st' = g1 /\
    es_log st' =
      es_log st ++ step_events (es_state st) action (flatten obs) reward status /\
    es_cumulative_reward st' = (es_cumulative_reward st + reward)%float /\
    es_state st' = (if is_terminal status then es_state st else flatten obs).
Proof.
  unfold qtable_trace_body.
  destruct (choose_action eps (es_Q st) (es_state st) (es_gen st))
    as [[action g1]|e] eqn:Hc; [|discriminate].
  cbn [mbind result_bind].
  destruct (env_step (es_env st) action) as [env1 [[obs reward] status]] eqn:Hs.
  rewrite max_next_ensure_entry.
  destruct (max_next (es_Q st) (flatten obs)) as [m|e] eqn:Hm; [|discriminate].
  cbn [mbind result_bind]. rewrite dict_index_ensure_entry. cbn [mbind result_bind].
  destruct (update_trace_keys _ _ _ _) as [Q2|e] eqn:Hup; [|discriminate].
  cbn [mbind result_bind].
  intros Hres. exists action, g1, env1, obs, reward, status, m.
  unfold step_events.
  destruct (is_terminal status); injection Hres as <- <-; cbn;
    rewrite <- ?app_assoc; repeat split; try assumption; reflexivity.
Qed.

End TraceBodyFacts.

(** ** C1: the one-step update *)

(** C1. A step of [QTableModel.train] on the transition
    [(state, action) -> (next_state, reward, status)] leaves in the table,
    for [(state, action)], the value [old + learning_rate * (reward +
    discount * m - old)]: [old] is the value before the step ([0.0] if the
    table had none) and [m] is [max] over the environment's actions of the
    table's values for [next_state], [0.0] standing for a missing one; where
    none of these is NaN, [m] is the greatest of them. *)
Theorem qtable_update_rule {E G : Type} `{Environment E G} `{RandomSource G}
    (hp : hyper) (eps : float) (st st' : episode_st E G unit) (fl : flow) :
  qtable_body hp eps st = Ok (st', fl) ->
  exists action env1 obs reward status m,
    let state := es_state st in
    let next_state := flatten obs in
    let old := match es_Q st !! (state, action) with Some v => v | None => 0%float end in
    let next_values :=
      map (fun a' => match es_Q st !! (next_state, a') with Some v => v | None => 0%float end)
          env_actions in
    env_step (es_env st) action = (env1, (obs, reward, status)) /\
    es_log st' = es_log st ++ step_events state action next_state reward status /\
    py_max next_values = Ok m /\
    (Forall not_nan next_values ->
       In m next_values /\ Forall (fun v => (v <=? m)%float = true) next_values) /\
    es_Q st' !! (state, action) =
      Some (old + learning_rate hp * (reward + discount hp * m - old))%float.
Proof.
  intros Hbody.
  destruct (qtable_body_inv hp eps st st' fl Hbody)
    as (action & g1 & env1 & obs & reward & status & m &
        Hc & Hs & Hm & Hfl & HQ & Henv & Hg & Hlog & Hcum & Hst).
  exists action, env1, obs, reward, status, m. cbn zeta.
  split; [exact Hs|]. split; [exact Hlog|]. split; [exact Hm|]. split.
  - intros Hnn. now apply py_max_greatest.
  - rewrite HQ. unfold q_learning_update. apply lookup_insert_eq.
Qed.

Lemma qtable_update_rule_witness :
  qtable_body Examples.hp 0.1%float Examples.plain0 = Ok (Examples.plain1, Continue) /\
  exists action env1 obs reward status m,
    let state := es_state Examples.plain0 in
    let next_state := flatten obs in
    let old := match es_Q Examples.plain0 !! (state, action) with
               | Some v => v | None => 0%float end in
    let next_values :=
      map (fun a' => match es_Q Examples.plain0 !! (next_state, a') with
                     | Some v => v | None => 0%float end)
          (@env_actions Z Corridor.tape Corridor.env) in
    env_step (es_env Examples.plain0) action = (env1, (obs, reward, status)) /\
    es_log Examples.plain1 =
      es_log Examples.plain0 ++ step_events state action next_state reward status /\
    py_max next_values = Ok m /\
    (Forall not_nan next_values ->
       In m next_values /\ Forall (fun v => (v <=? m)%float = true) next_values) /\
    es_Q Examples.plain1 !! (state, action) =
      Some (old + learning_rate Examples.hp *
                  (reward + discount Examples.hp * m - old))%float.
Proof.
  assert (Hrun : qtable_body Examples.hp 0.1%float Examples.plain0
                 = Ok (Examples.plain1, Continue)) by (vm_compute; reflexivity).
  split; [exact Hrun|].
  exact (qtable_update_rule Examples.hp 0.1%float Examples.plain0 Examples.plain1
           Continue Hrun).
Defined.

(** ** C2: the update along the eligibility trace *)

(** C2. A step of [QTableTraceModel.train] computes one [delta = reward +
    discount * m - old] from the value [old] that the current pair has
    before the step ([0.0] if it has none), where [m] is [max] over the
    environment's actions of the table's values for [next_state], [0.0]
    standing for a missing one, and the greatest of them where none is NaN;
    every pair of the trace, the
    current pair and the earlier ones alike, then has [learning_rate *
    delta * etrace[key]] added to its value in the table, with the trace as
    it is after the current pair's visit was counted; the pairs outside the
    trace keep their value; and the trace left by the step has every entry
    multiplied by [discount * eligibility_decay]. *)
Theorem qtable_trace_update_rule {E G : Type} `{Environment E G} `{RandomSource G}
    (hp : hyper) (eps : float) (st st' : episode_st E G ETrace) (fl : flow) :
  qtable_trace_body hp eps st = Ok (st', fl) ->
  exists action env1 obs reward status m,
    let state := es_state st in
    let next_state := flatten obs in
    let value := fun key => match es_Q st !! key with Some v => v | None => 0%float end in
    let next_values := map (fun a' => value (next_state, a')) env_actions in
    let delta := (reward + discount hp * m - value (state, action))%float in
    let etrace := etrace_visit (es_local st) (state, action) in
    env_step (es_env st) action = (env1, (obs, reward, status)) /\
    es_log st' = es_log st ++ step_events state action next_state reward status /\
    py_max next_values = Ok m /\
    (Forall not_nan next_values ->
       In m next_values /\ Forall (fun v => (v <=? m)%float = true) next_values) /\
    (forall key e, etrace !! key = Some e ->
       es_Q st' !! key = Some (value key + learning_rate hp * delta * e)%float) /\
    (forall key, etrace !! key = None -> es_Q st' !! key = es_Q st !! key) /\
    (forall key, es_local st' !! key =
       (fun e => (e * (discount hp * eligibility_decay hp))%float) <$> etrace !! key).
Proof.
  intros Hbody.
  destruct (qtable_trace_body_inv hp eps st st' fl Hbody)
    as (action & g1 & env1 & obs & reward & status & m &
        Hc & Hs & Hm & Hfl & HQ & Htr & Henv & Hg & Hlog & Hcum & Hst).
  exists action, env1, obs, reward, status, m. cbn zeta.
  split; [exact Hs|]. split; [exact Hlog|]. split; [exact Hm|].
  split; [intros Hnn; now apply py_max_greatest|].
  set (k0 := (es_state st, action)) in *.
  destruct (update_trace_keys_lookup _ _ _ _ _
              (NoDup_fst_map_to_list (etrace_visit (es_local st) k0)) HQ)
    as [Hin Hout].
  split; [|split].
  - intros key e He. apply elem_of_map_to_list in He.
    destruct (Hin key e He) as (before & Hbefore & Hafter). rewrite Hafter.
    do 2 f_equal. destruct (decide (k0 = key)) as [<-|Hne].
    + rewrite lookup_ensure_entry in Hbefore. now injection Hbefore as <-.
    + rewrite lookup_ensure_entry_ne in Hbefore by exact Hne. now rewrite Hbefore.
  - intros key Hnone.
    assert (Hne : k0 <> key).
    { intros <-. rewrite lookup_etrace_visit in Hnone. discriminate. }
    rewrite Hout; [now apply lookup_ensure_entry_ne|].
    rewrite list_elem_of_fmap. intros ([k e] & Hk & Hke). cbn in Hk. subst k.
    apply elem_of_map_to_list in Hke. congruence.
  - intros key. rewrite Htr. apply lookup_etrace_decay.
Qed.

Lemma qtable_trace_update_rule_witness :
  qtable_trace_body Examples.hp 1%float Examples.trace1 = Ok (Examples.trace2, Continue) /\
  exists action env1 obs reward status m,
    let state := es_state Examples.trace1 in
    let next_state := flatten obs in
    let value := fun key => match es_Q Examples.trace1 !! key with
                            | Some v => v | None => 0%float end in
    let next_values :=
      map (fun a' => value (next_state, a')) (@env_actions Z Corridor.tape Corridor.env) in
    let delta := (reward + discount Examples.hp * m - value (state, action))%float in
    let etrace := etrace_visit (es_local Examples.trace1) (state, action) in
    env_step (es_env Examples.trace1) action = (env1, (obs, reward, status)) /\
    es_log Examples.trace2 =
      es_log Examples.trace1 ++ step_events state action next_state reward status /\
    py_max next_values = Ok m /\
    (Forall not_nan next_values ->
       In m next_values /\ Forall (fun v => (v <=? m)%float = true) next_values) /\
    (forall key e, etrace !! key = Some e ->
       es_Q Examples.trace2 !! key =
         Some (value key + learning_rate Examples.hp * delta * e)%float) /\
    (forall key, etrace !! key = None ->
       es_Q Examples.trace2 !! key = es_Q Examples.trace1 !! key) /\
    (forall key, es_local Examples.trace2 !! key =
       (fun e => (e * (discount Examples.hp * eligibility_decay Examples.hp))%float)
         <$> etrace !! key).
Proof.
  assert (Hrun : qtable_trace_body Examples.hp 1%float Examples.trace1
                 = Ok (Examples.trace2, Continue)) by (vm_compute; reflexivity).
  split; [exact Hrun|].
  exact (qtable_trace_update_rule Examples.hp 1%float Examples.trace1 Examples.trace2
           Continue Hrun).
Defined.

(** ** C3: a pair that is visited again *)

Lemma chosen_pairs_app (l1 l2 : list event) :
  chosen_pairs (l1 ++ l2) = chosen_pairs l1 ++ chosen_pairs l2.
Proof. unfold chosen_pairs. apply flat_map_app. Qed.

Lemma chosen_pairs_step_events (state : State) (action : Action) (next_state : State)
    (reward : float) (status : Status) :
  chosen_pairs (step_events state action next_state reward status) = [(state, action)].
Proof. unfold step_events. now destruct (is_terminal status). Qed.

Section TraceRevisit.
Context {E G : Type} `{Environment E G} `{RandomSource G}.

(** A step of the trace variant, seen from its log and its trace only. *)
Lemma qtable_trace_body_trace (hp : hyper) (eps : float) (st st' : episode_st E G ETrace)
    (fl : flow) :
  qtable_trace_body hp eps st = Ok (st', fl) ->
  exists key,
    chosen_pairs (es_log st') = chosen_pairs (es_log st) ++ [key] /\
    key.1 = es_state st /\
    es_local st' = etrace_decay hp (etrace_visit (es_local st) key).
Proof.
  intros Hbody.
  destruct (qtable_trace_body_inv hp eps st st' fl Hbody)
    as (action & g1 & env1 & obs & reward & status & m &
        Hc & Hs & Hm & Hfl & HQ & Htr & Henv & Hg & Hlog & Hcum & Hst).
  exists (es_state st, action). split; [|split].
  - now rewrite Hlog, chosen_pairs_app, chosen_pairs_step_events.
  - reflexivity.
  - exact Htr.
Qed.

End TraceRevisit.

(** C3, as the code has it. In an episode of [QTableTraceModel.train] that
    chooses [k0], [k1], [k0] in its first three steps, with [k0] and [k1]
    distinct, the trace of [k0] right after the third step counted the visit,
    and before the third step's decay, is [1 * c * c + 1], where [c =
    discount * eligibility_decay]: the count of the first visit, decayed by
    two steps, plus one for the revisit. The third step's decay then leaves
    [(1 * c * c + 1) * c]. *)
Theorem etrace_revisit {E G : Type} `{Environment E G} `{RandomSource G}
    (hp : hyper) (eps : float) (st0 st1 st2 st3 : episode_st E G ETrace) (fl : flow)
    (k0 k1 : Key) :
  es_local st0 = ∅ ->
  qtable_trace_body hp eps st0 = Ok (st1, Continue) ->
  qtable_trace_body hp eps st1 = Ok (st2, Continue) ->
  qtable_trace_body hp eps st2 = Ok (st3, fl) ->
  chosen_pairs (es_log st3) = chosen_pairs (es_log st0) ++ [k0; k1; k0] ->
  k0 <> k1 ->
  let c := (discount hp * eligibility_decay hp)%float in
  etrace_visit (es_local st2) k0 !! k0 = Some (1 * c * c + 1)%float /\
  es_local st3 !! k0 = Some ((1 * c * c + 1) * c)%float.
Proof.
  intros Hnew H1 H2 H3 Hlog Hne c.
  destruct (qtable_trace_body_trace hp eps st0 st1 Continue H1) as (p0 & Hl1 & _ & Ht1).
  destruct (qtable_trace_body_trace hp eps st1 st2 Continue H2) as (p1 & Hl2 & _ & Ht2).
  destruct (qtable_trace_body_trace hp eps st2 st3 fl H3) as (p2 & Hl3 & _ & Ht3).
  rewrite Hl3, Hl2, Hl1, <- !app_assoc in Hlog. apply app_inv_head in Hlog.
  injection Hlog as -> -> ->.
  assert (Hv1 : es_local st1 !! k0 = Some (1 * c)%float).
  { rewrite Ht1, lookup_etrace_decay, lookup_etrace_visit, Hnew, lookup_empty.
    reflexivity. }
  assert (Hv2 : es_local st2 !! k0 = Some (1 * c * c)%float).
  { rewrite Ht2, lookup_etrace_decay, lookup_etrace_visit_ne, Hv1 by congruence.
    reflexivity. }
  assert (Hv3 : etrace_visit (es_local st2) k0 !! k0 = Some (1 * c * c + 1)%float).
  { now rewrite lookup_etrace_visit, Hv2. }
  split; [exact Hv3|].
  now rewrite Ht3, lookup_etrace_decay, Hv3.
Qed.

Lemma etrace_revisit_witness :
  let c := (discount Examples.hp * eligibility_decay Examples.hp)%float in
  etrace_visit (es_local Examples.trace2) ([1], 0) !! ([1], 0) = Some (1 * c * c + 1)%float /\
  es_local Examples.trace3 !! ([1], 0) = Some ((1 * c * c + 1) * c)%float.
Proof.
  apply (etrace_revisit Examples.hp 1%float Examples.trace0 Examples.trace1
           Examples.trace2 Examples.trace3 Continue ([1], 0) ([0], 1)).
  - reflexivity.
  - vm_compute; reflexivity.
  - vm_compute; reflexivity.
  - vm_compute; reflexivity.
  - vm_compute; reflexivity.
  - discriminate.
Defined.

(** C3, as stated, fails on the code: with the default [discount = 0.90] and
    [eligibility_decay = 0.80], an episode that chooses [([1], 0)],
    [([0], 1)], [([1], 0)] has, right after the third visit was counted, the
    trace value [1.5184000000000002] for [([1], 0)], which is not [2]. *)
Lemma revisited_trace_is_not_two :
  Examples.hp = read_kwargs (Examples.kw 3 1) /\
  es_local Examples.trace0 = ∅ /\
  qtable_trace_body Examples.hp 1%float Examples.trace0 = Ok (Examples.trace1, Continue) /\
  qtable_trace_body Examples.hp 1%float Examples.trace1 = Ok (Examples.trace2, Continue) /\
  qtable_trace_body Examples.hp 1%float Examples.trace2 = Ok (Examples.trace3, Continue) /\
  chosen_pairs (es_log Examples.trace3) = [([1], 0); ([0], 1); ([1], 0)] /\
  etrace_visit (es_local Examples.trace2) ([1], 0) !! ([1], 0)
    = Some 1.5184000000000002%float /\
  (1.5184000000000002 =? 2)%float = false.
Proof. repeat split; vm_compute; reflexivity. Qed.

(** ** What the loops need to know of a loop body *)

Section BodiesOk.
Context {E G : Type} `{Environment E G} `{RandomSource G}.

Lemma qtable_body_ok : body_ok qtable_body.
Proof.
  intros hp eps st st' fl Hbody.
  destruct (qtable_body_inv hp eps st st' fl Hbody)
    as (action & g1 & env1 & obs & reward & status & m &
        Hc & Hs & Hm & Hfl & HQ & Henv & Hg & Hlog & Hcum & Hst).
  split.
  - exists {| tr_state := es_state st; tr_action := action;
              tr_next_state := flatten obs; tr_reward := reward;
              tr_status := status |}.
    split; [exact Hlog | exact Hfl].
  - rewrite HQ. unfold q_learning_update.
    rewrite dom_insert_L, dom_ensure_entry.
    intros k Hk. apply elem_of_union_r. now apply elem_of_union_r.
Qed.

Lemma qtable_trace_body_ok : body_ok qtable_trace_body.
Proof.
  intros hp eps st st' fl Hbody.
  destruct (qtable_trace_body_inv hp eps st st' fl Hbody)
    as (action & g1 & env1 & obs & reward & status & m &
        Hc & Hs & Hm & Hfl & HQ & Htr & Henv & Hg & Hlog & Hcum & Hst).
  split.
  - exists {| tr_state := es_state st; tr_action := action;
              tr_next_state := flatten obs; tr_reward := reward;
              tr_status := status |}.
    split; [exact Hlog | exact Hfl].
  - rewrite (update_trace_keys_dom _ _ _ _ _ HQ), dom_ensure_entry.
    intros k Hk. now apply elem_of_union_r.
Qed.

End BodiesOk.

(** ** Counting the calls in a log *)

Lemma count_app (p : event -> bool) (l1 l2 : list event) :
  count p (l1 ++ l2) = (count p l1 + count p l2)%nat.
Proof. induction l1 as [|ev l1 IH]; simpl; [reflexivity | rewrite IH; lia]. Qed.

Lemma checks_app (l1 l2 : list event) : checks (l1 ++ l2) = checks l1 ++ checks l2.
Proof. unfold checks. apply flat_map_app. Qed.

Lemma count_transition_events (t : transition) :
  count is_step (transition_events t) = 1%nat /\
  count is_render_q (transition_events t) = (if is_terminal (tr_status t) then 0 else 1)%nat /\
  count is_reset (transition_events t) = 0%nat /\
  checks (transition_events t) = [].
Proof.
  unfold transition_events, step_events. destruct (is_terminal (tr_status t)); cbn; auto.
Qed.

Lemma count_episode_events (steps : list transition) (last : transition) :
  Forall (fun t => is_terminal (tr_status t) = false) steps ->
  is_terminal (tr_status last) = true ->
  count is_step (episode_events steps last) = S (length steps) /\
  count is_render_q (episode_events steps last) = length steps /\
  count is_reset (episode_events steps last) = 0%nat /\
  checks (episode_events steps last) = [].
Proof.
  intros Hsteps Hlast. unfold episode_events.
  induction Hsteps as [|t steps Ht Hsteps IH]; cbn [app flat_map length].
  - rewrite app_nil_r.
    destruct (count_transition_events last) as (-> & -> & -> & ->).
    now rewrite Hlast.
  - rewrite !count_app, checks_app.
    destruct (count_transition_events t) as (-> & -> & -> & ->).
    destruct IH as (-> & -> & -> & ->). rewrite Ht. repeat split; lia.
Qed.

(** ** The loops *)

Section LoopFacts.
Context {E G : Type} `{Environment E G} `{RandomSource G} {L : Type}.
Variable body : hyper -> float -> episode_st E G L -> result (episode_st E G L * flow).
Variable new_local : L.
Hypothesis body_is_ok : body_ok body.

(** An episode that ends took steps that did not end it, each followed by a
    call of [render_q], and then a step with a terminal status, which no
    call of [render_q] follows. *)
Lemma play_inv (fuel : nat) (hp : hyper) (eps : float) (st st' : episode_st E G L) :
  play body fuel hp eps st = Ok st' ->
  (exists steps last,
     es_log st' = es_log st ++ episode_events steps last /\
     Forall (fun t => is_terminal (tr_status t) = false) steps /\
     is_terminal (tr_status last) = true /\
     (length steps < fuel)%nat) /\
  dom (es_Q st) ⊆ dom (es_Q st').
Proof.
  revert st. induction fuel as [|fuel IH]; intros st Hplay; [discriminate|].
  cbn [play] in Hplay.
  destruct (body hp eps st) as [[st1 fl]|e] eqn:Hbody; [|discriminate].
  cbn [mbind result_bind] in Hplay.
  destruct (body_is_ok hp eps st st1 fl Hbody) as [(t & Hlog & Hfl) Hdom].
  destruct fl.
  - injection Hplay as <-. split; [|exact Hdom].
    exists [], t. unfold episode_events. cbn [app flat_map]. rewrite app_nil_r.
    split; [exact Hlog|]. split; [constructor|]. split; [|cbn; lia].
    destruct (is_terminal (tr_status t)); [reflexivity | discriminate].
  - destruct (IH st1 Hplay) as [(steps & last & Hlog1 & Hsteps & Hlast & Hlen) Hdom1].
    split; [|etrans; eassumption].
    exists (t :: steps), last. unfold episode_events in *. cbn [app flat_map].
    split; [rewrite Hlog1, Hlog; now rewrite <- app_assoc|].
    split; [|split; [exact Hlast | cbn; lia]].
    constructor; [|exact Hsteps].
    destruct (is_terminal (tr_status t)); [discriminate | reflexivity].
Qed.

(** More fuel changes nothing for an episode that ends. *)
Lemma play_fuel_mono (fuel fuel' : nat) (hp : hyper) (eps : float)
    (st st' : episode_st E G L) :
  play body fuel hp eps st = Ok st' -> (fuel <= fuel')%nat ->
  play body fuel' hp eps st = Ok st'.
Proof.
  revert fuel' st. induction fuel as [|fuel IH]; intros fuel' st Hplay Hle; [discriminate|].
  destruct fuel' as [|fuel']; [lia|].
  cbn [play] in *.
  destruct (body hp eps st) as [[st1 fl]|e]; [|discriminate].
  cbn [mbind result_bind] in *.
  destruct fl; [exact Hplay|]. apply IH; [exact Hplay | lia].
Qed.

Lemma episode_pass_inv (fuel : nat) (stop : bool) (hp : hyper) (episode : Z)
    (ts ts' : train_st E G) (fl : flow) :
  episode_pass body new_local fuel stop hp episode ts = Ok (ts', fl) ->
  exists start_cell g1 rest env1 obs st r,
    play body fuel hp (ts_exploration_rate ts) (episode_start new_local ts env1 g1 start_cell obs)
      = Ok st /\
    env_reset (ts_env ts) start_cell = (env1, obs) /\
    py_mod episode (check_convergence_every hp) = Ok r /\
    ts_Q ts' = es_Q st /\
    ts_cumulative_reward_history ts' =
      ts_cumulative_reward_history ts ++ [es_cumulative_reward st] /\
    ts_start_list ts' = rest /\
    ((r <> 0 /\ fl = Continue /\ ts_log ts' = es_log st /\
      ts_win_history ts' = ts_win_history ts)
     \/
     (r = 0 /\ exists env2 g2 w_all win_rate,
        env_check_win_all (es_env st) (es_Q st) (es_gen st) = (env2, g2, (w_all, win_rate)) /\
        fl = (if (w_all && stop)%bool then Break else Continue) /\
        ts_log ts' = es_log st ++ [EvCheckWinAll episode w_all win_rate] /\
        ts_win_history ts' = ts_win_history ts ++ [(episode, win_rate)])).
Proof.
  unfold episode_pass.
  destruct (random_choice _ (ts_gen ts)) as [[start_cell g1]|e]; [|discriminate].
  cbn [mbind result_bind].
  destruct (list_remove_first start_cell _) as [rest|e]; [|discriminate].
  cbn [mbind result_bind].
  destruct (env_reset (ts_env ts) start_cell) as [env1 obs] eqn:Hreset.
  fold (episode_start new_local ts env1 g1 start_cell obs).
  destruct (play body fuel hp (ts_exploration_rate ts) _) as [st|e] eqn:Hplay; [|discriminate].
  cbn [mbind result_bind].
  destruct (py_mod episode (check_convergence_every hp)) as [r|e] eqn:Hmod; [|discriminate].
  cbn [mbind result_bind].
  intros Hres. exists start_cell, g1, rest, env1, obs, st, r.
  split; [exact Hplay|]. split; [exact Hreset|]. split; [reflexivity|].
  destruct (r =? 0) eqn:Hr.
  - apply Z.eqb_eq in Hr.
    destruct (env_check_win_all (es_env st) (es_Q st) (es_gen st))
      as [[env2 g2] [w_all win_rate]] eqn:Hcheck.
    destruct (w_all && stop)%bool eqn:Hw; injection Hres as <- <-; cbn;
      (split; [reflexivity|]); (split; [reflexivity|]); (split; [reflexivity|]);
      right; (split; [exact Hr|]); exists env2, g2, w_all, win_rate; rewrite Hw; auto.
  - apply Z.eqb_neq in Hr. injection Hres as <- <-; cbn.
    split; [reflexivity|]. split; [reflexivity|]. split; [reflexivity|].
    left. auto.
Qed.

End LoopFacts.

(** ** A run of [train] *)

(** Where the divisor is not zero, the checkpoints are its multiples. *)
Lemma is_checkpoint_divide (every episode : Z) :
  every <> 0 -> (is_checkpoint every episode <-> (every | episode)).
Proof. intros Hne. unfold is_checkpoint. now rewrite Z.mod_divide. Qed.

Section RunFacts.
Context {E G : Type} `{Environment E G} `{RandomSource G} {L : Type}.
Variable body : hyper -> float -> episode_st E G L -> result (episode_st E G L * flow).
Variable new_local : L.
Hypothesis body_is_ok : body_ok body.

(** What one pass of the [for] loop adds. *)
Lemma episode_pass_summary (fuel : nat) (stop : bool) (hp : hyper) (episode : Z)
    (ts ts' : train_st E G) (fl : flow) :
  episode_pass body new_local fuel stop hp episode ts = Ok (ts', fl) ->
  exists (new : list event) (cs : list (Z * bool * float)),
    ts_log ts' = ts_log ts ++ new /\
    count is_reset new = 1%nat /\
    count is_step new = S (count is_render_q new) /\
    checks new = cs /\
    ts_win_history ts' = ts_win_history ts ++ map check_sample cs /\
    check_convergence_every hp <> 0 /\
    ((~ is_checkpoint (check_convergence_every hp) episode /\ cs = [] /\ fl = Continue)
     \/
     (is_checkpoint (check_convergence_every hp) episode /\
      exists w_all win_rate, cs = [(episode, w_all, win_rate)] /\
        fl = (if (w_all && stop)%bool then Break else Continue))) /\
    length (ts_cumulative_reward_history ts') =
      S (length (ts_cumulative_reward_history ts)) /\
    dom (ts_Q ts) ⊆ dom (ts_Q ts').
Proof.
  intros Hpass.
  destruct (episode_pass_inv body new_local fuel stop hp episode ts ts' fl Hpass)
    as (start_cell & g1 & rest & env1 & obs & st & r &
        Hplay & Hreset & Hmod & HQ & Hhist & Hsl & Hcheck).
  destruct (play_inv body body_is_ok fuel hp _ _ st Hplay)
    as [(steps & last & Hlog & Hsteps & Hlast & _) Hdom].
  destruct (count_episode_events steps last Hsteps Hlast) as (Cs & Cr & Cz & Cc).
  cbn [episode_start es_log es_Q] in Hlog, Hdom.
  assert (Hevery : check_convergence_every hp <> 0 /\
                   r = episode mod check_convergence_every hp).
  { unfold py_mod in Hmod.
    destruct (check_convergence_every hp =? 0) eqn:Hz; [discriminate|].
    apply Z.eqb_neq in Hz. injection Hmod as <-. auto. }
  destruct Hevery as [Hevery ->].
  destruct Hcheck as [(Hr & -> & Hlog' & Hwin)
                     | (Hr & env2 & g2 & w_all & win_rate & Hc & -> & Hlog' & Hwin)].
  - exists (EvReset start_cell :: episode_events steps last), [].
    rewrite Hlog', Hlog, <- app_assoc. cbn [app count is_reset is_step is_render_q].
    rewrite Cs, Cr, Cz. split; [reflexivity|]. split; [reflexivity|].
    split; [reflexivity|]. split; [exact Cc|].
    split; [rewrite Hwin; cbn; now rewrite app_nil_r|]. split; [exact Hevery|].
    split; [left; auto|]. split; [rewrite Hhist, length_app; cbn; lia|].
    now rewrite HQ.
  - exists (EvReset start_cell :: episode_events steps last
            ++ [EvCheckWinAll episode w_all win_rate]), [(episode, w_all, win_rate)].
    rewrite Hlog', Hlog, <- !app_assoc. cbn [app count is_reset is_step is_render_q].
    rewrite !count_app, Cs, Cr, Cz. cbn [count is_reset is_step is_render_q].
    split; [reflexivity|]. split; [lia|]. split; [lia|].
    split.
    { change (EvReset start_cell :: episode_events steps last
              ++ [EvCheckWinAll episode w_all win_rate])
        with ([EvReset start_cell] ++ episode_events steps last
              ++ [EvCheckWinAll episode w_all win_rate]).
      rewrite !checks_app, Cc. reflexivity. }
    split; [exact Hwin|]. split; [exact Hevery|].
    split; [right; split; [exact Hr | eauto]|].
    split; [rewrite Hhist, length_app; cbn; lia|].
    now rewrite HQ.
Qed.

End RunFacts.

Lemma seqZ_succ (first : Z) (k : nat) :
  seqZ first (Z.of_nat (S k)) = first :: seqZ (first + 1) (Z.of_nat k).
Proof.
  rewrite seqZ_cons by lia. f_equal. f_equal; lia.
Qed.

Section RunLoop.
Context {E G : Type} `{Environment E G} `{RandomSource G} {L : Type}.
Variable body : hyper -> float -> episode_st E G L -> result (episode_st E G L * flow).
Variable new_local : L.
Hypothesis body_is_ok : body_ok body.

(** What [k] passes of the [for] loop add, when the loop was entered for
    the episodes [first .. first + n - 1] and left at [last]. *)
Lemma episodes_loop_summary (n fuel : nat) (stop : bool) (hp : hyper) (first : Z)
    (ts ts' : train_st E G) (last : Z) :
  episodes_loop body new_local n fuel stop hp first ts = Ok (ts', last) ->
  exists (k : nat) (new : list event) (cs : list (Z * bool * float)),
    last = first + Z.of_nat k - 1 /\
    (k <= n)%nat /\ (n <> 0%nat -> k <> 0%nat) /\
    ts_log ts' = ts_log ts ++ new /\
    count is_reset new = k /\
    count is_step new = (count is_render_q new + k)%nat /\
    checks new = cs /\
    ts_win_history ts' = ts_win_history ts ++ map check_sample cs /\
    map (fun c : Z * bool * float => c.1.1) cs =
      filter (is_checkpoint (check_convergence_every hp)) (seqZ first (Z.of_nat k)) /\
    (forall e w r, (e, w, r) ∈ cs -> (w && stop)%bool = true -> e = last) /\
    ((k < n)%nat -> stop = true /\ exists r, (last, true, r) ∈ cs) /\
    length (ts_cumulative_reward_history ts') =
      (length (ts_cumulative_reward_history ts) + k)%nat /\
    dom (ts_Q ts) ⊆ dom (ts_Q ts') /\
    (k <> 0%nat -> check_convergence_every hp <> 0).
Proof.
  revert first ts. induction n as [|n IH]; intros first ts Hloop.
  - injection Hloop as <- <-. exists 0%nat, [], [].
    rewrite !app_nil_r. cbn. repeat split; try lia; try done.
    intros e w r Hin. inversion Hin.
  - cbn [episodes_loop] in Hloop.
    destruct (episode_pass body new_local fuel stop hp first ts) as [[ts1 fl]|e] eqn:Hpass;
      [|discriminate].
    cbn [mbind result_bind] in Hloop.
    destruct (episode_pass_summary body new_local body_is_ok fuel stop hp first ts ts1 fl Hpass)
      as (new1 & cs1 & Hlog1 & Cz1 & Cs1 & Cc1 & Hwin1 & Hevery & Hcase & Hlen1 & Hdom1).
    destruct fl.
    + injection Hloop as <- <-.
      destruct Hcase as [(_ & _ & Hfl) | (Hcp & w & r & -> & Hfl)]; [discriminate|].
      destruct (w && stop)%bool eqn:Hw; [|discriminate].
      apply andb_true_iff in Hw as [-> ->].
      exists 1%nat, new1, [(first, true, r)].
      split; [lia|]. split; [lia|]. split; [lia|]. split; [exact Hlog1|].
      split; [exact Cz1|]. split; [lia|]. split; [exact Cc1|]. split; [exact Hwin1|].
      split.
      { rewrite seqZ_succ, seqZ_nil by lia. now rewrite filter_cons_True. }
      split.
      { intros e w r' Hin _. apply list_elem_of_singleton in Hin. congruence. }
      split; [|split; [lia | split; [exact Hdom1 | intros _; exact Hevery]]].
      intros _. split; [reflexivity|]. exists r. apply list_elem_of_here.
    + destruct (IH (first + 1) ts1 Hloop)
        as (k & new2 & cs2 & Hlast & Hk & Hk0 & Hlog2 & Cz2 & Cs2 & Cc2 & Hwin2 &
            Hmap & Hhalt & Hearly & Hlen2 & Hdom2 & _).
      exists (S k), (new1 ++ new2), (cs1 ++ cs2).
      split; [lia|]. split; [lia|]. split; [lia|].
      split; [rewrite Hlog2, Hlog1; now rewrite <- app_assoc|].
      rewrite !count_app, checks_app, Cz1, Cz2, Cs1, Cs2, Cc1, Cc2.
      split; [lia|]. split; [lia|]. split; [reflexivity|].
      split; [rewrite Hwin2, Hwin1, map_app; now rewrite <- app_assoc|].
      split.
      { rewrite seqZ_succ, map_app, Hmap.
        destruct Hcase as [(Hcp & -> & _) | (Hcp & w & r & -> & _)].
        - now rewrite filter_cons_False.
        - now rewrite filter_cons_True. }
      split.
      { intros e w r Hin Hw. apply elem_of_app in Hin as [Hin | Hin].
        - destruct Hcase as [(_ & -> & _) | (_ & w1 & r1 & -> & Hfl)];
            [inversion Hin|].
          apply list_elem_of_singleton in Hin. injection Hin as -> -> ->.
          rewrite Hw in Hfl. discriminate.
        - eapply Hhalt; eauto. }
      split.
      { intros Hlt. destruct Hearly as [Hstop (r & Hr)]; [lia|].
        split; [exact Hstop|]. exists r. apply elem_of_app. now right. }
      split; [lia|]. split; [etrans; eassumption | intros _; exact Hevery].
Qed.

End RunLoop.

Section TrainFacts.
Context {E G : Type} `{Environment E G} `{RandomSource G}.

Lemma model_body_ok (m : model) : body_ok (model_body m).
Proof. destruct m; [apply qtable_body_ok | apply qtable_trace_body_ok]. Qed.

Lemma model_train_plain : model_train QTableModel = QTableModel_train.
Proof. reflexivity. Qed.

Lemma model_train_trace : model_train QTableTraceModel = QTableTraceModel_train.
Proof. reflexivity. Qed.

(** A run that returns went through the loop and came out of it. *)
Lemma model_train_inv (m : model) (fuel : nat) (Q : QTable) (env : E) (g : G)
    (stop : bool) (kw : kwargs) (out : train_out E G) :
  model_train m fuel Q env g stop kw = Ok out ->
  exists ts,
    episodes_loop (model_body m) (model_new_local m)
      (Z.to_nat (episodes (read_kwargs kw))) fuel stop (read_kwargs kw) 1
      (train_start (read_kwargs kw) Q env g) = Ok (ts, out_episode out) /\
    out = train_return ts (out_episode out).
Proof.
  unfold model_train, train.
  destruct (episodes_loop _ _ _ _ _ _ _ _) as [[ts episode]|e]; [|discriminate].
  cbn [mbind result_bind]. intros [= <-]. exists ts. split; reflexivity.
Qed.

Lemma episodes_clamped (kw : kwargs) : 1 <= episodes (read_kwargs kw).
Proof. cbn. lia. Qed.

Lemma model_train_summary (m : model) (fuel : nat) (Q : QTable) (env : E) (g : G)
    (stop : bool) (kw : kwargs) (out : train_out E G) :
  model_train m fuel Q env g stop kw = Ok out ->
  let hp := read_kwargs kw in
  1 <= out_episode out <= episodes hp /\
  count is_reset (out_log out) = Z.to_nat (out_episode out) /\
  count is_step (out_log out) =
    (count is_render_q (out_log out) + Z.to_nat (out_episode out))%nat /\
  out_win_history out = map check_sample (checks (out_log out)) /\
  map (fun c : Z * bool * float => c.1.1) (checks (out_log out)) =
    filter (is_checkpoint (check_convergence_every hp)) (seqZ 1 (out_episode out)) /\
  (forall e w r, (e, w, r) ∈ checks (out_log out) ->
     (w && stop)%bool = true -> e = out_episode out) /\
  (out_episode out < episodes hp ->
     stop = true /\ exists r, (out_episode out, true, r) ∈ checks (out_log out)) /\
  length (out_cumulative_reward_history out) = Z.to_nat (out_episode out) /\
  dom Q ⊆ dom (out_Q out) /\
  check_convergence_every hp <> 0.
Proof.
  intros Hrun hp.
  destruct (model_train_inv m fuel Q env g stop kw out Hrun) as (ts & Hloop & ->).
  cbn [train_return out_episode out_log out_win_history out_Q
       out_cumulative_reward_history] in *.
  pose proof (episodes_clamped kw) as Hclamp. fold hp in Hclamp, Hloop.
  destruct (episodes_loop_summary (model_body m) (model_new_local m) (model_body_ok m)
              _ fuel stop hp 1 _ ts _ Hloop)
    as (k & new & cs & Hlast & Hk & Hk0 & Hlog & Cz & Cs & Cc & Hwin &
        Hmap & Hhalt & Hearly & Hlen & Hdom & Hevery).
  cbn [train_start ts_log ts_win_history ts_cumulative_reward_history ts_Q app length]
    in Hlog, Hwin, Hlen, Hdom.
  assert (Hk1 : k <> 0%nat) by (apply Hk0; lia).
  remember (out_episode _) as last eqn:Hout. clear Hout.
  assert (Hlk : Z.to_nat last = k) by lia.
  assert (Hkl : Z.of_nat k = last) by lia.
  rewrite Hlog, Cz, Cs, Cc, Hwin, Hlk, Hmap, Hkl.
  split; [lia|]. split; [reflexivity|]. split; [reflexivity|]. split; [reflexivity|].
  split; [reflexivity|]. split; [exact Hhalt|].
  split; [intros Hlt; apply Hearly; lia|]. split; [exact Hlen|].
  split; [exact Hdom | now apply Hevery].
Qed.

End TrainFacts.

(** ** C6: the checks of convergence *)

(** C6. In a run of [train(stop_at_convergence=True, ...)] of either model
    that returns: [check_win_all] was called at the episodes [1 ..
    episodes_run] that are multiples of [check_convergence_every], in that
    order and at no other; [win_history] holds the episode and the win rate
    of each call; a call that reported a win from all cells is the one of
    the last episode run, so the run stopped at the first such call; a run
    that stops before [episodes] has such a call at its last episode; and
    [episodes_run] is at least 1 and at most [max(episodes, 1)], hence at
    most [episodes] when that is 1 or more. *)
Theorem train_stops_at_convergence {E G : Type} `{Environment E G} `{RandomSource G}
    (m : model) (fuel : nat) (Q : QTable) (env : E) (g : G) (kw : kwargs)
    (out : train_out E G) :
  model_train m fuel Q env g true kw = Ok out ->
  let every := check_convergence_every (read_kwargs kw) in
  let requested := kwargs_get (kw_episodes kw) 1000 in
  every <> 0 /\
  map (fun c : Z * bool * float => c.1.1) (checks (out_log out)) =
    filter (is_checkpoint every) (seqZ 1 (out_episode out)) /\
  out_win_history out = map check_sample (checks (out_log out)) /\
  (forall e w r, (e, w, r) ∈ checks (out_log out) -> w = true -> e = out_episode out) /\
  (out_episode out < Z.max requested 1 ->
     exists r, (out_episode out, true, r) ∈ checks (out_log out)) /\
  1 <= out_episode out <= Z.max requested 1 /\
  (1 <= requested -> out_episode out <= requested).
Proof.
  intros Hrun every requested.
  destruct (model_train_summary m fuel Q env g true kw out Hrun)
    as (Hbound & _ & _ & Hwin & Hmap & Hhalt & Hearly & _ & _ & Hevery).
  change (episodes (read_kwargs kw)) with (Z.max requested 1) in Hbound, Hearly.
  split; [exact Hevery|]. split; [exact Hmap|]. split; [exact Hwin|]. split.
  - intros e w r Hin ->. now apply (Hhalt e true r).
  - split; [intros Hlt; now apply Hearly|]. split; [exact Hbound | lia].
Qed.

Lemma train_stops_at_convergence_witness :
  model_train QTableModel 20 ∅ 0 Runs.tape0 true (Examples.kw 3 1) = Ok Runs.plain_3_1 /\
  1 <> 0 /\
  map (fun c : Z * bool * float => c.1.1) (checks (out_log Runs.plain_3_1)) =
    filter (is_checkpoint 1) (seqZ 1 (out_episode Runs.plain_3_1)) /\
  out_win_history Runs.plain_3_1 = map check_sample (checks (out_log Runs.plain_3_1)) /\
  (forall e w r, (e, w, r) ∈ checks (out_log Runs.plain_3_1) -> w = true ->
     e = out_episode Runs.plain_3_1) /\
  (out_episode Runs.plain_3_1 < Z.max 3 1 ->
     exists r, (out_episode Runs.plain_3_1, true, r) ∈ checks (out_log Runs.plain_3_1)) /\
  1 <= out_episode Runs.plain_3_1 <= Z.max 3 1 /\
  (1 <= 3 -> out_episode Runs.plain_3_1 <= 3).
Proof.
  assert (Hrun : model_train QTableModel 20 ∅ 0 Runs.tape0 true (Examples.kw 3 1)
                 = Ok Runs.plain_3_1) by (vm_compute; reflexivity).
  split; [exact Hrun|].
  exact (train_stops_at_convergence QTableModel 20 ∅ 0 Runs.tape0 (Examples.kw 3 1)
           Runs.plain_3_1 Hrun).
Defined.

(** ** C7: the calls of [render_q] *)

(** C7, as the code has it. In either model a step whose status is neither
    WIN nor LOSE is followed by one call of [render_q], and the step that
    ends the episode by none: the body leaves through [break] before it
    reaches the call. An episode that ends has taken one step more than it
    has called [render_q], and a run of [train] has taken as many steps
    more than it has called [render_q] as it has run episodes. *)
Theorem render_q_after_nonterminal_steps {E G : Type} `{Environment E G} `{RandomSource G}
    (m : model) :
  (forall hp eps st st' fl,
     model_body m hp eps st = Ok (st', fl) ->
     exists state action next_state reward status,
       es_log st' = es_log st ++
         EvStep state action next_state reward status ::
         (if is_terminal status then [] else [EvRenderQ]) /\
       fl = (if is_terminal status then Break else Continue)) /\
  (forall fuel hp eps st st',
     play (model_body m) fuel hp eps st = Ok st' ->
     exists steps last,
       es_log st' = es_log st ++ episode_events steps last /\
       Forall (fun t => is_terminal (tr_status t) = false) steps /\
       is_terminal (tr_status last) = true /\
       count is_step (episode_events steps last) =
         S (count is_render_q (episode_events steps last))) /\
  (forall fuel Q env g stop kw out,
     model_train m fuel Q env g stop kw = Ok out ->
     count is_step (out_log out) =
       (count is_render_q (out_log out) + Z.to_nat (out_episode out))%nat).
Proof.
  split; [|split].
  - intros hp eps st st' fl Hbody.
    destruct (model_body_ok m hp eps st st' fl Hbody) as [(t & Hlog & Hfl) _].
    exists (tr_state t), (tr_action t), (tr_next_state t), (tr_reward t), (tr_status t).
    split; [exact Hlog | exact Hfl].
  - intros fuel hp eps st st' Hplay.
    destruct (play_inv (model_body m) (model_body_ok m) fuel hp eps st st' Hplay)
      as [(steps & last & Hlog & Hsteps & Hlast & _) _].
    exists steps, last.
    destruct (count_episode_events steps last Hsteps Hlast) as (Cs & Cr & _ & _).
    rewrite Cs, Cr. auto.
  - intros fuel Q env g stop kw out Hrun.
    now destruct (model_train_summary m fuel Q env g stop kw out Hrun)
      as (_ & _ & Hcount & _).
Qed.

Lemma render_q_after_nonterminal_steps_witness :
  count is_step (out_log Runs.plain_3_1) =
    (count is_render_q (out_log Runs.plain_3_1) + Z.to_nat (out_episode Runs.plain_3_1))%nat.
Proof.
  apply (proj2 (proj2 (render_q_after_nonterminal_steps QTableModel))
           20%nat ∅ 0 Runs.tape0 true (Examples.kw 3 1)).
  vm_compute; reflexivity.
Defined.

(** C7, as stated, fails on the code: a run of one episode whose only step
    loses takes one step and never calls [render_q]. *)
Lemma render_q_not_on_terminal_step :
  model_train QTableTraceModel 20 ∅ 0 Runs.tape0 false (Examples.kw 0 1)
    = Ok Runs.trace_0_1 /\
  out_log Runs.trace_0_1 =
    [EvReset (0, 0); EvStep [0] 0 [-1] (-1)%float LOSE; EvCheckWinAll 1 false 0.5%float] /\
  count is_step (out_log Runs.trace_0_1) = 1%nat /\
  count is_render_q (out_log Runs.trace_0_1) = 0%nat.
Proof. repeat split; vm_compute; reflexivity. Qed.

(** ** C8: [episodes] below 1 *)

(** C8. [train] of either model, called with [episodes] zero or negative,
    reads [episodes] as 1 and raises nothing for it: the run is one pass of
    the loop for episode 1, so it returns whenever that episode does, with
    [episodes_run = 1], one entry in the reward history and one reset of
    the environment. *)
Theorem train_clamps_episodes {E G : Type} `{Environment E G} `{RandomSource G}
    (m : model) (fuel : nat) (Q : QTable) (env : E) (g : G) (stop : bool)
    (kw : kwargs) (n : Z) :
  kw_episodes kw = Some n -> n <= 0 ->
  let hp := read_kwargs kw in
  episodes hp = 1 /\
  model_train m fuel Q env g stop kw =
    ('(ts, _) ← episode_pass (model_body m) (model_new_local m) fuel stop hp 1
                  (train_start hp Q env g);
     Ok (train_return ts 1)) /\
  (forall ts fl,
     episode_pass (model_body m) (model_new_local m) fuel stop hp 1
       (train_start hp Q env g) = Ok (ts, fl) ->
     model_train m fuel Q env g stop kw = Ok (train_return ts 1)) /\
  (forall out, model_train m fuel Q env g stop kw = Ok out ->
     out_episode out = 1 /\
     length (out_cumulative_reward_history out) = 1%nat /\
     count is_reset (out_log out) = 1%nat).
Proof.
  intros Hkw Hn hp.
  assert (Hone : episodes hp = 1).
  { unfold hp, read_kwargs. cbn [episodes]. rewrite Hkw. cbn [kwargs_get]. lia. }
  assert (Heq : model_train m fuel Q env g stop kw =
                ('(ts, _) ← episode_pass (model_body m) (model_new_local m) fuel stop hp 1
                              (train_start hp Q env g);
                 Ok (train_return ts 1))).
  { unfold model_train, train. fold hp. rewrite Hone.
    change (Z.to_nat 1) with 1%nat. cbn [episodes_loop].
    destruct (episode_pass _ _ fuel stop hp 1 _) as [[ts fl]|e]; [|reflexivity].
    cbn [mbind result_bind]. destruct fl; reflexivity. }
  split; [exact Hone|]. split; [exact Heq|]. split.
  - intros ts fl Hpass. rewrite Heq, Hpass. reflexivity.
  - intros out Hrun.
    destruct (model_train_summary m fuel Q env g stop kw out Hrun)
      as (Hbound & Hreset & _ & _ & _ & _ & _ & Hlen & _ & _).
    fold hp in Hbound. rewrite Hone in Hbound.
    assert (Hep : out_episode out = 1) by lia.
    rewrite Hep in Hreset, Hlen. auto.
Qed.

Lemma train_clamps_episodes_witness :
  model_train QTableTraceModel 20 ∅ 0 Runs.tape0 false (Examples.kw 0 1)
    = Ok Runs.trace_0_1 /\
  out_episode Runs.trace_0_1 = 1 /\
  length (out_cumulative_reward_history Runs.trace_0_1) = 1%nat /\
  count is_reset (out_log Runs.trace_0_1) = 1%nat.
Proof.
  assert (Hrun : model_train QTableTraceModel 20 ∅ 0 Runs.tape0 false (Examples.kw 0 1)
                 = Ok Runs.trace_0_1) by (vm_compute; reflexivity).
  split; [exact Hrun|].
  apply (proj2 (proj2 (proj2 (train_clamps_episodes QTableTraceModel 20 ∅ 0 Runs.tape0
                                false (Examples.kw 0 1) 0 eq_refl (Z.le_refl 0))))).
  exact Hrun.
Defined.

(** ** C9: the keys of the table *)

(** C9. In either model a step of an episode leaves in the table every key
    that it found there, and so does a whole run of [train]: the table is
    written by [self.Q[key] = ...] and [self.Q[key] += ...] only, which
    insert or overwrite. *)
Theorem Q_keys_are_kept {E G : Type} `{Environment E G} `{RandomSource G} (m : model) :
  (forall hp eps st st' fl,
     model_body m hp eps st = Ok (st', fl) -> dom (es_Q st) ⊆ dom (es_Q st')) /\
  (forall fuel hp eps st st',
     play (model_body m) fuel hp eps st = Ok st' -> dom (es_Q st) ⊆ dom (es_Q st')) /\
  (forall fuel Q env g stop kw out,
     model_train m fuel Q env g stop kw = Ok out -> dom Q ⊆ dom (out_Q out)).
Proof.
  split; [|split].
  - intros hp eps st st' fl Hbody.
    now destruct (model_body_ok m hp eps st st' fl Hbody).
  - intros fuel hp eps st st' Hplay.
    now destruct (play_inv (model_body m) (model_body_ok m) fuel hp eps st st' Hplay).
  - intros fuel Q env g stop kw out Hrun.
    now destruct (model_train_summary m fuel Q env g stop kw out Hrun)
      as (_ & _ & _ & _ & _ & _ & _ & _ & Hdom & _).
Qed.

Lemma Q_keys_are_kept_witness :
  dom (es_Q Examples.trace2) ⊆ dom (es_Q Examples.trace3) /\
  dom (∅ : gmap (list Z * Z) float) ⊆ dom (out_Q Runs.plain_3_1).
Proof.
  split.
  - apply (proj1 (Q_keys_are_kept QTableTraceModel) Examples.hp 1%float
             Examples.trace2 Examples.trace3 Continue).
    vm_compute; reflexivity.
  - apply (proj2 (proj2 (Q_keys_are_kept QTableModel))
             20%nat ∅ 0 Runs.tape0 true (Examples.kw 3 1)).
    vm_compute; reflexivity.
Defined.

(** ** C10: the pairs of the trace are keys of the table *)

Lemma random_choice_raises {G : Type} `{RandomSource G} {A : Type} (seq : list A) (g : G)
    (e : exn) :
  random_choice seq g = Raise e -> e = IndexError.
Proof.
  unfold random_choice. destruct seq as [|x rest]; [congruence|].
  destruct (randbelow _ g) as [i g']. destruct (_ !! i); congruence.
Qed.

Lemma py_max_raises (l : list float) (e : exn) : py_max l = Raise e -> e = ValueError.
Proof. destruct l; cbn; congruence. Qed.

Lemma np_max_raises (l : list float) (e : exn) : np_max l = Raise e -> e = ValueError.
Proof. destruct l; cbn; congruence. Qed.

Lemma predict_raises {G : Type} `{RandomSource G} (actions : list Z)
    (Q : gmap (list Z * Z) float) (state : state_arg) (g : G) (e : exn) :
  predict actions Q state g = Raise e -> e = ValueError \/ e = IndexError.
Proof.
  unfold predict, greedy_actions.
  destruct (np_max (q actions Q state)) as [m|e'] eqn:Hm; cbn [mbind result_bind].
  - destruct (random_choice _ g) as [[i g']|e'] eqn:Hc; cbn [mbind result_bind];
      [discriminate|].
    intros [= <-]. right. eapply random_choice_raises; eauto.
  - intros [= <-]. left. eapply np_max_raises; eauto.
Qed.

Section TraceKeys.
Context {E G : Type} `{Environment E G} `{RandomSource G}.

Lemma choose_action_raises (eps : float) (Q : gmap (list Z * Z) float) (state : list Z)
    (g : G) (e : exn) :
  choose_action eps Q state g = Raise e -> e <> KeyError.
Proof.
  unfold choose_action. destruct (np_random g) as [u g1].
  destruct (u <? eps)%float.
  - intros Hr. apply random_choice_raises in Hr. congruence.
  - intros Hr. apply predict_raises in Hr. destruct Hr; congruence.
Qed.

Lemma trace_keys_step (hp : hyper) (eps : float)
    (st st' : episode_st E G (gmap (list Z * Z) float)) (fl : flow) :
  dom (es_local st) ⊆ dom (es_Q st) ->
  qtable_trace_body hp eps st = Ok (st', fl) ->
  dom (es_local st') ⊆ dom (es_Q st').
Proof.
  intros Hinv Hbody.
  destruct (qtable_trace_body_inv hp eps st st' fl Hbody)
    as (action & g1 & env1 & obs & reward & status & m &
        Hc & Hs & Hm & Hfl & HQ & Htr & _).
  rewrite Htr, dom_etrace_decay, dom_etrace_visit.
  rewrite (update_trace_keys_dom _ _ _ _ _ HQ), dom_ensure_entry.
  intros k Hk. apply elem_of_union in Hk as [Hk | Hk].
  - now apply elem_of_union_l.
  - apply elem_of_union_r. now apply Hinv.
Qed.

Lemma trace_keys_in_episode (hp : hyper) (eps : float)
    (st0 st : episode_st E G (gmap (list Z * Z) float)) :
  es_local st0 = ∅ -> in_episode hp eps st0 st ->
  dom (es_local st) ⊆ dom (es_Q st).
Proof.
  intros Hnew Hin. induction Hin as [|st st' Hin IH Hbody].
  - rewrite Hnew, dom_empty_L. apply empty_subseteq.
  - eapply trace_keys_step; eauto.
Qed.

Lemma trace_keys_at_update (etrace Q : gmap (list Z * Z) float) (key : list Z * Z) :
  dom etrace ⊆ dom Q ->
  forall k, k ∈ (map_to_list (etrace_visit etrace key)).*1 ->
            k ∈ dom (ensure_entry Q key).
Proof.
  intros Hinv k Hk. apply list_elem_of_fmap in Hk as ([k' e] & -> & Hke).
  apply elem_of_map_to_list in Hke. cbn.
  assert (Hin : k' ∈ dom (etrace_visit etrace key)) by (apply elem_of_dom; eauto).
  rewrite dom_etrace_visit in Hin. rewrite dom_ensure_entry.
  apply elem_of_union in Hin as [Hin | Hin].
  - now apply elem_of_union_l.
  - apply elem_of_union_r. now apply Hinv.
Qed.

Lemma trace_body_no_KeyError (hp : hyper) (eps : float)
    (st : episode_st E G (gmap (list Z * Z) float)) :
  dom (es_local st) ⊆ dom (es_Q st) ->
  qtable_trace_body hp eps st <> Raise KeyError.
Proof.
  intros Hinv. unfold qtable_trace_body.
  destruct (choose_action eps (es_Q st) (es_state st) (es_gen st))
    as [[action g1]|e] eqn:Hc; cbn [mbind result_bind].
  2: { intros [= ->]. now apply choose_action_raises in Hc. }
  destruct (env_step (es_env st) action) as [env1 [[obs reward] status]].
  destruct (max_next _ (flatten obs)) as [m|e] eqn:Hm; cbn [mbind result_bind].
  2: { intros [= ->]. apply py_max_raises in Hm. discriminate. }
  rewrite dict_index_ensure_entry. cbn [mbind result_bind].
  destruct (update_trace_keys_is_Ok (learning_rate hp)
              (reward + discount hp * m - dict_get (es_Q st) (es_state st, action) f0)%float
              (map_to_list (etrace_visit (es_local st) (es_state st, action)))
              (ensure_entry (es_Q st) (es_state st, action))
              (trace_keys_at_update _ _ _ Hinv)) as [Q2 ->].
  cbn [mbind result_bind]. destruct (is_terminal status); discriminate.
Qed.

Lemma trace_play_no_KeyError (fuel : nat) (hp : hyper) (eps : float)
    (st : episode_st E G (gmap (list Z * Z) float)) :
  dom (es_local st) ⊆ dom (es_Q st) ->
  play qtable_trace_body fuel hp eps st <> Raise KeyError.
Proof.
  revert st. induction fuel as [|fuel IH]; intros st Hinv; [discriminate|].
  cbn [play].
  destruct (qtable_trace_body hp eps st) as [[st1 fl]|e] eqn:Hbody;
    cbn [mbind result_bind].
  - destruct fl; [discriminate|]. apply IH. eapply trace_keys_step; eauto.
  - intros [= ->]. now apply (trace_body_no_KeyError hp eps st Hinv).
Qed.

Lemma list_remove_first_raises (x : Z * Z) (l : list (Z * Z)) (e : exn) :
  list_remove_first x l = Raise e -> e = ValueError.
Proof.
  induction l as [|y rest IH]; cbn; [congruence|].
  destruct (decide (y = x)); [discriminate|].
  destruct (list_remove_first x rest); cbn [mbind result_bind]; [discriminate|].
  intros [= <-]. now apply IH.
Qed.

Lemma trace_pass_no_KeyError (fuel : nat) (stop : bool) (hp : hyper) (episode : Z)
    (ts : train_st E G) :
  episode_pass qtable_trace_body (∅ : gmap (list Z * Z) float) fuel stop hp episode ts
    <> Raise KeyError.
Proof.
  unfold episode_pass.
  destruct (random_choice _ (ts_gen ts)) as [[start_cell g1]|e] eqn:Hc;
    cbn [mbind result_bind].
  2: { intros [= ->]. apply random_choice_raises in Hc. discriminate. }
  destruct (list_remove_first start_cell _) as [rest|e] eqn:Hr; cbn [mbind result_bind].
  2: { intros [= ->]. apply list_remove_first_raises in Hr. discriminate. }
  destruct (env_reset (ts_env ts) start_cell) as [env1 obs].
  destruct (play qtable_trace_body fuel hp (ts_exploration_rate ts) _) as [st|e] eqn:Hplay;
    cbn [mbind result_bind].
  2: { intros [= ->]. revert Hplay. apply trace_play_no_KeyError.
       cbn [es_local es_Q]. rewrite dom_empty_L. apply empty_subseteq. }
  unfold py_mod. destruct (check_convergence_every hp =? 0); [discriminate|].
  cbn [mbind result_bind]. destruct (_ =? 0); [|discriminate].
  destruct (env_check_win_all _ _ _) as [[env2 g2] [w_all win_rate]].
  destruct (w_all && stop)%bool; discriminate.
Qed.

Lemma trace_loop_no_KeyError (n fuel : nat) (stop : bool) (hp : hyper) (episode : Z)
    (ts : train_st E G) :
  episodes_loop qtable_trace_body (∅ : gmap (list Z * Z) float) n fuel stop hp episode ts
    <> Raise KeyError.
Proof.
  revert episode ts. induction n as [|n IH]; intros episode ts; [discriminate|].
  cbn [episodes_loop].
  destruct (episode_pass _ _ fuel stop hp episode ts) as [[ts1 fl]|e] eqn:Hpass;
    cbn [mbind result_bind].
  - destruct fl; [discriminate | apply IH].
  - intros [= ->]. now apply (trace_pass_no_KeyError fuel stop hp episode ts).
Qed.

End TraceKeys.

(** C10. In an episode of [QTableTraceModel.train], which starts with an
    empty trace, every key of the trace is a key of the table: before each
    step, and at the update of the pairs of the trace, where the trace has
    the current pair and the table has it too. So that update finds
    [self.Q[key]] for every key, the step raises no [KeyError], and neither
    does a run of [train]. *)
Theorem etrace_keys_are_in_Q {E G : Type} `{Environment E G} `{RandomSource G} :
  (forall hp eps (st0 st : episode_st E G (gmap (list Z * Z) float)),
     es_local st0 = ∅ -> in_episode hp eps st0 st ->
     dom (es_local st) ⊆ dom (es_Q st) /\
     (forall action,
        let key := (es_state st, action) in
        dom (etrace_visit (es_local st) key) ⊆ dom (ensure_entry (es_Q st) key) /\
        forall lr delta, exists Q2,
          update_trace_keys lr delta (map_to_list (etrace_visit (es_local st) key))
            (ensure_entry (es_Q st) key) = Ok Q2) /\
     qtable_trace_body hp eps st <> Raise KeyError) /\
  (forall fuel Q env g stop kw,
     QTableTraceModel_train fuel Q env g stop kw <> Raise KeyError).
Proof.
  split.
  - intros hp eps st0 st Hnew Hin.
    pose proof (trace_keys_in_episode hp eps st0 st Hnew Hin) as Hinv.
    split; [exact Hinv|]. split; [|now apply trace_body_no_KeyError].
    intros action key. split.
    + rewrite dom_etrace_visit, dom_ensure_entry.
      intros k Hk. apply elem_of_union in Hk as [Hk | Hk].
      * now apply elem_of_union_l.
      * apply elem_of_union_r. now apply Hinv.
    + intros lr delta. apply update_trace_keys_is_Ok.
      now apply trace_keys_at_update.
  - intros fuel Q env g stop kw. unfold QTableTraceModel_train, train.
    destruct (episodes_loop _ _ _ _ _ _ _ _) as [[ts episode]|e] eqn:Hloop;
      cbn [mbind result_bind]; [discriminate|].
    intros [= ->]. revert Hloop. apply trace_loop_no_KeyError.
Qed.

Lemma etrace_keys_are_in_Q_witness :
  dom (es_local Examples.trace2) ⊆ dom (es_Q Examples.trace2) /\
  qtable_trace_body Examples.hp 1%float Examples.trace2 <> Raise KeyError.
Proof.
  assert (Hin : in_episode Examples.hp 1%float Examples.trace0 Examples.trace2).
  { eapply in_episode_step; [eapply in_episode_step; [apply in_episode_start|]|];
      vm_compute; reflexivity. }
  destruct (proj1 etrace_keys_are_in_Q Examples.hp 1%float Examples.trace0
              Examples.trace2 eq_refl Hin) as (Hdom & _ & Hno).
  split; [exact Hdom | exact Hno].
Defined.

(** ** Fuel

    The bound on the steps of an episode is not the code's: a run that
    returns with some fuel returns the same with any more. *)

Section FuelFacts.
Context {E G : Type} `{Environment E G} `{RandomSource G} {L : Type}.
Variable body : hyper -> float -> episode_st E G L -> result (episode_st E G L * flow).
Variable new_local : L.

Lemma episode_pass_fuel_mono (fuel fuel' : nat) (stop : bool) (hp : hyper) (episode : Z)
    (ts : train_st E G) (r : train_st E G * flow) :
  episode_pass body new_local fuel stop hp episode ts = Ok r -> (fuel <= fuel')%nat ->
  episode_pass body new_local fuel' stop hp episode ts = Ok r.
Proof.
  intros Hpass Hle. unfold episode_pass in *.
  destruct (random_choice _ (ts_gen ts)) as [[start_cell g1]|e]; [|discriminate].
  cbn [mbind result_bind] in *.
  destruct (list_remove_first start_cell _) as [rest|e]; [|discriminate].
  cbn [mbind result_bind] in *.
  destruct (env_reset (ts_env ts) start_cell) as [env1 obs].
  destruct (play body fuel hp (ts_exploration_rate ts) _) as [st|e] eqn:Hplay;
    [|discriminate].
  rewrite (play_fuel_mono body fuel fuel' hp _ _ st Hplay Hle). exact Hpass.
Qed.

Lemma episodes_loop_fuel_mono (n fuel fuel' : nat) (stop : bool) (hp : hyper)
    (episode : Z) (ts : train_st E G) (r : train_st E G * Z) :
  episodes_loop body new_local n fuel stop hp episode ts = Ok r -> (fuel <= fuel')%nat ->
  episodes_loop body new_local n fuel' stop hp episode ts = Ok r.
Proof.
  revert episode ts. induction n as [|n IH]; intros episode ts Hloop Hle; [exact Hloop|].
  cbn [episodes_loop] in *.
  destruct (episode_pass body new_local fuel stop hp episode ts) as [[ts1 fl]|e] eqn:Hpass;
    [|discriminate].
  rewrite (episode_pass_fuel_mono fuel fuel' stop hp episode ts _ Hpass Hle).
  cbn [mbind result_bind] in *. destruct fl; [exact Hloop | now apply IH].
Qed.

Lemma train_fuel_mono (fuel fuel' : nat) (Q : gmap (list Z * Z) float) (env : E) (g : G)
    (stop : bool) (kw : kwargs) (out : train_out E G) :
  train body new_local fuel Q env g stop kw = Ok out -> (fuel <= fuel')%nat ->
  train body new_local fuel' Q env g stop kw = Ok out.
Proof.
  intros Hrun Hle. unfold train in *.
  destruct (episodes_loop body new_local _ fuel stop _ 1 _) as [r|e] eqn:Hloop;
    [|discriminate].
  now rewrite (episodes_loop_fuel_mono _ fuel fuel' stop _ 1 _ r Hloop Hle).
Qed.

End FuelFacts.

(** * The loops, step by step *)

(** ** Logs, once more *)

Lemma log_transitions_app (l1 l2 : list event) :
  log_transitions (l1 ++ l2) = log_transitions l1 ++ log_transitions l2.
Proof. unfold log_transitions. apply flat_map_app. Qed.

Lemma rewards_app (l1 l2 : list event) : rewards (l1 ++ l2) = rewards l1 ++ rewards l2.
Proof. unfold rewards. now rewrite log_transitions_app, map_app. Qed.

Lemma resets_app (l1 l2 : list event) : resets (l1 ++ l2) = resets l1 ++ resets l2.
Proof. unfold resets. apply flat_map_app. Qed.

Lemma add_rewards_app (total : float) (r1 r2 : list float) :
  add_rewards total (r1 ++ r2) = add_rewards (add_rewards total r1) r2.
Proof. unfold add_rewards. apply fold_left_app. Qed.

Lemma chosen_pairs_transitions (log : list event) :
  chosen_pairs log = map (fun t => (tr_state t, tr_action t)) (log_transitions log).
Proof.
  induction log as [|ev log IH]; [reflexivity|].
  change (ev :: log) with ([ev] ++ log).
  rewrite chosen_pairs_app, log_transitions_app, map_app, IH.
  f_equal. now destruct ev.
Qed.

Lemma log_transitions_step (t : transition) :
  log_transitions (transition_events t) = [t] /\
  resets (transition_events t) = [].
Proof.
  unfold transition_events, step_events. destruct t as [s a ns r status]; cbn.
  destruct (is_terminal status); auto.
Qed.

(** ** The steps of the two bodies *)

Lemma random_choice_elem {G : Type} `{RandomSource G} {A : Type} (seq : list A) (g : G)
    (x : A) (g' : G) :
  random_choice seq g = Ok (x, g') -> x ∈ seq.
Proof.
  unfold random_choice. destruct seq as [|y rest]; [discriminate|].
  destruct (randbelow _ g) as [i g1]. destruct (_ !! i) as [z|] eqn:Hi; [|discriminate].
  intros [= <- <-]. apply list_elem_of_lookup. eauto.
Qed.

Lemma predict_in_range {G : Type} `{RandomSource G} (actions : list Z)
    (Q : gmap (list Z * Z) float) (state : state_arg) (g : G) (a : Z) (g' : G) :
  predict actions Q state g = Ok (a, g') -> 0 <= a < Z.of_nat (length actions).
Proof.
  intros Hp.
  destruct (greedy_actions actions Q state) as [acts|e] eqn:Hacts.
  - rewrite (predict_draw actions Q state g acts Hacts) in Hp.
    destruct (draw_index_elem acts g a g' Hp) as (i & Ha & Hi).
    destruct (greedy_actions_elem actions Q state acts Hacts) as (m & Hm & Hnd & Helem).
    destruct (proj1 (Helem i) Hi) as (v & Hv & Heq). apply lookup_lt_Some in Hv.
    rewrite q_length in Hv. lia.
  - unfold predict in Hp. rewrite Hacts in Hp. discriminate.
Qed.

Section MoreBodyFacts.
Context {E G : Type} `{Environment E G} `{RandomSource G}.

Lemma choose_action_valid (eps : float) (Q : gmap (list Z * Z) float) (state : list Z)
    (g : G) (a : Z) (g' : G) :
  choose_action eps Q state g = Ok (a, g') -> valid_action env_actions a.
Proof.
  unfold choose_action. destruct (np_random g) as [u g1].
  destruct (u <? eps)%float; intros Hc.
  - left. eapply random_choice_elem; eauto.
  - right. eapply predict_in_range; eauto.
Qed.

Lemma choose_action_raises_which (eps : float) (Q : gmap (list Z * Z) float)
    (state : list Z) (g : G) (e : exn) :
  choose_action eps Q state g = Raise e ->
  e = IndexError \/ (e = ValueError /\ @env_actions E G _ = []).
Proof.
  unfold choose_action. destruct (np_random g) as [u g1].
  destruct (u <? eps)%float; intros Hr.
  - left. eapply random_choice_raises; eauto.
  - unfold predict in Hr.
    destruct (greedy_actions env_actions Q (Tuple state)) as [acts|e'] eqn:Hacts;
      cbn [mbind result_bind] in Hr.
    + left. destruct (random_choice acts g1) as [[i g']|e'] eqn:Hc;
        cbn [mbind result_bind] in Hr; [discriminate|].
      injection Hr as <-. eapply random_choice_raises; eauto.
    + injection Hr as <-. right.
      destruct (@env_actions E G _) as [|a rest] eqn:Hactions.
      * unfold greedy_actions in Hacts. cbn in Hacts. injection Hacts as <-. auto.
      * destruct (greedy_actions_is_Ok (a :: rest) Q (Tuple state)) as [acts Hok];
          [discriminate | congruence].
Qed.

Lemma max_next_raises_which (Q : gmap (list Z * Z) float) (next_state : list Z) (e : exn) :
  max_next Q next_state = Raise e -> e = ValueError /\ @env_actions E G _ = [].
Proof.
  unfold max_next. destruct (@env_actions E G _); cbn; [|discriminate].
  intros [= <-]. auto.
Qed.

Lemma qtable_body_steps : body_steps qtable_body.
Proof.
  intros hp eps st st' fl Hbody.
  destruct (qtable_body_inv hp eps st st' fl Hbody)
    as (action & g1 & env1 & obs & reward & status & m &
        Hc & Hs & Hm & Hfl & HQ & Henv & Hg & Hlog & Hcum & Hst).
  exists {| tr_state := es_state st; tr_action := action;
            tr_next_state := flatten obs; tr_reward := reward; tr_status := status |}.
  cbn [tr_state tr_action tr_next_state tr_reward tr_status].
  split; [exact Hlog|]. split; [exact Hfl|]. split; [reflexivity|].
  split; [eapply choose_action_valid; eauto|].
  split; [|split; assumption].
  rewrite HQ. unfold q_learning_update. rewrite dom_insert_L, dom_ensure_entry.
  apply set_eq. intros k. rewrite !elem_of_union. tauto.
Qed.

Lemma qtable_trace_body_steps : body_steps qtable_trace_body.
Proof.
  intros hp eps st st' fl Hbody.
  destruct (qtable_trace_body_inv hp eps st st' fl Hbody)
    as (action & g1 & env1 & obs & reward & status & m &
        Hc & Hs & Hm & Hfl & HQ & Htr & Henv & Hg & Hlog & Hcum & Hst).
  exists {| tr_state := es_state st; tr_action := action;
            tr_next_state := flatten obs; tr_reward := reward; tr_status := status |}.
  cbn [tr_state tr_action tr_next_state tr_reward tr_status].
  split; [exact Hlog|]. split; [exact Hfl|]. split; [reflexivity|].
  split; [eapply choose_action_valid; eauto|].
  split; [|split; assumption].
  now rewrite (update_trace_keys_dom _ _ _ _ _ HQ), dom_ensure_entry.
Qed.

Lemma model_body_steps (m : model) : body_steps (model_body m).
Proof. destruct m; [apply qtable_body_steps | apply qtable_trace_body_steps]. Qed.

Lemma qtable_body_raises : body_raises qtable_body.
Proof.
  intros hp eps st e. unfold qtable_body.
  destruct (choose_action eps (es_Q st) (es_state st) (es_gen st))
    as [[action g1]|e'] eqn:Hc; cbn [mbind result_bind].
  2: { intros [= <-]. right. eapply choose_action_raises_which; eauto. }
  destruct (env_step (es_env st) action) as [env1 [[obs reward] status]].
  destruct (max_next _ (flatten obs)) as [m|e'] eqn:Hm; cbn [mbind result_bind].
  2: { intros [= <-]. right. right. eapply max_next_raises_which; eauto. }
  rewrite dict_index_ensure_entry. cbn [mbind result_bind].
  destruct (is_terminal status); discriminate.
Qed.

Lemma qtable_trace_body_raises : body_raises qtable_trace_body.
Proof.
  intros hp eps st e. unfold qtable_trace_body.
  destruct (choose_action eps (es_Q st) (es_state st) (es_gen st))
    as [[action g1]|e'] eqn:Hc; cbn [mbind result_bind].
  2: { intros [= <-]. right. eapply choose_action_raises_which; eauto. }
  destruct (env_step (es_env st) action) as [env1 [[obs reward] status]].
  destruct (max_next _ (flatten obs)) as [m|e'] eqn:Hm; cbn [mbind result_bind].
  2: { intros [= <-]. right. right. eapply max_next_raises_which; eauto. }
  rewrite dict_index_ensure_entry. cbn [mbind result_bind].
  destruct (update_trace_keys _ _ _ _) as [Q2|e'] eqn:Hup; cbn [mbind result_bind].
  - destruct (is_terminal status); discriminate.
  - intros [= <-]. left. now apply update_trace_keys_raises in Hup.
Qed.

(** The guard of lines 86-88 works: a step of [QTableModel.train] raises no
    [KeyError], whatever the table. *)
Lemma qtable_body_no_KeyError (hp : hyper) (eps : float) (st : episode_st E G unit) :
  qtable_body hp eps st <> Raise KeyError.
Proof.
  intros Hr. unfold qtable_body in Hr.
  destruct (choose_action eps (es_Q st) (es_state st) (es_gen st))
    as [[action g1]|e'] eqn:Hc; cbn [mbind result_bind] in Hr.
  2: { injection Hr as ->. now apply choose_action_raises in Hc. }
  destruct (env_step (es_env st) action) as [env1 [[obs reward] status]].
  destruct (max_next _ (flatten obs)) as [m|e'] eqn:Hm; cbn [mbind result_bind] in Hr.
  2: { injection Hr as ->. apply py_max_raises in Hm. discriminate. }
  rewrite dict_index_ensure_entry in Hr. cbn [mbind result_bind] in Hr.
  destruct (is_terminal status); discriminate.
Qed.

End MoreBodyFacts.

(** ** The loops, step by step *)

Lemma running_totals_app (total : float) (l1 l2 : list event) :
  running_totals total (l1 ++ l2) =
  running_totals total l1 ++ running_totals (add_rewards total (rewards l1)) l2.
Proof.
  revert total. induction l1 as [|ev l1 IH]; intros total; [reflexivity|].
  destruct ev as [c|s a ns r status| |e w wr]; cbn [app running_totals]; try apply IH.
  change (rewards (EvStep s a ns r status :: l1)) with (r :: rewards l1).
  cbn [add_rewards fold_left]. fold (add_rewards (total + r)%float (rewards l1)).
  destruct (is_terminal status); cbn [app]; now rewrite IH.
Qed.

Lemma any_won_app (l1 l2 : list event) : any_won (l1 ++ l2) = (any_won l1 || any_won l2)%bool.
Proof. unfold any_won. now rewrite checks_app, existsb_app. Qed.

Lemma transition_events_facts (t : transition) (total : float) :
  log_transitions (transition_events t) = [t] /\
  rewards (transition_events t) = [tr_reward t] /\
  chosen_pairs (transition_events t) = [(tr_state t, tr_action t)] /\
  resets (transition_events t) = [] /\
  checks (transition_events t) = [] /\
  running_totals total (transition_events t) =
    (if is_terminal (tr_status t) then [(total + tr_reward t)%float] else []).
Proof.
  unfold transition_events, step_events. destruct t as [s a ns r status]; cbn.
  destruct (is_terminal status) eqn:Hs; cbn; rewrite ?Hs; auto 10.
Qed.

Lemma list_remove_first_Permutation (x : Z * Z) (l rest : list (Z * Z)) :
  list_remove_first x l = Ok rest -> x :: rest ≡ₚ l.
Proof.
  revert rest. induction l as [|y l IH]; intros rest; cbn; [discriminate|].
  destruct (decide (y = x)) as [->|Hne].
  - now intros [= <-].
  - destruct (list_remove_first x l) as [rest'|e]; cbn [mbind result_bind]; [|discriminate].
    intros [= <-]. rewrite Permutation_swap. now rewrite (IH rest' eq_refl).
Qed.

Lemma list_remove_first_is_Ok (x : Z * Z) (l : list (Z * Z)) :
  x ∈ l -> exists rest, list_remove_first x l = Ok rest.
Proof.
  induction l as [|y l IH]; intros Hin; [inversion Hin|]. cbn.
  destruct (decide (y = x)) as [->|Hne]; [eauto|].
  apply elem_of_cons in Hin as [-> | Hin]; [congruence|].
  destruct (IH Hin) as [rest ->]. cbn. eauto.
Qed.

Section StepLoops.
Context {E G : Type} `{Environment E G} `{RandomSource G} {L : Type}.
Variable body : hyper -> float -> episode_st E G L -> result (episode_st E G L * flow).
Variable new_local : L.
Hypothesis body_has_steps : body_steps body.

Lemma play_steps (fuel : nat) (hp : hyper) (eps : float) (st st' : episode_st E G L) :
  play body fuel hp eps st = Ok st' ->
  exists new,
    es_log st' = es_log st ++ new /\
    resets new = [] /\ checks new = [] /\
    log_transitions new <> [] /\
    chained (es_state st) (log_transitions new) /\
    Forall (fun t => valid_action env_actions (tr_action t)) (log_transitions new) /\
    dom (es_Q st') = list_to_set (chosen_pairs new) ∪ dom (es_Q st) /\
    es_cumulative_reward st' = add_rewards (es_cumulative_reward st) (rewards new) /\
    running_totals (es_cumulative_reward st) new = [es_cumulative_reward st'].
Proof.
  revert st. induction fuel as [|fuel IH]; intros st Hplay; [discriminate|].
  cbn [play] in Hplay.
  destruct (body hp eps st) as [[st1 fl]|e] eqn:Hbody; [|discriminate].
  cbn [mbind result_bind] in Hplay.
  destruct (body_has_steps hp eps st st1 fl Hbody)
    as (t & Hlog & Hfl & Hstate & Hvalid & Hdom & Hcum & Hnext).
  destruct (transition_events_facts t (es_cumulative_reward st))
    as (Tt & Tr & Tp & Tz & Tc & Tt').
  destruct (is_terminal (tr_status t)) eqn:Hterm; subst fl.
  - injection Hplay as <-. exists (transition_events t).
    rewrite Tt, Tr, Tp, Tz, Tc, Tt'. cbn [chained list_to_set add_rewards fold_left].
    split; [exact Hlog|]. split; [reflexivity|]. split; [reflexivity|].
    split; [discriminate|]. split; [auto|]. split; [constructor; auto|].
    split; [rewrite Hdom; now rewrite union_empty_r_L|].
    split; [exact Hcum | now rewrite Hcum].
  - destruct (IH st1 Hplay)
      as (new & Hlog1 & Hz & Hc & Hne & Hch & Hval & Hdom1 & Hcum1 & Htot).
    exists (transition_events t ++ new).
    rewrite resets_app, checks_app, log_transitions_app, rewards_app, chosen_pairs_app,
      running_totals_app, add_rewards_app, Tt, Tr, Tp, Tz, Tc, Tt', Hz, Hc.
    cbn [app chained add_rewards fold_left].
    split; [rewrite Hlog1, Hlog; now rewrite <- app_assoc|].
    split; [reflexivity|]. split; [reflexivity|]. split; [discriminate|].
    split; [split; [exact Hstate | now rewrite <- Hnext]|].
    split; [constructor; auto|].
    split.
    { rewrite Hdom1, Hdom. cbn [list_to_set]. apply set_eq. intros k.
      rewrite !elem_of_union. tauto. }
    rewrite <- Hcum. split; [exact Hcum1 | exact Htot].
Qed.

Lemma episode_pass_steps (fuel : nat) (stop : bool) (hp : hyper) (episode : Z)
    (ts ts' : train_st E G) (fl : flow) :
  episode_pass body new_local fuel stop hp episode ts = Ok (ts', fl) ->
  exists start_cell new,
    ts_log ts' = ts_log ts ++ new /\
    resets new = [start_cell] /\
    start_cell :: ts_start_list ts' ≡ₚ start_pool ts /\
    Forall (fun t => valid_action env_actions (tr_action t)) (log_transitions new) /\
    log_transitions new <> [] /\
    dom (ts_Q ts') = list_to_set (chosen_pairs new) ∪ dom (ts_Q ts) /\
    ts_cumulative_reward ts' = add_rewards (ts_cumulative_reward ts) (rewards new) /\
    ts_cumulative_reward_history ts' =
      ts_cumulative_reward_history ts ++ running_totals (ts_cumulative_reward ts) new /\
    running_totals (ts_cumulative_reward ts) new = [ts_cumulative_reward ts'] /\
    ts_exploration_rate ts' =
      match fl with
      | Break => ts_exploration_rate ts
      | Continue => (ts_exploration_rate ts * exploration_decay hp)%float
      end /\
    (fl = Break <-> (stop && any_won new)%bool = true).
Proof.
  unfold episode_pass. fold (start_pool ts).
  destruct (random_choice (start_pool ts) (ts_gen ts)) as [[start_cell g1]|e] eqn:Hc;
    [|discriminate].
  cbn [mbind result_bind].
  destruct (list_remove_first start_cell (start_pool ts)) as [rest|e] eqn:Hrm;
    [|discriminate].
  cbn [mbind result_bind].
  destruct (env_reset (ts_env ts) start_cell) as [env1 obs] eqn:Hreset.
  destruct (play body fuel hp (ts_exploration_rate ts) _) as [st|e] eqn:Hplay; [|discriminate].
  cbn [mbind result_bind].
  destruct (play_steps fuel hp _ _ st Hplay)
    as (new & Hlog & Hz & Hcs & Hne & _ & Hval & Hdom & Hcum & Htot).
  cbn [es_log es_Q es_cumulative_reward es_state] in Hlog, Hdom, Hcum, Htot.
  apply list_remove_first_Permutation in Hrm.
  destruct (py_mod episode (check_convergence_every hp)) as [r|e]; [|discriminate].
  cbn [mbind result_bind].
  assert (Hfacts : forall tail : list event,
            log_transitions tail = [] -> resets tail = [] ->
            resets ((EvReset start_cell :: new) ++ tail) = [start_cell] /\
            log_transitions ((EvReset start_cell :: new) ++ tail) = log_transitions new /\
            rewards ((EvReset start_cell :: new) ++ tail) = rewards new /\
            chosen_pairs ((EvReset start_cell :: new) ++ tail) = chosen_pairs new /\
            running_totals (ts_cumulative_reward ts) ((EvReset start_cell :: new) ++ tail)
              = [es_cumulative_reward st] /\
            any_won ((EvReset start_cell :: new) ++ tail) = any_won tail).
  { intros tail Ht Hr.
    change (EvReset start_cell :: new) with ([EvReset start_cell] ++ new).
    rewrite !resets_app, !log_transitions_app, !rewards_app, !chosen_pairs_app,
      !chosen_pairs_transitions, !any_won_app, !running_totals_app, Hz, Ht, Hr.
    unfold rewards at 3. rewrite Ht. cbn [map]. rewrite !app_nil_r. cbn [app].
    unfold any_won at 1 2. rewrite Hcs. cbn [checks flat_map existsb orb].
    split; [reflexivity|]. split; [reflexivity|]. split; [reflexivity|].
    split; [reflexivity|]. split; [|reflexivity].
    cbn [rewards log_transitions flat_map map add_rewards fold_left app running_totals].
    rewrite Htot.
    assert (Hnil : forall total, running_totals total tail = []).
    { clear -Ht. induction tail as [|ev tail IH]; intros total; [reflexivity|].
      destruct ev; cbn in *; try discriminate; apply IH; assumption. }
    rewrite Hnil. reflexivity. }
  destruct (r =? 0).
  - destruct (env_check_win_all (es_env st) (es_Q st) (es_gen st))
      as [[env2 g2] [w_all win_rate]].
    destruct (Hfacts [EvCheckWinAll episode w_all win_rate] eq_refl eq_refl)
      as (Fz & Ft & Fr & Fp & Ftot & Fw).
    destruct (w_all && stop)%bool eqn:Hw; intros [= <- <-];
      exists start_cell, (EvReset start_cell :: new ++ [EvCheckWinAll episode w_all win_rate]);
      cbn [ts_log ts_start_list ts_Q ts_cumulative_reward ts_cumulative_reward_history
           ts_exploration_rate];
      change (EvReset start_cell :: new ++ [EvCheckWinAll episode w_all win_rate])
        with ((EvReset start_cell :: new) ++ [EvCheckWinAll episode w_all win_rate]);
      rewrite Fz, Ft, Fr, Fp, Ftot, Fw, Hlog, <- !app_assoc;
      unfold any_won; cbn [checks flat_map app existsb fst snd];
      rewrite orb_false_r, (andb_comm stop w_all), Hw;
      repeat (split; [first [reflexivity | assumption | discriminate]|]);
      first [split; congruence | congruence].
  - destruct (Hfacts [] eq_refl eq_refl) as (Fz & Ft & Fr & Fp & Ftot & Fw).
    rewrite app_nil_r in Fz, Ft, Fr, Fp, Ftot, Fw.
    intros [= <- <-]. exists start_cell, (EvReset start_cell :: new).
    cbn [ts_log ts_start_list ts_Q ts_cumulative_reward ts_cumulative_reward_history
         ts_exploration_rate].
    rewrite Fz, Ft, Fr, Fp, Ftot, Fw, Hlog, <- !app_assoc.
    unfold any_won. cbn [checks flat_map existsb]. rewrite andb_false_r.
    repeat (split; [first [reflexivity | assumption | discriminate]|]).
    first [split; congruence | congruence].
Qed.

End StepLoops.

Section StepRuns.
Context {E G : Type} `{Environment E G} `{RandomSource G} {L : Type}.
Variable body : hyper -> float -> episode_st E G L -> result (episode_st E G L * flow).
Variable new_local : L.
Hypothesis body_has_steps : body_steps body.

Lemma decayed_succ (j : nat) (decay rate : float) :
  decayed j decay (rate * decay)%float = decayed (S j) decay rate.
Proof. unfold decayed. now rewrite Nat.iter_succ_r. Qed.

Lemma episodes_loop_steps (n fuel : nat) (stop : bool) (hp : hyper) (first : Z)
    (ts ts' : train_st E G) (final : Z) :
  episodes_loop body new_local n fuel stop hp first ts = Ok (ts', final) ->
  exists (new : list event) (k : nat),
    final = first + Z.of_nat k - 1 /\
    (k <= n)%nat /\ (k = 0%nat -> new = []) /\
    ts_log ts' = ts_log ts ++ new /\
    length (resets new) = k /\
    ((k <= length (start_pool ts))%nat -> resets new ⊆+ start_pool ts) /\
    Forall (fun t => valid_action env_actions (tr_action t)) (log_transitions new) /\
    dom (ts_Q ts') = list_to_set (chosen_pairs new) ∪ dom (ts_Q ts) /\
    ts_cumulative_reward ts' = add_rewards (ts_cumulative_reward ts) (rewards new) /\
    ts_cumulative_reward_history ts' =
      ts_cumulative_reward_history ts ++ running_totals (ts_cumulative_reward ts) new /\
    ts_exploration_rate ts' =
      decayed (k - (if (stop && any_won new)%bool then 1 else 0))
        (exploration_decay hp) (ts_exploration_rate ts) /\
    ((stop && any_won new)%bool = false -> k = n) /\
    (k <> 0%nat ->
     last (ts_cumulative_reward_history ts') = Some (ts_cumulative_reward ts')).
Proof.
  revert first ts. induction n as [|n IH]; intros first ts Hloop.
  - injection Hloop as <- <-. exists [], 0%nat.
    rewrite !app_nil_r, andb_false_r.
    cbn [resets flat_map length log_transitions chosen_pairs rewards map list_to_set
         running_totals add_rewards fold_left decayed Nat.iter Nat.sub].
    split; [lia|]. split; [lia|]. split; [reflexivity|]. split; [reflexivity|].
    split; [reflexivity|]. split; [intros _; apply submseteq_nil_l|].
    split; [constructor|]. split; [now rewrite union_empty_l_L|].
    split; [reflexivity|]. split; [reflexivity|]. split; [reflexivity|].
    split; [reflexivity | congruence].
  - cbn [episodes_loop] in Hloop.
    destruct (episode_pass body new_local fuel stop hp first ts) as [[ts1 fl]|e] eqn:Hpass;
      [|discriminate].
    cbn [mbind result_bind] in Hloop.
    destruct (episode_pass_steps body new_local body_has_steps fuel stop hp first ts ts1 fl Hpass)
      as (c & new1 & Hlog1 & Hz1 & Hperm & Hval1 & Hne1 & Hdom1 & Hcum1 & Hhist1 & Htot1 &
          Hrate1 & Hbrk).
    assert (Hsub1 : [c] ⊆+ start_pool ts).
    { rewrite <- Hperm. apply submseteq_skip, submseteq_nil_l. }
    destruct fl.
    + injection Hloop as <- <-. exists new1, 1%nat.
      assert (Hw : (stop && any_won new1)%bool = true) by now apply Hbrk.
      rewrite Hw, Hz1.
      split; [lia|]. split; [lia|]. split; [lia|]. split; [exact Hlog1|].
      split; [reflexivity|]. split; [auto|]. split; [exact Hval1|].
      split; [exact Hdom1|]. split; [exact Hcum1|]. split; [exact Hhist1|].
      split; [exact Hrate1|]. split; [discriminate|].
      intros _. rewrite Hhist1, Htot1. apply last_snoc.
    + assert (Hw : (stop && any_won new1)%bool = false).
      { destruct (stop && any_won new1)%bool; [|reflexivity].
        now assert (Continue = Break) by now apply Hbrk. }
      destruct (IH (first + 1) ts1 Hloop)
        as (new2 & k & Hlast & Hk & Hk0 & Hlog2 & Hz2 & Hsub2 & Hval2 & Hdom2 & Hcum2 &
            Hhist2 & Hrate2 & Hfull & Hlast2).
      exists (new1 ++ new2), (S k).
      rewrite resets_app, log_transitions_app, chosen_pairs_app, rewards_app,
        running_totals_app, add_rewards_app, any_won_app, andb_orb_distrib_r, Hw, Hz1.
      cbn [orb app length].
      split; [lia|]. split; [lia|]. split; [lia|].
      split; [rewrite Hlog2, Hlog1; now rewrite <- app_assoc|].
      split; [now rewrite Hz2|].
      split.
      { intros Hlen. destruct k as [|k].
        - rewrite (Hk0 eq_refl). exact Hsub1.
        - assert (Hrest : start_pool ts1 = ts_start_list ts1).
          { unfold start_pool. destruct (ts_start_list ts1) eqn:Hsl; [|reflexivity].
            try rewrite Hsl in Hperm. apply Permutation_length in Hperm. cbn in Hperm. lia. }
          rewrite <- Hperm. apply submseteq_skip. rewrite <- Hrest. apply Hsub2.
          rewrite Hrest. apply Permutation_length in Hperm. cbn in Hperm. lia. }
      split; [now apply Forall_app|].
      split.
      { rewrite Hdom2, Hdom1, list_to_set_app_L. apply set_eq. intros x.
        rewrite !elem_of_union. tauto. }
      rewrite <- Hcum1. split; [exact Hcum2|].
      split; [rewrite Hhist2, Hhist1; now rewrite <- app_assoc|].
      split.
      { rewrite Hrate2, Hrate1, decayed_succ.
        destruct (stop && any_won new2)%bool eqn:Hw2; [|f_equal; lia].
        destruct k as [|k]; [|f_equal; lia].
        rewrite (Hk0 eq_refl) in Hw2. cbn in Hw2. rewrite andb_false_r in Hw2.
        discriminate. }
      split; [intros Hno; f_equal; now apply Hfull|].
      intros _. destruct k as [|k]; [|now apply Hlast2].
      rewrite Hhist2, Hcum2, (Hk0 eq_refl), Hhist1, Htot1.
      cbn [running_totals rewards log_transitions flat_map map add_rewards fold_left].
      rewrite app_nil_r. apply last_snoc.
Qed.

End StepRuns.

Section MoreTrainFacts.
Context {E G : Type} `{Environment E G} `{RandomSource G}.

(** What a run that returns has done, read off its log. *)
Lemma model_train_steps (m : model) (fuel : nat) (Q : gmap (list Z * Z) float) (env : E)
    (g : G) (stop : bool) (kw : kwargs) (out : train_out E G) :
  model_train m fuel Q env g stop kw = Ok out ->
  let hp := read_kwargs kw in
  length (resets (out_log out)) = Z.to_nat (out_episode out) /\
  ((out_episode out <= Z.of_nat (length (@env_empty E G _))) ->
     resets (out_log out) ⊆+ @env_empty E G _) /\
  Forall (fun t => valid_action env_actions (tr_action t)) (log_transitions (out_log out)) /\
  dom (out_Q out) = list_to_set (chosen_pairs (out_log out)) ∪ dom Q /\
  out_cumulative_reward_history out = running_totals 0%float (out_log out) /\
  ((stop && any_won (out_log out))%bool = false -> out_episode out = episodes hp).
Proof.
  intros Hrun hp.
  destruct (model_train_inv m fuel Q env g stop kw out Hrun) as (ts & Hloop & Hout).
  pose proof (episodes_clamped kw) as Hclamp. fold hp in Hclamp, Hloop.
  destruct (episodes_loop_steps (model_body m) (model_new_local m) (model_body_steps m)
              _ fuel stop hp 1 _ ts _ Hloop)
    as (new & k & Hlast & Hk & Hk0 & Hlog & Hz & Hsub & Hval & Hdom & Hcum & Hhist &
        Hrate & Hfull & Hlasth).
  cbn [train_start ts_log ts_Q ts_cumulative_reward ts_cumulative_reward_history
       ts_start_list app] in Hlog, Hdom, Hhist, Hsub.
  unfold start_pool in Hsub. cbn [train_start ts_start_list] in Hsub.
  rewrite Hout. cbn [train_return out_log out_Q out_cumulative_reward_history out_episode].
  rewrite Hlog, Hhist. 
  split; [lia|]. split; [intros Hle; apply Hsub; lia|]. split; [exact Hval|].
  split; [exact Hdom|]. split; [reflexivity|].
  intros Hno. specialize (Hfull Hno). lia.
Qed.

End MoreTrainFacts.

(** ** What the loops raise *)

Section RaiseLoops.
Context {E G : Type} `{Environment E G} `{RandomSource G} {L : Type}.
Variable body : hyper -> float -> episode_st E G L -> result (episode_st E G L * flow).
Variable new_local : L.
Hypothesis body_raises_these : body_raises body.

Lemma play_raises (fuel : nat) (hp : hyper) (eps : float) (st : episode_st E G L) (e : exn) :
  play body fuel hp eps st = Raise e ->
  e = Diverges \/ e = KeyError \/ e = IndexError \/
  (e = ValueError /\ @env_actions E G _ = []).
Proof.
  revert st. induction fuel as [|fuel IH]; intros st; cbn [play].
  - intros [= <-]. now left.
  - destruct (body hp eps st) as [[st1 fl]|e'] eqn:Hbody; cbn [mbind result_bind].
    + destruct fl; [discriminate | apply IH].
    + intros [= <-]. right. eapply body_raises_these; eauto.
Qed.

Lemma episode_pass_raises (fuel : nat) (stop : bool) (hp : hyper) (episode : Z)
    (ts : train_st E G) (e : exn) :
  episode_pass body new_local fuel stop hp episode ts = Raise e ->
  e = ZeroDivisionError \/ e = Diverges \/ e = KeyError \/ e = IndexError \/
  (e = ValueError /\ @env_actions E G _ = []).
Proof.
  unfold episode_pass. fold (start_pool ts).
  destruct (random_choice (start_pool ts) (ts_gen ts)) as [[start_cell g1]|e'] eqn:Hc;
    cbn [mbind result_bind].
  2: { intros [= <-]. do 3 right. left. eapply random_choice_raises; eauto. }
  destruct (list_remove_first_is_Ok start_cell (start_pool ts)) as [rest ->];
    [eapply random_choice_elem; eauto|].
  cbn [mbind result_bind].
  destruct (env_reset (ts_env ts) start_cell) as [env1 obs].
  destruct (play body fuel hp (ts_exploration_rate ts) _) as [st|e'] eqn:Hplay;
    cbn [mbind result_bind].
  2: { intros [= <-]. right. eapply play_raises; eauto. }
  unfold py_mod. destruct (check_convergence_every hp =? 0); cbn [mbind result_bind].
  { intros [= <-]. now left. }
  destruct (_ =? 0); [|discriminate].
  destruct (env_check_win_all _ _ _) as [[env2 g2] [w_all win_rate]].
  destruct (w_all && stop)%bool; discriminate.
Qed.

Lemma episodes_loop_raises (n fuel : nat) (stop : bool) (hp : hyper) (episode : Z)
    (ts : train_st E G) (e : exn) :
  episodes_loop body new_local n fuel stop hp episode ts = Raise e ->
  e = ZeroDivisionError \/ e = Diverges \/ e = KeyError \/ e = IndexError \/
  (e = ValueError /\ @env_actions E G _ = []).
Proof.
  revert episode ts. induction n as [|n IH]; intros episode ts; [discriminate|].
  cbn [episodes_loop].
  destruct (episode_pass body new_local fuel stop hp episode ts) as [[ts1 fl]|e'] eqn:Hpass;
    cbn [mbind result_bind].
  - destruct fl; [discriminate | apply IH].
  - intros [= <-]. eapply episode_pass_raises; eauto.
Qed.

Hypothesis body_no_KeyError : forall hp eps st, body hp eps st <> Raise KeyError.

Lemma episodes_loop_no_KeyError (n fuel : nat) (stop : bool) (hp : hyper) (episode : Z)
    (ts : train_st E G) :
  episodes_loop body new_local n fuel stop hp episode ts <> Raise KeyError.
Proof.
  assert (Hplay : forall fuel' eps st, play body fuel' hp eps st <> Raise KeyError).
  { induction fuel' as [|fuel' IH]; intros eps st; cbn [play]; [discriminate|].
    destruct (body hp eps st) as [[st1 fl]|e'] eqn:Hbody; cbn [mbind result_bind].
    - destruct fl; [discriminate | apply IH].
    - intros [= ->]. now apply (body_no_KeyError hp eps st). }
  revert episode ts. induction n as [|n IH]; intros episode ts; [discriminate|].
  cbn [episodes_loop].
  destruct (episode_pass body new_local fuel stop hp episode ts) as [[ts1 fl]|e'] eqn:Hpass;
    cbn [mbind result_bind].
  - destruct fl; [discriminate | apply IH].
  - intros [= ->]. revert Hpass. unfold episode_pass.
    destruct (random_choice _ (ts_gen ts)) as [[start_cell g1]|e'] eqn:Hc;
      cbn [mbind result_bind].
    2: { intros [= ->]. apply random_choice_raises in Hc. discriminate. }
    destruct (list_remove_first start_cell _) as [rest|e'] eqn:Hr; cbn [mbind result_bind].
    2: { intros [= ->]. apply list_remove_first_raises in Hr. discriminate. }
    destruct (env_reset (ts_env ts) start_cell) as [env1 obs].
    destruct (play body fuel hp (ts_exploration_rate ts) _) as [st|e'] eqn:Hp;
      cbn [mbind result_bind].
    2: { intros [= ->]. now apply Hplay in Hp. }
    unfold py_mod. destruct (check_convergence_every hp =? 0); [discriminate|].
    cbn [mbind result_bind]. destruct (_ =? 0); [|discriminate].
    destruct (env_check_win_all _ _ _) as [[env2 g2] [w_all win_rate]].
    destruct (w_all && stop)%bool; discriminate.
Qed.

End RaiseLoops.

Section ModelRaises.
Context {E G : Type} `{Environment E G} `{RandomSource G}.

Lemma model_body_raises (m : model) : body_raises (model_body m).
Proof. destruct m; [apply qtable_body_raises | apply qtable_trace_body_raises]. Qed.

Lemma model_loop_no_KeyError (m : model) (n fuel : nat) (stop : bool) (hp : hyper)
    (episode : Z) (ts : train_st E G) :
  episodes_loop (model_body m) (model_new_local m) n fuel stop hp episode ts
    <> Raise KeyError.
Proof.
  destruct m.
  - apply episodes_loop_no_KeyError. apply qtable_body_no_KeyError.
  - apply trace_loop_no_KeyError.
Qed.

End ModelRaises.

(** * What the runs show *)

(** ** A step of [QTableModel.train] writes one entry *)

(** X1. The step of the one-step model leaves every entry of the table other
    than the one of the chosen pair as it found it, present or absent. *)
Theorem qtable_step_writes_one_entry {E G : Type} `{Environment E G} `{RandomSource G}
    (hp : hyper) (eps : float) (st st' : episode_st E G unit) (fl : flow) :
  qtable_body hp eps st = Ok (st', fl) ->
  exists action,
    chosen_pairs (es_log st') = chosen_pairs (es_log st) ++ [(es_state st, action)] /\
    forall key, key <> (es_state st, action) -> es_Q st' !! key = es_Q st !! key.
Proof.
  intros Hbody.
  destruct (qtable_body_inv hp eps st st' fl Hbody)
    as (action & g1 & env1 & obs & reward & status & m &
        Hc & Hs & Hm & Hfl & HQ & Henv & Hg & Hlog & Hcum & Hst).
  exists action. split.
  - now rewrite Hlog, chosen_pairs_app, chosen_pairs_step_events.
  - intros key Hne. rewrite HQ. unfold q_learning_update.
    rewrite lookup_insert_ne by congruence. apply lookup_ensure_entry_ne. congruence.
Qed.

Lemma qtable_step_writes_one_entry_witness :
  qtable_body Examples.hp 0.1%float Examples.plain0 = Ok (Examples.plain1, Continue) /\
  exists action,
    chosen_pairs (es_log Examples.plain1) =
      chosen_pairs (es_log Examples.plain0) ++ [(es_state Examples.plain0, action)] /\
    forall key, key <> (es_state Examples.plain0, action) ->
                es_Q Examples.plain1 !! key = es_Q Examples.plain0 !! key.
Proof.
  assert (Hrun : qtable_body Examples.hp 0.1%float Examples.plain0
                 = Ok (Examples.plain1, Continue)) by (vm_compute; reflexivity).
  split; [exact Hrun|].
  exact (qtable_step_writes_one_entry Examples.hp 0.1%float Examples.plain0
           Examples.plain1 Continue Hrun).
Defined.

(** ** The keys of the table after a run *)

(** X2. After a run of [train] of either model, the keys of the table are the
    keys it had before and the pairs [(state, action)] of the steps taken,
    and no other: a model made by [__init__] and trained once has an entry
    for exactly the pairs it acted on. *)
Theorem Q_keys_are_the_chosen_pairs {E G : Type} `{Environment E G} `{RandomSource G}
    (m : model) (fuel : nat) (Q : gmap (list Z * Z) float) (env : E) (g : G) (stop : bool)
    (kw : kwargs) (out : train_out E G) :
  model_train m fuel Q env g stop kw = Ok out ->
  dom (out_Q out) = list_to_set (chosen_pairs (out_log out)) ∪ dom Q /\
  (Q = new_Q -> forall key, key ∈ dom (out_Q out) <-> key ∈ chosen_pairs (out_log out)).
Proof.
  intros Hrun.
  destruct (model_train_steps m fuel Q env g stop kw out Hrun)
    as (_ & _ & _ & Hdom & _).
  split; [exact Hdom|]. intros -> key. rewrite Hdom. unfold new_Q.
  rewrite dom_empty_L, union_empty_r_L. apply elem_of_list_to_set.
Qed.

Lemma Q_keys_are_the_chosen_pairs_witness :
  model_train QTableModel 20 new_Q 0 Runs.tape0 true (Examples.kw 3 1) = Ok Runs.plain_3_1 /\
  dom (out_Q Runs.plain_3_1) =
    list_to_set (chosen_pairs (out_log Runs.plain_3_1)) ∪ dom new_Q /\
  (new_Q = new_Q -> forall key,
     key ∈ dom (out_Q Runs.plain_3_1) <-> key ∈ chosen_pairs (out_log Runs.plain_3_1)).
Proof.
  assert (Hrun : model_train QTableModel 20 new_Q 0 Runs.tape0 true (Examples.kw 3 1)
                 = Ok Runs.plain_3_1) by (vm_compute; reflexivity).
  split; [exact Hrun|].
  exact (Q_keys_are_the_chosen_pairs QTableModel 20 new_Q 0 Runs.tape0 true
           (Examples.kw 3 1) Runs.plain_3_1 Hrun).
Defined.

(** ** States the agent never acted in *)

(** X3. After a run of [train] from a new model, a state in which no step was
    taken has no entry: [q] gives zeros for it and every position is a
    greedy choice, so [predict] still draws among all the actions. *)
Theorem unvisited_state_keeps_zero_q {E G : Type} `{Environment E G} `{RandomSource G}
    (m : model) (fuel : nat) (env : E) (g : G) (stop : bool) (kw : kwargs)
    (out : train_out E G) (state : state_arg) :
  model_train m fuel new_Q env g stop kw = Ok out ->
  (forall key, key ∈ chosen_pairs (out_log out) -> key.1 <> as_tuple state) ->
  q env_actions (out_Q out) state = repeat 0%float (length (@env_actions E G _)) /\
  (@env_actions E G _ <> [] ->
   greedy_actions env_actions (out_Q out) state = Ok (seq 0 (length (@env_actions E G _)))).
Proof.
  intros Hrun Hnot.
  destruct (model_train_steps m fuel new_Q env g stop kw out Hrun)
    as (_ & _ & _ & Hdom & _).
  assert (Hnone : forall a, a ∈ @env_actions E G _ ->
                            out_Q out !! (as_tuple state, a) = None).
  { intros a _. apply not_elem_of_dom. rewrite Hdom. unfold new_Q.
    rewrite dom_empty_L, union_empty_r_L, elem_of_list_to_set.
    intros Hin. now apply (Hnot _ Hin). }
  split; [now apply q_unseen|].
  intros Hne. now apply greedy_actions_unseen.
Qed.

Lemma unvisited_state_keeps_zero_q_witness :
  q (@env_actions Z Corridor.tape Corridor.env) (out_Q Runs.trace_0_1) (NdArray [[2]])
    = repeat 0%float (length (@env_actions Z Corridor.tape Corridor.env)) /\
  (@env_actions Z Corridor.tape Corridor.env <> [] ->
   greedy_actions (@env_actions Z Corridor.tape Corridor.env) (out_Q Runs.trace_0_1)
     (NdArray [[2]])
   = Ok (seq 0 (length (@env_actions Z Corridor.tape Corridor.env)))).
Proof.
  apply (unvisited_state_keeps_zero_q QTableTraceModel 20 0 Runs.tape0 false
           (Examples.kw 0 1) Runs.trace_0_1 (NdArray [[2]])).
  - vm_compute; reflexivity.
  - intros key Hin. vm_compute in Hin.
    apply elem_of_cons in Hin as [-> | Hin]; [discriminate | inversion Hin].
Defined.

(** ** The exceptions of [train] *)

(** X4. Whatever the environment and the generators do, [train] of either
    model raises no [KeyError], and a [ValueError] only when the
    environment has no action: what it can raise is the [IndexError] of a
    draw from an empty sequence and the [ZeroDivisionError] of
    [check_convergence_every = 0] ([Diverges] stands for an episode that
    does not end within the fuel). *)
Theorem train_raises_only {E G : Type} `{Environment E G} `{RandomSource G}
    (m : model) (fuel : nat) (Q : gmap (list Z * Z) float) (env : E) (g : G) (stop : bool)
    (kw : kwargs) (e : exn) :
  model_train m fuel Q env g stop kw = Raise e ->
  e = IndexError \/ e = ZeroDivisionError \/ e = Diverges \/
  (e = ValueError /\ @env_actions E G _ = []).
Proof.
  unfold model_train, train.
  destruct (episodes_loop _ _ _ _ _ _ _ _) as [[ts episode]|e'] eqn:Hloop;
    cbn [mbind result_bind]; [discriminate|].
  intros [= <-].
  destruct (episodes_loop_raises (model_body m) (model_new_local m) (model_body_raises m)
              _ _ _ _ _ _ _ Hloop) as [-> | [-> | [-> | [-> | Hv]]]]; auto.
  now apply model_loop_no_KeyError in Hloop.
Qed.

Lemma train_raises_only_witness :
  model_train QTableModel 20 ∅ 0 Runs.tape0 false (Examples.kw 1 0)
    = Raise ZeroDivisionError /\
  (ZeroDivisionError = IndexError \/ ZeroDivisionError = ZeroDivisionError \/
   ZeroDivisionError = Diverges \/
   (ZeroDivisionError = ValueError /\ @env_actions Z Corridor.tape Corridor.env = [])).
Proof.
  assert (Hrun : model_train QTableModel 20 ∅ 0 Runs.tape0 false (Examples.kw 1 0)
                 = Raise ZeroDivisionError) by (vm_compute; reflexivity).
  split; [exact Hrun|].
  exact (train_raises_only QTableModel 20 ∅ 0 Runs.tape0 false (Examples.kw 1 0)
           ZeroDivisionError Hrun).
Defined.

(** ** An environment without start cells *)

(** X5. Where [environment.empty] is empty, [train] of either model raises
    [IndexError]: the first [random.choice(start_list)] draws from an empty
    list, before the environment is reset or stepped. *)
Theorem train_without_start_cells {E G : Type} `{Environment E G} `{RandomSource G}
    (m : model) (fuel : nat) (Q : gmap (list Z * Z) float) (env : E) (g : G) (stop : bool)
    (kw : kwargs) :
  @env_empty E G _ = [] ->
  model_train m fuel Q env g stop kw = Raise IndexError.
Proof.
  intros Hempty. unfold model_train, train.
  pose proof (episodes_clamped kw) as Hclamp.
  destruct (Z.to_nat (episodes (read_kwargs kw))) as [|n] eqn:Hn; [lia|].
  cbn [episodes_loop]. unfold episode_pass at 1.
  cbn [train_start ts_start_list ts_gen]. rewrite Hempty. reflexivity.
Qed.

Lemma train_without_start_cells_witness :
  @model_train Z Corridor.tape MoreRuns.walled Corridor.rand QTableTraceModel
    20 ∅ 0 Runs.tape0 true (Examples.kw 3 1) = Raise IndexError.
Proof.
  apply (@train_without_start_cells Z Corridor.tape MoreRuns.walled Corridor.rand).
  reflexivity.
Defined.

(** ** [check_convergence_every = 0] *)

(** X6. With [check_convergence_every = 0], [train] of either model returns
    nothing: once the first episode has been played to its end,
    [episode % check_convergence_every] raises [ZeroDivisionError]. *)
Theorem train_check_every_zero {E G : Type} `{Environment E G} `{RandomSource G}
    (m : model) (fuel : nat) (Q : gmap (list Z * Z) float) (env : E) (g : G) (stop : bool)
    (kw : kwargs) :
  kw_check_convergence_every kw = Some 0 ->
  (forall out, model_train m fuel Q env g stop kw <> Ok out) /\
  (forall start_cell g1 env1 obs st,
     random_choice (@env_empty E G _) g = Ok (start_cell, g1) ->
     env_reset env start_cell = (env1, obs) ->
     play (model_body m) fuel (read_kwargs kw) (exploration_rate0 (read_kwargs kw))
       (episode_start (model_new_local m) (train_start (read_kwargs kw) Q env g)
          env1 g1 start_cell obs) = Ok st ->
     model_train m fuel Q env g stop kw = Raise ZeroDivisionError).
Proof.
  intros Hkw.
  assert (Hzero : check_convergence_every (read_kwargs kw) = 0).
  { unfold read_kwargs. cbn [check_convergence_every]. now rewrite Hkw. }
  split.
  - intros out Hrun.
    destruct (model_train_summary m fuel Q env g stop kw out Hrun)
      as (_ & _ & _ & _ & _ & _ & _ & _ & _ & Hevery).
    now apply Hevery.
  - intros start_cell g1 env1 obs st Hc Hreset Hplay.
    unfold model_train, train.
    pose proof (episodes_clamped kw) as Hclamp.
    destruct (Z.to_nat (episodes (read_kwargs kw))) as [|n] eqn:Hn; [lia|].
    cbn [episodes_loop]. unfold episode_pass at 1.
    cbn [train_start ts_start_list ts_gen ts_env ts_exploration_rate ts_Q ts_log
         ts_cumulative_reward].
    rewrite Hc. cbn [mbind result_bind].
    destruct (list_remove_first_is_Ok start_cell (@env_empty E G _)) as [rest ->];
      [eapply random_choice_elem; eauto|].
    cbn [mbind result_bind]. rewrite Hreset.
    unfold episode_start, train_start in Hplay.
    cbn [ts_Q ts_log ts_cumulative_reward] in Hplay. rewrite Hplay.
    cbn [mbind result_bind]. unfold py_mod. rewrite Hzero. reflexivity.
Qed.

Lemma train_check_every_zero_witness :
  model_train QTableModel 20 ∅ 0 Runs.tape0 true (Examples.kw 3 0)
    = Raise ZeroDivisionError.
Proof.
  eapply (proj2 (train_check_every_zero QTableModel 20 ∅ 0 Runs.tape0 true
                   (Examples.kw 3 0) eq_refl) (0, 0) Runs.tape0 0 [[0]]);
    vm_compute; reflexivity.
Defined.

(** ** Runs that are not asked to stop at convergence *)

(** X7. With [stop_at_convergence=False], [train] of either model plays all of
    its [max(episodes, 1)] episodes, whatever [check_win_all] answers, and
    records a check at every multiple of [check_convergence_every]. *)
Theorem train_without_stop_plays_all {E G : Type} `{Environment E G} `{RandomSource G}
    (m : model) (fuel : nat) (Q : gmap (list Z * Z) float) (env : E) (g : G)
    (kw : kwargs) (out : train_out E G) :
  model_train m fuel Q env g false kw = Ok out ->
  let n := Z.max (kwargs_get (kw_episodes kw) 1000) 1 in
  out_episode out = n /\
  length (out_cumulative_reward_history out) = Z.to_nat n /\
  map fst (out_win_history out) =
    filter (is_checkpoint (check_convergence_every (read_kwargs kw))) (seqZ 1 n).
Proof.
  intros Hrun n.
  destruct (model_train_summary m fuel Q env g false kw out Hrun)
    as (Hbound & _ & _ & Hwin & Hmap & _ & Hearly & Hlen & _ & _).
  change (episodes (read_kwargs kw)) with n in Hbound, Hearly.
  assert (Hn : out_episode out = n).
  { destruct (Z.lt_ge_cases (out_episode out) n) as [Hlt | Hge]; [|lia].
    destruct (Hearly Hlt) as [Hstop _]. discriminate. }
  split; [exact Hn|]. split; [now rewrite Hlen, Hn|].
  rewrite Hwin, <- Hn, <- Hmap, map_map. reflexivity.
Qed.

Lemma train_without_stop_plays_all_witness :
  model_train QTableModel 20 ∅ 0 Runs.tape0 false (Examples.kw 3 1)
    = Ok MoreRuns.plain_3_1_all /\
  out_episode MoreRuns.plain_3_1_all = Z.max 3 1 /\
  length (out_cumulative_reward_history MoreRuns.plain_3_1_all) = Z.to_nat (Z.max 3 1) /\
  map fst (out_win_history MoreRuns.plain_3_1_all) =
    filter (is_checkpoint 1) (seqZ 1 (Z.max 3 1)).
Proof.
  assert (Hrun : model_train QTableModel 20 ∅ 0 Runs.tape0 false (Examples.kw 3 1)
                 = Ok MoreRuns.plain_3_1_all) by (vm_compute; reflexivity).
  split; [exact Hrun|].
  exact (train_without_stop_plays_all QTableModel 20 ∅ 0 Runs.tape0 (Examples.kw 3 1)
           MoreRuns.plain_3_1_all Hrun).
Defined.

(** ** One reset and one total per episode *)

(** X8. A run of [train] that returns has reset the environment once for each
    episode it ran and appended one total to the reward history for each;
    the win history is no longer than that. *)
Theorem train_resets_once_per_episode {E G : Type} `{Environment E G} `{RandomSource G}
    (m : model) (fuel : nat) (Q : gmap (list Z * Z) float) (env : E) (g : G) (stop : bool)
    (kw : kwargs) (out : train_out E G) :
  model_train m fuel Q env g stop kw = Ok out ->
  count is_reset (out_log out) = Z.to_nat (out_episode out) /\
  length (out_cumulative_reward_history out) = Z.to_nat (out_episode out) /\
  (length (out_win_history out) <= Z.to_nat (out_episode out))%nat.
Proof.
  intros Hrun.
  destruct (model_train_summary m fuel Q env g stop kw out Hrun)
    as (Hbound & Hreset & _ & Hwin & Hmap & _ & _ & Hlen & _ & _).
  split; [exact Hreset|]. split; [exact Hlen|].
  rewrite Hwin, length_map, <- (length_map (fun c : Z * bool * float => c.1.1)), Hmap.
  etrans; [apply length_filter|]. rewrite length_seqZ. lia.
Qed.

Lemma train_resets_once_per_episode_witness :
  model_train QTableModel 20 ∅ 0 Runs.tape0 true (Examples.kw 3 1) = Ok Runs.plain_3_1 /\
  count is_reset (out_log Runs.plain_3_1) = Z.to_nat (out_episode Runs.plain_3_1) /\
  length (out_cumulative_reward_history Runs.plain_3_1)
    = Z.to_nat (out_episode Runs.plain_3_1) /\
  (length (out_win_history Runs.plain_3_1) <= Z.to_nat (out_episode Runs.plain_3_1))%nat.
Proof.
  assert (Hrun : model_train QTableModel 20 ∅ 0 Runs.tape0 true (Examples.kw 3 1)
                 = Ok Runs.plain_3_1) by (vm_compute; reflexivity).
  split; [exact Hrun|].
  exact (train_resets_once_per_episode QTableModel 20 ∅ 0 Runs.tape0 true
           (Examples.kw 3 1) Runs.plain_3_1 Hrun).
Defined.

(** ** A check interval longer than the run *)

Lemma no_checkpoint_below (every n : Z) :
  n < every -> filter (is_checkpoint every) (seqZ 1 n) = [].
Proof.
  intros Hlt.
  assert (Hall : Forall (fun e => ~ is_checkpoint every e) (seqZ 1 n)).
  { apply Forall_seqZ. intros e He. unfold is_checkpoint.
    rewrite Z.mod_small by lia. lia. }
  induction Hall as [|e l He Hall IH]; [reflexivity|].
  now rewrite filter_cons_False.
Qed.

(** X9. Where [check_convergence_every] is greater than [max(episodes, 1)],
    [check_win_all] is never called: the win history stays empty and the
    run plays all its episodes, also with [stop_at_convergence=True]. *)
Theorem train_never_checks_when_every_is_large {E G : Type}
    `{Environment E G} `{RandomSource G}
    (m : model) (fuel : nat) (Q : gmap (list Z * Z) float) (env : E) (g : G) (stop : bool)
    (kw : kwargs) (out : train_out E G) :
  model_train m fuel Q env g stop kw = Ok out ->
  Z.max (kwargs_get (kw_episodes kw) 1000) 1 < check_convergence_every (read_kwargs kw) ->
  checks (out_log out) = [] /\
  out_win_history out = [] /\
  out_episode out = Z.max (kwargs_get (kw_episodes kw) 1000) 1.
Proof.
  intros Hrun Hlarge.
  destruct (model_train_summary m fuel Q env g stop kw out Hrun)
    as (Hbound & _ & _ & Hwin & Hmap & _ & Hearly & _ & _ & _).
  change (episodes (read_kwargs kw)) with (Z.max (kwargs_get (kw_episodes kw) 1000) 1)
    in Hbound, Hearly.
  rewrite no_checkpoint_below in Hmap by lia.
  assert (Hnone : checks (out_log out) = []).
  { destruct (checks (out_log out)); [reflexivity | discriminate]. }
  split; [exact Hnone|]. split; [now rewrite Hwin, Hnone|].
  destruct (Z.lt_ge_cases (out_episode out) (Z.max (kwargs_get (kw_episodes kw) 1000) 1))
    as [Hlt | Hge]; [|lia].
  destruct (Hearly Hlt) as [_ (r & Hin)]. rewrite Hnone in Hin. inversion Hin.
Qed.

Lemma train_never_checks_when_every_is_large_witness :
  model_train QTableTraceModel 20 ∅ 0 Runs.tape0 true (Examples.kw 3 5)
    = Ok MoreRuns.trace_3_5 /\
  checks (out_log MoreRuns.trace_3_5) = [] /\
  out_win_history MoreRuns.trace_3_5 = [] /\
  out_episode MoreRuns.trace_3_5 = Z.max 3 1.
Proof.
  assert (Hrun : model_train QTableTraceModel 20 ∅ 0 Runs.tape0 true (Examples.kw 3 5)
                 = Ok MoreRuns.trace_3_5) by (vm_compute; reflexivity).
  split; [exact Hrun|].
  apply (train_never_checks_when_every_is_large QTableTraceModel 20 ∅ 0 Runs.tape0 true
           (Examples.kw 3 5) MoreRuns.trace_3_5 Hrun).
  reflexivity.
Defined.

(** ** The reward history *)

(** X10. The reward history that [train] returns is the running total of all
    rewards since the start of the run, taken after the last step of each
    episode: the total is not set back between episodes. *)
Theorem reward_history_is_running_total {E G : Type} `{Environment E G} `{RandomSource G}
    (m : model) (fuel : nat) (Q : gmap (list Z * Z) float) (env : E) (g : G) (stop : bool)
    (kw : kwargs) (out : train_out E G) :
  model_train m fuel Q env g stop kw = Ok out ->
  out_cumulative_reward_history out = running_totals 0%float (out_log out) /\
  last (out_cumulative_reward_history out)
    = Some (add_rewards 0%float (rewards (out_log out))).
Proof.
  intros Hrun.
  destruct (model_train_inv m fuel Q env g stop kw out Hrun) as (ts & Hloop & Hout).
  destruct (episodes_loop_steps (model_body m) (model_new_local m) (model_body_steps m)
              _ fuel stop _ 1 _ ts _ Hloop)
    as (new & k & Hlast & Hk & Hk0 & Hlog & Hz & _ & _ & _ & Hcum & Hhist & _ & _ & Hlasth).
  cbn [train_start ts_log ts_cumulative_reward ts_cumulative_reward_history app]
    in Hlog, Hcum, Hhist.
  destruct (model_train_summary m fuel Q env g stop kw out Hrun) as (Hbound & _).
  rewrite Hout. cbn [train_return out_log out_cumulative_reward_history].
  unfold f0 in Hcum, Hhist.
  rewrite Hlog, <- Hcum. split; [exact Hhist|].
  apply Hlasth. lia.
Qed.

Lemma reward_history_is_running_total_witness :
  model_train QTableModel 20 ∅ 0 Runs.tape0 false (Examples.kw 3 1)
    = Ok MoreRuns.plain_3_1_all /\
  out_cumulative_reward_history MoreRuns.plain_3_1_all
    = running_totals 0%float (out_log MoreRuns.plain_3_1_all) /\
  last (out_cumulative_reward_history MoreRuns.plain_3_1_all)
    = Some (add_rewards 0%float (rewards (out_log MoreRuns.plain_3_1_all))).
Proof.
  assert (Hrun : model_train QTableModel 20 ∅ 0 Runs.tape0 false (Examples.kw 3 1)
                 = Ok MoreRuns.plain_3_1_all) by (vm_compute; reflexivity).
  split; [exact Hrun|].
  exact (reward_history_is_running_total QTableModel 20 ∅ 0 Runs.tape0 false
           (Examples.kw 3 1) MoreRuns.plain_3_1_all Hrun).
Defined.

(** ** Start cells are drawn without replacement *)

Lemma submseteq_NoDup (l k : list (Z * Z)) : l ⊆+ k -> NoDup k -> NoDup l.
Proof.
  intros Hsub Hnd. destruct (submseteq_Permutation l k Hsub) as [k' Hk'].
  rewrite Hk' in Hnd. now apply NoDup_app in Hnd as [Hl _].
Qed.

(** X11. While a run of [train] has played no more episodes than the
    environment has start cells, it has started from each cell at most as
    often as the cell occurs in [environment.empty]; a run of exactly that
    many episodes has started from every cell. *)
Theorem start_cells_without_replacement {E G : Type} `{Environment E G} `{RandomSource G}
    (m : model) (fuel : nat) (Q : gmap (list Z * Z) float) (env : E) (g : G) (stop : bool)
    (kw : kwargs) (out : train_out E G) :
  model_train m fuel Q env g stop kw = Ok out ->
  out_episode out <= Z.of_nat (length (@env_empty E G _)) ->
  resets (out_log out) ⊆+ @env_empty E G _ /\
  (NoDup (@env_empty E G _) -> NoDup (resets (out_log out))) /\
  (out_episode out = Z.of_nat (length (@env_empty E G _)) ->
   resets (out_log out) ≡ₚ @env_empty E G _).
Proof.
  intros Hrun Hle.
  destruct (model_train_steps m fuel Q env g stop kw out Hrun)
    as (Hlen & Hsub & _).
  specialize (Hsub Hle). split; [exact Hsub|]. split.
  - intros Hnd. eapply submseteq_NoDup; eauto.
  - intros Heq. apply submseteq_length_Permutation; [exact Hsub|]. lia.
Qed.

Lemma start_cells_without_replacement_witness :
  model_train QTableModel 20 ∅ 0 Runs.tape0 false (Examples.kw 3 1)
    = Ok MoreRuns.plain_3_1_all /\
  resets (out_log MoreRuns.plain_3_1_all) ≡ₚ @env_empty Z Corridor.tape Corridor.env.
Proof.
  assert (Hrun : model_train QTableModel 20 ∅ 0 Runs.tape0 false (Examples.kw 3 1)
                 = Ok MoreRuns.plain_3_1_all) by (vm_compute; reflexivity).
  split; [exact Hrun|].
  apply (start_cells_without_replacement QTableModel 20 ∅ 0 Runs.tape0 false
           (Examples.kw 3 1) MoreRuns.plain_3_1_all Hrun); vm_compute; congruence.
Defined.

(** ** The actions handed to the environment *)

(** X12. Every action that a run of [train] hands to [environment.step] is an
    item of [environment.actions] (drawn at random) or an index below its
    length (returned by [predict]); where the environment numbers its
    actions by their position, every such action is one of its actions. *)
Theorem stepped_actions_are_valid {E G : Type} `{Environment E G} `{RandomSource G}
    (m : model) (fuel : nat) (Q : gmap (list Z * Z) float) (env : E) (g : G) (stop : bool)
    (kw : kwargs) (out : train_out E G) :
  model_train m fuel Q env g stop kw = Ok out ->
  Forall (fun t => tr_action t ∈ @env_actions E G _ \/
                   0 <= tr_action t < Z.of_nat (length (@env_actions E G _)))
         (log_transitions (out_log out)) /\
  ((forall (i : nat) a, @env_actions E G _ !! i = Some a -> a = Z.of_nat i) ->
   Forall (fun t => tr_action t ∈ @env_actions E G _) (log_transitions (out_log out))).
Proof.
  intros Hrun.
  destruct (model_train_steps m fuel Q env g stop kw out Hrun) as (_ & _ & Hval & _).
  split; [exact Hval|].
  intros Hpos. eapply Forall_impl; [exact Hval|].
  intros t [Hin | Hrange]; [exact Hin|].
  destruct (lookup_lt_is_Some_2 (@env_actions E G _) (Z.to_nat (tr_action t)))
    as [a Ha]; [lia|].
  apply list_elem_of_lookup. exists (Z.to_nat (tr_action t)).
  rewrite Ha. f_equal. rewrite (Hpos _ _ Ha). lia.
Qed.

Lemma stepped_actions_are_valid_witness :
  model_train QTableModel 20 ∅ 0 Runs.tape0 true (Examples.kw 3 1) = Ok Runs.plain_3_1 /\
  Forall (fun t => tr_action t ∈ @env_actions Z Corridor.tape Corridor.env)
         (log_transitions (out_log Runs.plain_3_1)).
Proof.
  assert (Hrun : model_train QTableModel 20 ∅ 0 Runs.tape0 true (Examples.kw 3 1)
                 = Ok Runs.plain_3_1) by (vm_compute; reflexivity).
  split; [exact Hrun|].
  apply (stepped_actions_are_valid QTableModel 20 ∅ 0 Runs.tape0 true
           (Examples.kw 3 1) Runs.plain_3_1 Hrun).
  intros [|[|i]] a Ha; cbn in Ha; first [discriminate Ha | injection Ha as <-; reflexivity].
Defined.

(** ** An episode is a path *)

(** X13. The steps of an episode follow one another: the first acts in the state
    the episode starts in, each later one in the state the one before it
    arrived at; the episode takes at least one step, and it resets nothing
    and checks nothing on its way. *)
Theorem episode_steps_are_chained {E G : Type} `{Environment E G} `{RandomSource G}
    (m : model) (fuel : nat) (hp : hyper) (eps : float)
    (st st' : episode_st E G (model_local m)) :
  play (model_body m) fuel hp eps st = Ok st' ->
  exists new,
    es_log st' = es_log st ++ new /\
    log_transitions new <> [] /\
    chained (es_state st) (log_transitions new) /\
    resets new = [] /\ checks new = [].
Proof.
  intros Hplay.
  destruct (play_steps (model_body m) (model_body_steps m) fuel hp eps st st' Hplay)
    as (new & Hlog & Hz & Hc & Hne & Hch & _).
  exists new. auto.
Qed.

Lemma episode_steps_are_chained_witness :
  play (model_body QTableTraceModel) 20 Examples.hp 0.1%float Examples.trace0
    = Ok MoreRuns.played /\
  exists new,
    es_log MoreRuns.played = es_log Examples.trace0 ++ new /\
    log_transitions new <> [] /\
    chained (es_state Examples.trace0) (log_transitions new) /\
    resets new = [] /\ checks new = [].
Proof.
  assert (Hrun : play (model_body QTableTraceModel) 20 Examples.hp 0.1%float Examples.trace0
                 = Ok MoreRuns.played) by (vm_compute; reflexivity).
  split; [exact Hrun|].
  exact (episode_steps_are_chained QTableTraceModel 20 Examples.hp 0.1%float
           Examples.trace0 MoreRuns.played Hrun).
Defined.

(** ** The exploration rate *)

(** X14. After the loop over the episodes, the exploration rate has been
    multiplied by [exploration_decay] once for every episode played, but
    not for the episode at which the loop stopped at convergence. *)
Theorem exploration_rate_decays_per_episode {E G : Type} `{Environment E G}
    `{RandomSource G} (m : model) (n fuel : nat) (stop : bool) (hp : hyper) (first : Z)
    (ts ts' : train_st E G) (final : Z) :
  episodes_loop (model_body m) (model_new_local m) n fuel stop hp first ts
    = Ok (ts', final) ->
  exists new,
    ts_log ts' = ts_log ts ++ new /\
    ts_exploration_rate ts' =
      decayed (Z.to_nat (final - first + 1) - (if (stop && any_won new)%bool then 1 else 0))
        (exploration_decay hp) (ts_exploration_rate ts) /\
    ((stop && any_won new)%bool = false -> Z.to_nat (final - first + 1) = n).
Proof.
  intros Hloop.
  destruct (episodes_loop_steps (model_body m) (model_new_local m) (model_body_steps m)
              n fuel stop hp first ts ts' final Hloop)
    as (new & k & Hlast & Hk & Hk0 & Hlog & Hz & _ & _ & _ & _ & _ & Hrate & Hfull & _).
  exists new. assert (Hk' : Z.to_nat (final - first + 1) = k) by lia.
  rewrite Hk'. auto.
Qed.

Lemma exploration_rate_decays_per_episode_witness :
  episodes_loop (model_body QTableModel) (model_new_local QTableModel) 3 20 false
    Examples.hp 1 (train_start Examples.hp ∅ 0 Runs.tape0) = Ok (MoreRuns.after_loop, 3) /\
  exists new,
    ts_log MoreRuns.after_loop = ts_log (train_start Examples.hp ∅ 0 Runs.tape0) ++ new /\
    ts_exploration_rate MoreRuns.after_loop =
      decayed (Z.to_nat (3 - 1 + 1) - (if (false && any_won new)%bool then 1 else 0))
        (exploration_decay Examples.hp)
        (ts_exploration_rate (train_start Examples.hp ∅ 0 Runs.tape0)) /\
    ((false && any_won new)%bool = false -> Z.to_nat (3 - 1 + 1) = 3%nat).
Proof.
  assert (Hrun : episodes_loop (model_body QTableModel) (model_new_local QTableModel) 3 20
                   false Examples.hp 1 (train_start Examples.hp ∅ 0 Runs.tape0)
                 = Ok (MoreRuns.after_loop, 3)) by (vm_compute; reflexivity).
  split; [exact Hrun|].
  exact (exploration_rate_decays_per_episode QTableModel 3 20 false Examples.hp 1
           (train_start Examples.hp ∅ 0 Runs.tape0) MoreRuns.after_loop 3 Hrun).
Defined.

(** ** The two ends of the exploration rate *)

(** X15. With the draw [u] of [np.random.random()] in [[0, 1)]: an
    [exploration_rate] of zero or less always exploits ([predict]), and an
    [exploration_rate] of one or more always explores
    ([random.choice(actions)]). *)
Theorem exploration_rate_extremes {E G : Type} `{Environment E G} `{RandomSource G}
    (eps : float) (Q : gmap (list Z * Z) float) (state : list Z) (g : G) :
  (0 <=? (np_random g).1)%float = true ->
  ((np_random g).1 <? 1)%float = true ->
  ((eps <=? 0)%float = true ->
   choose_action eps Q state g = predict env_actions Q (Tuple state) (np_random g).2) /\
  ((1 <=? eps)%float = true ->
   choose_action eps Q state g = random_choice env_actions (np_random g).2).
Proof.
  intros Hlow Hhigh. unfold choose_action.
  destruct (np_random g) as [u g1]. cbn [fst snd] in *. split; intros Heps.
  - assert (Hnot : (u <? eps)%float = false).
    { apply FloatFacts.leb_not_ltb. eapply FloatOrder.leb_trans; eauto. }
    now rewrite Hnot.
  - assert (Hlt : (u <? eps)%float = true).
    { eapply FloatFacts.ltb_leb_trans; eauto. }
    now rewrite Hlt.
Qed.

Lemma exploration_rate_extremes_witness :
  (choose_action 0%float (es_Q Examples.trace3) [0] Runs.tape0
   = predict (@env_actions Z Corridor.tape Corridor.env) (es_Q Examples.trace3)
       (Tuple [0]) (np_random Runs.tape0).2) /\
  (choose_action 1%float (es_Q Examples.trace3) [0] Runs.tape0
   = random_choice (@env_actions Z Corridor.tape Corridor.env) (np_random Runs.tape0).2).
Proof.
  split.
  - apply (exploration_rate_extremes (E:=Z) 0%float (es_Q Examples.trace3) [0] Runs.tape0);
      vm_compute; reflexivity.
  - apply (exploration_rate_extremes (E:=Z) 1%float (es_Q Examples.trace3) [0] Runs.tape0);
      vm_compute; reflexivity.
Defined.

(** ** A single best action *)

(** X16. Where no entry of [q(state)] is NaN and one position holds a value
    greater than every other, [predict] returns that position, whatever
    [random.choice] draws. *)
Theorem predict_single_maximum {G : Type} `{RandomSource G}
    (actions : list Z) (Q : gmap (list Z * Z) float) (state : state_arg) (g : G)
    (i : nat) (v : float) :
  Forall not_nan (q actions Q state) ->
  q actions Q state !! i = Some v ->
  (forall (j : nat) w, q actions Q state !! j = Some w -> j <> i -> (w <? v)%float = true) ->
  ((randbelow 1 g).1 < 1)%nat ->
  predict actions Q state g = Ok (Z.of_nat i, (randbelow 1 g).2).
Proof.
  intros Hnn Hi Hbest Hdraw.
  assert (Hv : not_nan v).
  { rewrite Forall_forall in Hnn. apply Hnn. apply list_elem_of_lookup. eauto. }
  destruct (greedy_actions_is_Ok actions Q state) as [acts Hacts].
  { intros Hnil. unfold q in Hi. rewrite Hnil in Hi. discriminate. }
  destruct (greedy_actions_elem actions Q state acts Hacts) as (m & Hm & Hnd & Helem).
  destruct (np_max_greatest _ _ Hnn Hm) as (_ & Hin & Hall).
  assert (Hmv : m = v).
  { apply list_elem_of_In, list_elem_of_lookup in Hin as [k Hk].
    destruct (decide (k = i)) as [-> | Hne]; [congruence|].
    pose proof (Hbest k m Hk Hne) as Hlt.
    rewrite Forall_forall in Hall.
    assert (Hle : (v <=? m)%float = true).
    { apply Hall. apply list_elem_of_lookup. eauto. }
    apply FloatFacts.leb_not_ltb in Hle. congruence. }
  subst m.
  assert (Hacts1 : acts = [i]).
  { apply NoDup_only; [exact Hnd|]. intros j. rewrite Helem. split.
    - intros (w & Hw & Heq). destruct (decide (j = i)) as [-> | Hne]; [reflexivity|].
      apply (Hbest j w Hw) in Hne. apply FloatFacts.ltb_not_eqb in Hne. congruence.
    - intros ->. exists v. split; [exact Hi | now apply FloatOrder.eqb_refl]. }
  rewrite (predict_draw actions Q state g acts Hacts), Hacts1.
  unfold draw_index. cbn [length].
  destruct ((randbelow 1 g).1) as [|r] eqn:Hr; [reflexivity | lia].
Qed.

Lemma predict_single_maximum_witness :
  predict [0; 1] (es_Q Examples.trace3) (Tuple [0]) Runs.tape0
    = Ok (Z.of_nat 0, (randbelow 1 Runs.tape0).2).
Proof.
  apply (predict_single_maximum [0; 1] (es_Q Examples.trace3) (Tuple [0]) Runs.tape0
           0%nat 0%float).
  - repeat constructor.
  - reflexivity.
  - intros [|[|j]] w Hw Hne; [congruence | | discriminate].
    vm_compute in Hw. injection Hw as <-. reflexivity.
  - cbn. lia.
Defined.

(** ** A NaN in the table *)

(** X17. Where an entry of [q(state)] is NaN, [np.max] is NaN, no entry is [==]
    to it, and [predict] raises [IndexError] from [random.choice] on an
    empty array. *)
Theorem predict_raises_on_nan {G : Type} `{RandomSource G}
    (actions : list Z) (Q : gmap (list Z * Z) float) (state : state_arg) (g : G)
    (v : float) :
  In v (q actions Q state) -> is_nan v = true ->
  greedy_actions actions Q state = Ok [] /\
  predict actions Q state g = Raise IndexError.
Proof.
  intros Hin Hv.
  destruct (np_max_nan _ _ Hin Hv) as (m & Hm & Hmnan).
  assert (Hacts : greedy_actions actions Q state = Ok []).
  { unfold greedy_actions. rewrite Hm. cbn [mbind result_bind]. f_equal.
    apply np_nonzero_all_false. apply Forall_forall. intros b Hb.
    apply list_elem_of_In, in_map_iff in Hb as (w & <- & _).
    now apply FloatFacts.eqb_nan_r. }
  split; [exact Hacts|].
  now rewrite (predict_draw actions Q state g [] Hacts).
Qed.

Lemma predict_raises_on_nan_witness :
  greedy_actions [0; 1] MoreRuns.nan_Q (Tuple [0]) = Ok [] /\
  predict [0; 1] MoreRuns.nan_Q (Tuple [0]) Runs.tape0 = Raise IndexError.
Proof.
  apply (predict_raises_on_nan [0; 1] MoreRuns.nan_Q (Tuple [0]) Runs.tape0 nan).
  - left. reflexivity.
  - reflexivity.
Defined.

(** ** The greedy choice *)

(** X18. Where no entry of [q(state)] is NaN, the position [predict] returns
    holds a value that no entry of [q(state)] exceeds. *)
Theorem predict_is_greedy {G : Type} `{RandomSource G}
    (actions : list Z) (Q : gmap (list Z * Z) float) (state : state_arg) (g : G)
    (a : Z) (g' : G) :
  Forall not_nan (q actions Q state) ->
  predict actions Q state g = Ok (a, g') ->
  0 <= a < Z.of_nat (length actions) /\
  exists v, q actions Q state !! Z.to_nat a = Some v /\
    Forall (fun w => (w <=? v)%float = true) (q actions Q state).
Proof.
  intros Hnn Hp. split; [eapply predict_in_range; eauto|].
  destruct (greedy_actions actions Q state) as [acts|e] eqn:Hacts.
  2: { unfold predict in Hp. rewrite Hacts in Hp. discriminate. }
  rewrite (predict_draw actions Q state g acts Hacts) in Hp.
  destruct (draw_index_elem acts g a g' Hp) as (i & Ha & Hi).
  destruct (greedy_actions_elem actions Q state acts Hacts) as (m & Hm & Hnd & Helem).
  destruct (proj1 (Helem i) Hi) as (v & Hv & Heq).
  destruct (np_max_greatest _ _ Hnn Hm) as (_ & _ & Hall).
  exists v. subst a. rewrite Nat2Z.id. split; [exact Hv|].
  eapply Forall_impl; [exact Hall|]. intros w Hw. cbn beta in Hw.
  eapply FloatOrder.leb_trans; [exact Hw|]. now apply FloatFacts.eqb_leb_sym.
Qed.

Lemma predict_is_greedy_witness :
  0 <= 0 < Z.of_nat (length [0; 1]) /\
  exists v, q [0; 1] (es_Q Examples.trace3) (Tuple [0]) !! Z.to_nat 0 = Some v /\
    Forall (fun w => (w <=? v)%float = true) (q [0; 1] (es_Q Examples.trace3) (Tuple [0])).
Proof.
  apply (predict_is_greedy [0; 1] (es_Q Examples.trace3) (Tuple [0]) Runs.tape0 0
           (randbelow 1 Runs.tape0).2).
  - repeat constructor.
  - vm_compute; reflexivity.
Defined.

(** ** The keys of the trace *)

(** X19. In an episode of [QTableTraceModel.train], which starts with an empty
    trace, the keys of the trace are the pairs chosen in the episode so
    far, and no other. *)
Theorem etrace_keys_are_the_episodes_pairs {E G : Type} `{Environment E G}
    `{RandomSource G} (hp : hyper) (eps : float)
    (st0 st : episode_st E G (gmap (list Z * Z) float)) :
  es_local st0 = ∅ -> in_episode hp eps st0 st ->
  exists new,
    es_log st = es_log st0 ++ new /\
    forall key, key ∈ dom (es_local st) <-> key ∈ chosen_pairs new.
Proof.
  intros Hnew Hin. induction Hin as [|st st' Hin IH Hbody].
  - exists []. rewrite app_nil_r, Hnew, dom_empty_L. split; [reflexivity|].
    intros key. cbn. split; intros Hk; inversion Hk.
  - destruct IH as (new & Hlog & Hkeys).
    destruct (qtable_trace_body_trace hp eps st st' Continue Hbody)
      as (key0 & Hpairs & _ & Htr).
    destruct (qtable_trace_body_ok hp eps st st' Continue Hbody) as [(t & Hlog' & _) _].
    exists (new ++ transition_events t).
    split; [rewrite Hlog', Hlog; now rewrite <- app_assoc|].
    intros key. rewrite Htr, dom_etrace_decay, dom_etrace_visit, elem_of_union,
      elem_of_singleton, Hkeys, chosen_pairs_app, elem_of_app.
    rewrite Hlog', chosen_pairs_app in Hpairs. apply app_inv_head in Hpairs.
    rewrite Hpairs, list_elem_of_singleton. tauto.
Qed.

Lemma etrace_keys_are_the_episodes_pairs_witness :
  exists new,
    es_log Examples.trace2 = es_log Examples.trace0 ++ new /\
    forall key, key ∈ dom (es_local Examples.trace2) <-> key ∈ chosen_pairs new.
Proof.
  apply (etrace_keys_are_the_episodes_pairs Examples.hp 1%float Examples.trace0
           Examples.trace2 eq_refl).
  apply (in_episode_step _ _ _ Examples.trace1 Examples.trace2).
  - apply (in_episode_step _ _ _ Examples.trace0 Examples.trace1).
    + apply in_episode_start.
    + vm_compute; reflexivity.
  - vm_compute; reflexivity.
Defined.
